(** * Conceptor reservoir ([conceptor/reservoir.py]): a shallow embedding

    The class [Reservoir] of [reservoir.py] is embedded as a record of its
    instance fields and a small state-and-exception monad over that record:
    every method is a computation that reads and assigns the fields of
    [self] in the order of the Python statements, and an exception leaves
    behind whatever had been assigned before it was raised.

    Conventions of the embedding.
    - A Python float is a real number ([R]): arithmetic is exact, there is
      no rounding, no [nan] and no [inf].
    - A 2-D numpy array is the list of its rows; [np.asarray([])] is the
      empty list.  An array with no row does not record its column count.
      Shapes are not checked by the operations (numpy raises on a shape
      mismatch); the theorems carry the shapes they need as hypotheses.
    - The exceptions that are modelled are the ones the methods can raise
      on well-shaped arguments: [IndexError] (list indexing),
      [LinAlgError] ([np.linalg.inv], [np.linalg.svd]) and [ValueError]
      (negative dimension, empty [argmax], empty [row_stack],
      [interp1d]).
    - [np.linalg.inv], [np.linalg.svd], [scipy.interpolate.interp1d],
      [np.arctanh] and [conceptor.logic.PHI] are parameters of the model
      (variables of the section [Model]).
    - The state that [augment] draws with [np.random.randn] is an argument
      of the method; a 3-D array is the list of its 2-D arrays along the
      first axis. *)

From Stdlib Require Import String ZArith Reals List Arith Bool Lia Lra.
Import ListNotations.
Local Open Scope R_scope.

(** ** numpy arrays *)

Definition vector := list R.
Definition matrix := list (list R).

(** [M.shape[0]], [M.shape[1]], [M.size] and [M[i, j]]. *)
Definition nrows (M : matrix) : nat := length M.
Definition ncols (M : matrix) : nat := length (hd [] M).
Definition msize (M : matrix) : nat := (nrows M * ncols M)%nat.
Definition get (M : matrix) (i j : nat) : R := nth j (nth i M []) 0.

(** The [m] by [n] array whose entry [(i, j)] is [f i j]. *)
Definition mk_mat (m n : nat) (f : nat -> nat -> R) : matrix :=
  map (fun i => map (fun j => f i j) (seq 0 n)) (seq 0 m).

(** [f 0 + f 1 + ... + f (n-1)]. *)
Fixpoint sum_n (n : nat) (f : nat -> R) : R :=
  match n with
  | O => 0
  | S k => sum_n k f + f k
  end.

(** [shape m n M]: [M] has [m] rows of [n] entries each. *)
Definition shape (m n : nat) (M : matrix) : Prop :=
  length M = m /\ Forall (fun r => length r = n) M.

Definition np_zeros (m n : nat) : matrix := mk_mat m n (fun _ _ => 0).

Definition np_eye (n : nat) : matrix :=
  mk_mat n n (fun i j => if Nat.eqb i j then 1 else 0).

(** [np.diag] of a 1-D array: the diagonal matrix. *)
Definition np_diag (v : vector) : matrix :=
  mk_mat (length v) (length v) (fun i j => if Nat.eqb i j then nth i v 0 else 0).

(** [np.diag] of a 2-D array: its diagonal. *)
Definition np_diagonal (M : matrix) : vector :=
  map (fun i => get M i i) (seq 0 (Nat.min (nrows M) (ncols M))).

(** [A.dot(B)]. *)
Definition dot (A B : matrix) : matrix :=
  mk_mat (nrows A) (ncols B)
         (fun i j => sum_n (ncols A) (fun k => get A i k * get B k j)).

(** [M.T]. *)
Definition T (M : matrix) : matrix :=
  mk_mat (ncols M) (nrows M) (fun i j => get M j i).

(** [A + B], [A - B] and [A * B] (elementwise) on arrays of one shape. *)
Definition madd (A B : matrix) : matrix :=
  mk_mat (nrows A) (ncols A) (fun i j => get A i j + get B i j).
Definition msub (A B : matrix) : matrix :=
  mk_mat (nrows A) (ncols A) (fun i j => get A i j - get B i j).
Definition mmul (A B : matrix) : matrix :=
  mk_mat (nrows A) (ncols A) (fun i j => get A i j * get B i j).

(** [c * M] and [M / c] for a scalar [c]. *)
Definition mscale (c : R) (M : matrix) : matrix := map (map (Rmult c)) M.
Definition mdiv (M : matrix) (c : R) : matrix := map (map (fun x => x / c)) M.

Definition np_tanh (M : matrix) : matrix := map (map tanh) M.

(** [np.hstack((A, B))]. *)
Definition hstack (A B : matrix) : matrix :=
  map (fun ab => fst ab ++ snd ab) (combine A B).

(** [np.matlib.repmat(M, 1, k)]: [k] copies of [M] side by side. *)
Definition repmat_cols (M : matrix) (k : nat) : matrix :=
  map (fun r => concat (repeat r k)) M.

(** [M[:, n][None].T]: column [n] of [M] as a column array. *)
Definition column (M : matrix) (n : nat) : matrix :=
  map (fun r => [nth n r 0]) M.

(** [M[:, k] = x[:, 0]]. *)
Definition set_col (M : matrix) (k : nat) (x : matrix) : matrix :=
  mk_mat (nrows M) (ncols M)
         (fun i j => if Nat.eqb j k then get x i 0 else get M i j).

(** [np.linalg.norm(M, 'fro')]. *)
Definition sum_sq (M : matrix) : R :=
  sum_n (nrows M) (fun i => sum_n (ncols M) (fun j => get M i j * get M i j)).
Definition norm_fro (M : matrix) : R := sqrt (sum_sq M).

(** [np.arange(start, stop, step)]: [ceil((stop - start) / step)] points. *)
Definition ceilZ (x : R) : Z := (1 - up (- x))%Z.
Definition np_arange (start stop step : R) : vector :=
  map (fun i => start + INR i * step)
      (seq 0 (Z.to_nat (ceilZ ((stop - start) / step)))).

(** [np.argmax] of a 1-D array: the first index of the largest entry. *)
Fixpoint argmax_from (best_i : nat) (best : R) (i : nat) (l : vector) : nat :=
  match l with
  | [] => best_i
  | x :: t => if Rlt_dec best x then argmax_from i x (S i) t
              else argmax_from best_i best (S i) t
  end.
Definition np_argmax (l : vector) : option nat :=
  match l with
  | [] => None
  | x :: t => Some (argmax_from 0 x 1 t)
  end.

(** [np.mean] of a list of scalars. *)
Definition np_mean (l : vector) : R := fold_right Rplus 0 l / INR (length l).

(** The value of Python's built-in [sum] over the rows of a 2-D array: the
    integer [0] it starts from when there is no row, else a 1-D array. *)
Inductive pyval : Type :=
| PyScalar (x : R)
| PyArr1 (v : vector).

Fixpoint vadd (u v : vector) : vector :=
  match u, v with
  | a :: u', b :: v' => (a + b) :: vadd u' v'
  | _, _ => []
  end.

Definition py_add (acc : pyval) (row : vector) : pyval :=
  match acc with
  | PyScalar a => PyArr1 (map (Rplus a) row)
  | PyArr1 v => PyArr1 (vadd v row)
  end.

Definition py_sum (M : matrix) : pyval := fold_left py_add M (PyScalar 0).

(** [np.atleast_2d], which [np.row_stack] applies to every item. *)
Definition atleast_2d (v : pyval) : matrix :=
  match v with
  | PyScalar x => [[x]]
  | PyArr1 r => [r]
  end.

(** ** The instance *)

(** An entry of the conceptor bundle: a 1-D or a 2-D array. *)
Inductive ndarray : Type :=
| Arr1 (v : vector)
| Arr2 (m : matrix).

Record Reservoir : Type := mkReservoir {
  size_in : nat;
  size_net : nat;
  num_pattern : nat;
  sr : R;
  in_scale : R;
  bias_scale : R;
  varrho_out : R;
  varrho_w : R;
  W_star : matrix;
  W_in : matrix;
  W_bias : matrix;
  W_out : matrix;
  W : matrix;
  x_collectors : list matrix;
  pattern_Rs : list matrix;
  UR_collectors : list matrix;
  SR_collectors : list vector;
  pattern_collectors : list matrix;
  all_train_args : matrix;
  all_train_old_args : matrix;
  all_train_outs : matrix;
  Cs : list (list ndarray)
}.

(** Assignments [self.f = v], one for each field a method assigns. *)
Definition set_num_pattern (v : nat) (s : Reservoir) : Reservoir :=
  mkReservoir (size_in s) (size_net s) v (sr s) (in_scale s)
    (bias_scale s) (varrho_out s) (varrho_w s) (W_star s) (W_in s) (W_bias s)
    (W_out s) (W s) (x_collectors s) (pattern_Rs s) (UR_collectors s)
    (SR_collectors s) (pattern_collectors s) (all_train_args s)
    (all_train_old_args s) (all_train_outs s) (Cs s).
Definition set_W_out (v : matrix) (s : Reservoir) : Reservoir :=
  mkReservoir (size_in s) (size_net s) (num_pattern s) (sr s) (in_scale s)
    (bias_scale s) (varrho_out s) (varrho_w s) (W_star s) (W_in s) (W_bias s)
    v (W s) (x_collectors s) (pattern_Rs s) (UR_collectors s)
    (SR_collectors s) (pattern_collectors s) (all_train_args s)
    (all_train_old_args s) (all_train_outs s) (Cs s).
Definition set_W (v : matrix) (s : Reservoir) : Reservoir :=
  mkReservoir (size_in s) (size_net s) (num_pattern s) (sr s) (in_scale s)
    (bias_scale s) (varrho_out s) (varrho_w s) (W_star s) (W_in s) (W_bias s)
    (W_out s) v (x_collectors s) (pattern_Rs s) (UR_collectors s)
    (SR_collectors s) (pattern_collectors s) (all_train_args s)
    (all_train_old_args s) (all_train_outs s) (Cs s).
Definition set_x_collectors (v : list matrix) (s : Reservoir) : Reservoir :=
  mkReservoir (size_in s) (size_net s) (num_pattern s) (sr s) (in_scale s)
    (bias_scale s) (varrho_out s) (varrho_w s) (W_star s) (W_in s) (W_bias s)
    (W_out s) (W s) v (pattern_Rs s) (UR_collectors s)
    (SR_collectors s) (pattern_collectors s) (all_train_args s)
    (all_train_old_args s) (all_train_outs s) (Cs s).
Definition set_pattern_Rs (v : list matrix) (s : Reservoir) : Reservoir :=
  mkReservoir (size_in s) (size_net s) (num_pattern s) (sr s) (in_scale s)
    (bias_scale s) (varrho_out s) (varrho_w s) (W_star s) (W_in s) (W_bias s)
    (W_out s) (W s) (x_collectors s) v (UR_collectors s)
    (SR_collectors s) (pattern_collectors s) (all_train_args s)
    (all_train_old_args s) (all_train_outs s) (Cs s).
Definition set_UR_collectors (v : list matrix) (s : Reservoir) : Reservoir :=
  mkReservoir (size_in s) (size_net s) (num_pattern s) (sr s) (in_scale s)
    (bias_scale s) (varrho_out s) (varrho_w s) (W_star s) (W_in s) (W_bias s)
    (W_out s) (W s) (x_collectors s) (pattern_Rs s) v
    (SR_collectors s) (pattern_collectors s) (all_train_args s)
    (all_train_old_args s) (all_train_outs s) (Cs s).
Definition set_SR_collectors (v : list vector) (s : Reservoir) : Reservoir :=
  mkReservoir (size_in s) (size_net s) (num_pattern s) (sr s) (in_scale s)
    (bias_scale s) (varrho_out s) (varrho_w s) (W_star s) (W_in s) (W_bias s)
    (W_out s) (W s) (x_collectors s) (pattern_Rs s) (UR_collectors s)
    v (pattern_collectors s) (all_train_args s)
    (all_train_old_args s) (all_train_outs s) (Cs s).
Definition set_pattern_collectors (v : list matrix) (s : Reservoir) : Reservoir :=
  mkReservoir (size_in s) (size_net s) (num_pattern s) (sr s) (in_scale s)
    (bias_scale s) (varrho_out s) (varrho_w s) (W_star s) (W_in s) (W_bias s)
    (W_out s) (W s) (x_collectors s) (pattern_Rs s) (UR_collectors s)
    (SR_collectors s) v (all_train_args s)
    (all_train_old_args s) (all_train_outs s) (Cs s).
Definition set_all_train_args (v : matrix) (s : Reservoir) : Reservoir :=
  mkReservoir (size_in s) (size_net s) (num_pattern s) (sr s) (in_scale s)
    (bias_scale s) (varrho_out s) (varrho_w s) (W_star s) (W_in s) (W_bias s)
    (W_out s) (W s) (x_collectors s) (pattern_Rs s) (UR_collectors s)
    (SR_collectors s) (pattern_collectors s) v
    (all_train_old_args s) (all_train_outs s) (Cs s).
Definition set_all_train_old_args (v : matrix) (s : Reservoir) : Reservoir :=
  mkReservoir (size_in s) (size_net s) (num_pattern s) (sr s) (in_scale s)
    (bias_scale s) (varrho_out s) (varrho_w s) (W_star s) (W_in s) (W_bias s)
    (W_out s) (W s) (x_collectors s) (pattern_Rs s) (UR_collectors s)
    (SR_collectors s) (pattern_collectors s) (all_train_args s)
    v (all_train_outs s) (Cs s).
Definition set_all_train_outs (v : matrix) (s : Reservoir) : Reservoir :=
  mkReservoir (size_in s) (size_net s) (num_pattern s) (sr s) (in_scale s)
    (bias_scale s) (varrho_out s) (varrho_w s) (W_star s) (W_in s) (W_bias s)
    (W_out s) (W s) (x_collectors s) (pattern_Rs s) (UR_collectors s)
    (SR_collectors s) (pattern_collectors s) (all_train_args s)
    (all_train_old_args s) v (Cs s).
Definition set_Cs (v : list (list ndarray)) (s : Reservoir) : Reservoir :=
  mkReservoir (size_in s) (size_net s) (num_pattern s) (sr s) (in_scale s)
    (bias_scale s) (varrho_out s) (varrho_w s) (W_star s) (W_in s) (W_bias s)
    (W_out s) (W s) (x_collectors s) (pattern_Rs s) (UR_collectors s)
    (SR_collectors s) (pattern_collectors s) (all_train_args s)
    (all_train_old_args s) (all_train_outs s) v.

(** ** Methods as computations on [self] *)

Inductive exn : Type := IndexError | LinAlgError | ValueError.

Inductive outcome (A : Type) : Type :=
| Ok (a : A)
| Raised (e : exn).
Arguments Ok {A} a.
Arguments Raised {A} e.

(** A method body: from the instance to what it returns or raises, and the
    instance as it has been left. *)
Definition method (A : Type) : Type := Reservoir -> outcome A * Reservoir.

Definition ret {A : Type} (a : A) : method A := fun s => (Ok a, s).

Definition bind {A B : Type} (c : method A) (k : A -> method B) : method B :=
  fun s => match c s with
           | (Ok a, s') => k a s'
           | (Raised e, s') => (Raised e, s')
           end.

Definition raise {A : Type} (e : exn) : method A := fun s => (Raised e, s).

Definition self : method Reservoir := fun s => (Ok s, s).

Definition assign (f : Reservoir -> Reservoir) : method unit :=
  fun s => (Ok tt, f s).

(** A library call that returns or raises [e]. *)
Definition call {A : Type} (e : exn) (r : option A) : method A :=
  match r with
  | Some a => ret a
  | None => raise e
  end.

(** [l[i]] for [0 <= i]. *)
Definition index {A : Type} (l : list A) (i : nat) : method A :=
  call IndexError (nth_error l i).

Declare Scope method_scope.
Delimit Scope method_scope with method.
Notation "x <- c ;; k" := (bind c (fun x => k))
  (at level 61, c at next level, right associativity) : method_scope.
Notation "c ;; k" := (bind c (fun _ => k))
  (at level 61, right associativity) : method_scope.
Local Open Scope method_scope.

(** [for x in l: body(x)]. *)
Fixpoint for_each {A : Type} (l : list A) (body : A -> method unit) : method unit :=
  match l with
  | [] => ret tt
  | x :: t => body x ;; for_each t body
  end.

(** [out = []; for x in l: out.append(f(x))]. *)
Fixpoint collect {A B : Type} (l : list A) (f : A -> method B) : method (list B) :=
  match l with
  | [] => ret []
  | x :: t => y <- f x ;; ys <- collect t f ;; ret (y :: ys)
  end.

(** [l[k].append(v)] on a list of lists. *)
Fixpoint append_at {A : Type} (l : list (list A)) (k : nat) (v : A) : option (list (list A)) :=
  match l, k with
  | [], _ => None
  | x :: t, O => Some ((x ++ [v]) :: t)
  | x :: t, S k' => option_map (cons x) (append_at t k' v)
  end.

(** [self.Cs[k].append(v)]. *)
Definition Cs_append (k : nat) (v : ndarray) : method unit :=
  s <- self ;;
  cs <- call IndexError (append_at (Cs s) k v) ;;
  assign (set_Cs cs).

(** [self.Cs = []] followed by four [self.Cs.append([])]. *)
Definition reset_Cs : method unit :=
  assign (set_Cs []) ;;
  s <- self ;; assign (set_Cs (Cs s ++ [[]])) ;;
  s <- self ;; assign (set_Cs (Cs s ++ [[]])) ;;
  s <- self ;; assign (set_Cs (Cs s ++ [[]])) ;;
  s <- self ;; assign (set_Cs (Cs s ++ [[]])).

Definition clean_storage : method unit :=
  assign (set_W_out []) ;;
  assign (set_W []) ;;
  assign (set_x_collectors []) ;;
  assign (set_pattern_Rs []) ;;
  assign (set_UR_collectors []) ;;
  assign (set_SR_collectors []) ;;
  assign (set_pattern_collectors []) ;;
  assign (set_all_train_args []) ;;
  assign (set_all_train_old_args []) ;;
  assign (set_all_train_outs []) ;;
  reset_Cs.

(** The state update of the loop body of [drive_reservoir]. *)
Definition next_state (s : Reservoir) (x u : matrix) : matrix :=
  np_tanh (madd (madd (dot (W_star s) x) (dot (W_in s) u)) (W_bias s)).

(** The loop variables of [drive_reservoir]. *)
Record harvest : Type := mkHarvest {
  h_x : matrix;
  h_x_collector : matrix;
  h_x_old_collector : matrix;
  h_p_collector : matrix
}.

(** One iteration [n] of the loop of [drive_reservoir]. *)
Definition drive_step (s : Reservoir) (pattern : matrix) (washout_length : nat)
    (h : harvest) (n : nat) : harvest :=
  let u := column pattern n in
  let x_old := h_x h in
  let x := next_state s x_old u in
  if (Z.of_nat washout_length - 1 <? Z.of_nat n)%Z then
    mkHarvest x
      (set_col (h_x_collector h) (n - washout_length) x)
      (set_col (h_x_old_collector h) (n - washout_length) x_old)
      (set_col (h_p_collector h) (n - washout_length) u)
  else
    mkHarvest x (h_x_collector h) (h_x_old_collector h) (h_p_collector h).

(** The three [if not A.size: A = B else: A = np.hstack((A, B))]. *)
Definition aggregate (A B : matrix) : matrix :=
  if Nat.eqb (msize A) 0 then B else hstack A B.

(** Elementwise helpers of [recognition_train]. *)
Fixpoint vsub (u v : vector) : vector :=
  match u, v with
  | a :: u', b :: v' => (a - b) :: vsub u' v'
  | _, _ => []
  end.

(** [l[1:] - l[0:-1]]. *)
Definition np_diff (l : vector) : vector := vsub (tl l) (removelast l).

(** What [recognition_train] returns: the conceptor list, or in "complete"
    mode the tuple [(C_list, R_list, C_prem_list, apt_list)]. *)
Inductive train_output : Type :=
| Simple (C_list : list matrix)
| Complete (C_list R_list C_prem_list : list matrix) (apt_list : vector).

(** [np.row_stack] of a list of sums: [ValueError] on an empty list or on
    rows of different lengths. *)
Definition row_stack (l : list pyval) : option matrix :=
  match map atleast_2d l with
  | [] => None
  | m :: ms =>
      if forallb (fun m' => Nat.eqb (ncols m') (ncols m)) ms
      then Some (concat (m :: ms))
      else None
  end.

(** [T M] for the columns of an evidence array: [np.argmax(E, axis = 0)]. *)
Definition argmax_axis0 (E : matrix) : option (list nat) :=
  match E with
  | [] => None
  | _ => Some (map (fun j => argmax_from 0 (get E 0 j) 1
                                        (map (fun r => nth j r 0) (tl E)))
                   (seq 0 (ncols E)))
  end.

(** The default value of the parameter [alpha] of [compute_projector]. *)
Definition default_alpha : R := 10.

Section Model.

(** The library routines the class calls. *)
Variable linalg_inv : matrix -> option matrix.
Variable linalg_svd : matrix -> option (matrix * vector * matrix).
Variable np_arctanh : R -> R.
Variable interp1d_cubic : vector -> vector -> option (R -> R).
Variable PHI : matrix -> R -> matrix.
Variable init_weights : nat -> nat -> R -> R -> R -> matrix * matrix * matrix.

(** [Reservoir.__init__]. *)
Definition init (size_in size_net : nat) (sr in_scale bias_scale varrho_out varrho_w : R)
  : Reservoir :=
  let '(W_star, W_in, W_bias) := init_weights size_in size_net sr in_scale bias_scale in
  mkReservoir size_in size_net 0 sr in_scale bias_scale varrho_out varrho_w
    W_star W_in W_bias [] [] [] [] [] [] [] [] [] [] [[]; []; []; []].

Definition drive_reservoir (pattern : matrix) (washout_length : nat) : method unit :=
  s <- self ;;
  if Nat.ltb (ncols pattern) washout_length then raise ValueError else
  let learn_length := (ncols pattern - washout_length)%nat in
  let h := fold_left (drive_step s pattern washout_length)
             (seq 0 (washout_length + learn_length))
             (mkHarvest (np_zeros (size_net s) 1)
                        (np_zeros (size_net s) learn_length)
                        (np_zeros (size_net s) learn_length)
                        (np_zeros (size_in s) learn_length)) in
  let x_collector := h_x_collector h in
  let x_old_collector := h_x_old_collector h in
  let p_collector := h_p_collector h in
  assign (fun s => set_x_collectors (x_collectors s ++ [x_collector]) s) ;;
  let R := mdiv (dot x_collector (T x_collector)) (INR learn_length) in
  usv <- call LinAlgError (linalg_svd R) ;;
  let '(Ux, Sx, _) := usv in
  assign (fun s => set_SR_collectors (SR_collectors s ++ [Sx]) s) ;;
  assign (fun s => set_UR_collectors (UR_collectors s ++ [Ux]) s) ;;
  assign (fun s => set_pattern_Rs (pattern_Rs s ++ [R]) s) ;;
  assign (fun s => set_pattern_collectors (pattern_collectors s ++ [p_collector]) s) ;;
  assign (fun s => set_all_train_args (aggregate (all_train_args s) x_collector) s) ;;
  assign (fun s => set_all_train_old_args
                     (aggregate (all_train_old_args s) x_old_collector) s) ;;
  assign (fun s => set_all_train_outs (aggregate (all_train_outs s) p_collector) s) ;;
  assign (fun s => set_num_pattern (num_pattern s + 1) s).

Definition compute_projector (R_ : matrix) (alpha : R) : method unit :=
  s <- self ;;
  usv <- call LinAlgError (linalg_svd R_) ;;
  let '(U, S_, _) := usv in
  D <- call LinAlgError
         (linalg_inv (madd (np_diag S_)
                           (mscale (powerRZ alpha (-2)) (np_eye (size_net s))))) ;;
  let S_new := dot (np_diag S_) D in
  let C := dot (dot U S_new) (T U) in
  Cs_append 0 (Arr2 C) ;;
  Cs_append 1 (Arr2 U) ;;
  Cs_append 2 (Arr1 (np_diagonal S_new)) ;;
  Cs_append 3 (Arr1 S_).

(** The body of the loop of [compute_projectors]: [alpha] is read from
    [alphas] and [compute_projector] is called with [R] alone, so with the
    default aperture. *)
Definition projector_step (alphas : vector) (p : nat) : method unit :=
  s <- self ;;
  R <- index (pattern_Rs s) p ;;
  alpha <- index alphas p ;;
  compute_projector R default_alpha.

Definition compute_projectors (alphas : vector) : method unit :=
  s <- self ;;
  (match Cs s with
   | [] => ret tt
   | _ :: _ => reset_Cs
   end) ;;
  s <- self ;;
  for_each (seq 0 (num_pattern s)) (projector_step alphas).

Definition compute_W_out (varrho_out_arg : option R) : method unit :=
  s <- self ;;
  let varrho_out :=
    match varrho_out_arg with None => varrho_out s | Some v => v end in
  A <- call LinAlgError
         (linalg_inv (madd (dot (all_train_args s) (T (all_train_args s)))
                           (mscale varrho_out (np_eye (size_net s))))) ;;
  assign (set_W_out (T (dot (dot A (all_train_args s)) (T (all_train_outs s))))).

Definition compute_W (varrho_w_arg : option R) : method unit :=
  s <- self ;;
  let varrho_w :=
    match varrho_w_arg with None => varrho_w s | Some v => v end in
  match all_train_args s with
  | [] => raise IndexError
  | _ :: _ =>
      let total_length := ncols (all_train_args s) in
      let W_targets := msub (map (map np_arctanh) (all_train_args s))
                            (repmat_cols (W_bias s) total_length) in
      A <- call LinAlgError
             (linalg_inv (madd (dot (all_train_old_args s) (T (all_train_old_args s)))
                               (mscale varrho_w (np_eye (size_net s))))) ;;
      assign (set_W (T (dot (dot A (all_train_old_args s)) (T W_targets))))
  end.

Definition train (patterns : list matrix) (washout_length : nat) : method unit :=
  for_each patterns (fun p => drive_reservoir p washout_length) ;;
  s <- self ;;
  compute_W_out (Some (varrho_out s)) ;;
  s <- self ;;
  compute_W (Some (varrho_w s)).

(** The body of the loop over [datalist] of [recognition_train]: the
    correlation, the proto-conceptor and the chosen aperture of one
    datum. *)
Definition explore (apN : nat) (intPts : vector) (data : matrix)
  : method (matrix * matrix * R) :=
  let R := mdiv (dot data (T data)) (INR (ncols data)) in
  let I := np_eye (nrows R) in
  RI <- call LinAlgError (linalg_inv (madd R I)) ;;
  let C_prem := dot R RI in
  let Cnorm_list :=
    map (fun i => norm_fro (PHI C_prem (2 ^ i)) ^ 2) (seq 0 apN) in
  interpfun <- call ValueError
                 (interp1d_cubic (map INR (seq 0 apN)) Cnorm_list) ;;
  let norms_Intpl := map interpfun intPts in
  let norms_Intpl_Grad := map (fun d => d / 0.01) (np_diff norms_Intpl) in
  aptind <- call ValueError (np_argmax (map Rabs norms_Intpl_Grad)) ;;
  x <- index intPts aptind ;;
  ret (R, C_prem, Rpower 2 x).

Definition recognition_train (datalist : list matrix) (apN : nat) (out_mode : string)
  : method train_output :=
  let apsExploreExponents := map INR (seq 0 apN) in
  first <- index apsExploreExponents 0 ;;
  last <- index apsExploreExponents (apN - 1) ;;
  let intPts := np_arange first (last + 0.01) 0.01 in
  triples <- collect datalist (explore apN intPts) ;;
  let R_list := map (fun t => fst (fst t)) triples in
  let C_prem_list := map (fun t => snd (fst t)) triples in
  let apt_list := map snd triples in
  let apt := np_mean apt_list in
  let C_list := map (fun C_prem => PHI C_prem apt) C_prem_list in
  if String.eqb out_mode "complete"
  then ret (Complete C_list R_list C_prem_list apt_list)
  else ret (Simple C_list).

Definition recognition_predict (testdata : matrix) (C_list : list matrix)
  : method (list nat * matrix) :=
  let evidence_list :=
    map (fun C => py_sum (mmul testdata (dot C testdata))) C_list in
  evidence <- call ValueError (row_stack evidence_list) ;;
  am <- call ValueError (argmax_axis0 evidence) ;;
  ret (am, evidence).

End Model.

(** ** Reference routines on diagonal matrices

    An inverse and a singular value decomposition that answer on diagonal
    arguments only (and raise on every other one).  They instantiate the
    parameters of the model where a statement is evaluated on concrete
    arrays. *)

Definition mat_eq_dec (A B : matrix) : {A = B} + {A <> B} :=
  list_eq_dec (list_eq_dec Req_dec_T) A B.

Definition nonzero_dec (x : R) : {x <> 0} + {~ x <> 0} :=
  match Req_dec_T x 0 with
  | left e => right (fun H => H e)
  | right n => left n
  end.

(** The entries are non-negative and in non-increasing order. *)
Fixpoint sorted_singular (d : vector) : Prop :=
  match d with
  | [] => True
  | a :: t => 0 <= a /\ match t with [] => True | b :: _ => b <= a end
              /\ sorted_singular t
  end.

Fixpoint sorted_singular_b (d : vector) : bool :=
  match d with
  | [] => true
  | a :: t =>
      (if Rle_dec 0 a then true else false)
      && match t with [] => true | b :: _ => if Rle_dec b a then true else false end
      && sorted_singular_b t
  end.

Definition diag_inv (M : matrix) : option matrix :=
  let d := np_diagonal M in
  if mat_eq_dec M (np_diag d) then
    if Forall_dec (fun x => x <> 0) nonzero_dec d
    then Some (np_diag (map Rinv d))
    else None
  else None.

Definition diag_svd (M : matrix) : option (matrix * vector * matrix) :=
  let d := np_diagonal M in
  if mat_eq_dec M (np_diag d) then
    if sorted_singular_b d
    then Some (np_eye (length d), d, np_eye (length d))
    else None
  else None.

(** ** Notions the statements use *)

(** [c] never assigns a field of [self], whatever it returns or raises. *)
Definition read_only {A : Type} (c : method A) : Prop :=
  forall s, snd (c s) = s.

(** The trajectory of the reservoir driven by [pattern] from the zero state:
    the state after [k] steps of [x' = tanh(W_star.x + W_in.u + W_bias)]. *)
Fixpoint state_at (s : Reservoir) (pattern : matrix) (k : nat) : matrix :=
  match k with
  | O => np_zeros (size_net s) 1
  | S k' => next_state s (state_at s pattern k') (column pattern k')
  end.

(** What a drive retains after [washout_length] steps: column [c] holds the
    state reached by step [washout_length + c], the state before that step,
    and the input of that step. *)
Definition harvested_states (s : Reservoir) (pattern : matrix) (washout_length : nat)
  : matrix :=
  mk_mat (size_net s) (ncols pattern - washout_length)
         (fun i c => get (state_at s pattern (washout_length + c + 1)) i 0).
Definition harvested_old_states (s : Reservoir) (pattern : matrix) (washout_length : nat)
  : matrix :=
  mk_mat (size_net s) (ncols pattern - washout_length)
         (fun i c => get (state_at s pattern (washout_length + c)) i 0).
Definition harvested_inputs (s : Reservoir) (pattern : matrix) (washout_length : nat)
  : matrix :=
  mk_mat (size_in s) (ncols pattern - washout_length)
         (fun i c => get pattern i (washout_length + c)).

(** [v.T . M . v] and positive semi-definiteness of an [n] by [n] array. *)
Definition quad_form (M : matrix) (v : vector) : R :=
  sum_n (length v)
        (fun i => sum_n (length v) (fun j => nth i v 0 * get M i j * nth j v 0)).
Definition psd (n : nat) (M : matrix) : Prop :=
  forall v, length v = n -> 0 <= quad_form M v.

(** What the model asks of [np.linalg.inv]: an answer is a two-sided
    inverse, and a diagonal matrix without a zero on its diagonal gets an
    answer. *)
Definition inv_sound (linalg_inv : matrix -> option matrix) : Prop :=
  forall n A B,
    (0 < n)%nat -> shape n n A -> linalg_inv A = Some B ->
    shape n n B /\ dot B A = np_eye n /\ dot A B = np_eye n.
Definition inv_total_on_diag (linalg_inv : matrix -> option matrix) : Prop :=
  forall d, Forall (fun x => x <> 0) d -> linalg_inv (np_diag d) <> None.

(** [U . diag(d) . U^T]. *)
Definition conj_diag (U : matrix) (d : vector) : matrix :=
  dot (dot U (np_diag d)) (T U).

(** The shrinkage [s / (s + a)] of every singular value. *)
Definition shrink (a : R) (S_ : vector) : vector :=
  map (fun x => x / (x + a)) S_.

(** ** Reservoirs with given weights *)

(** A weight initialiser that hands back the weights it is given. *)
Definition fixed_weights (Ws : matrix * matrix * matrix)
  : nat -> nat -> R -> R -> R -> matrix * matrix * matrix :=
  fun _ _ _ _ _ => Ws.

(** A fresh reservoir with one input, two neurons, all weights zero and the
    default parameters of [__init__]. *)
Definition reservoir_1_2 : Reservoir :=
  init (fixed_weights (np_zeros 2 2, np_zeros 2 1, np_zeros 2 1))
       1 2 1.5 1.5 0.2 0.01 0.0001.

(** Ten steps of zero input. *)
Definition zero_pattern_10 : matrix := [repeat 0 10].

(** ** The bundle of a list of correlation matrices *)

(** What one pattern adds to the four lists of the bundle at aperture
    [alpha]: the conceptor, its basis, the shrunk values and the singular
    values. *)
Definition append_projector
    (linalg_svd : matrix -> option (matrix * vector * matrix)) (alpha : R)
    (cs : list (list ndarray)) (R_ : matrix) : list (list ndarray) :=
  match cs, linalg_svd R_ with
  | [c0; c1; c2; c3], Some (U, S_, _) =>
      [c0 ++ [Arr2 (conj_diag U (shrink (powerRZ alpha (-2)) S_))];
       c1 ++ [Arr2 U];
       c2 ++ [Arr1 (shrink (powerRZ alpha (-2)) S_)];
       c3 ++ [Arr1 S_]]
  | _, _ => cs
  end.

(** The bundle of the matrices [Rs], every one at aperture [alpha]. *)
Definition bundle_of
    (linalg_svd : matrix -> option (matrix * vector * matrix)) (alpha : R)
    (Rs : list matrix) : list (list ndarray) :=
  fold_left (append_projector linalg_svd alpha) Rs [[]; []; []; []].

(** The SVD answers on [R_] with [n] non-negative singular values. *)
Definition svd_ok
    (linalg_svd : matrix -> option (matrix * vector * matrix))
    (n : nat) (R_ : matrix) : Prop :=
  exists U S_ Vt,
    linalg_svd R_ = Some (U, S_, Vt)
    /\ length S_ = n /\ Forall (fun x => 0 <= x) S_.

(** A fresh reservoir with one input and one neuron: [W_star = [[1.5]]]
    (spectral radius 1.5), [W_in = [[1]]], [W_bias = [[0]]]. *)
Definition reservoir_1_1 : Reservoir :=
  init (fixed_weights ([[3 / 2]], [[1]], [[0]])) 1 1 1.5 1.5 0.2 0.01 0.0001.

(** One step of input 1. *)
Definition unit_pattern : matrix := [[1]].

(** [reservoir_1_1] after [drive_reservoir(unit_pattern, 0)], once and
    twice, and after [compute_projectors([1, 1])] on the latter; the SVD and
    the inverse are the reference routines. *)
Definition driven_once : Reservoir :=
  snd (drive_reservoir diag_svd unit_pattern 0 reservoir_1_1).
Definition driven_twice : Reservoir :=
  snd (drive_reservoir diag_svd unit_pattern 0 driven_once).


(** ** Evidence *)

(** The sum of all the entries of [testdata * C.dot(testdata)]: one scalar
    for the whole of [testdata]. *)
Definition pooled_evidence (testdata C : matrix) : R :=
  sum_n (nrows testdata)
        (fun i => sum_n (ncols testdata)
                        (fun j => get testdata i j * get (dot C testdata) i j)).

(** The sum of column [j] of [testdata * C.dot(testdata)]: the quadratic
    form of [C] at column [j] of [testdata]. *)
Definition column_evidence (testdata C : matrix) (j : nat) : R :=
  sum_n (nrows testdata)
        (fun i => get testdata i j * get (dot C testdata) i j).

(** One row of column evidences for each conceptor. *)
Definition evidence_rows (testdata : matrix) (C_list : list matrix) : matrix :=
  map (fun C => map (column_evidence testdata C) (seq 0 (ncols testdata))) C_list.

(** ** Aggregated training data *)

(** [W_targets] of [compute_W] for the aggregated states [X]. *)
Definition W_targets_of (np_arctanh : R -> R) (W_bias_ X : matrix) : matrix :=
  msub (map (map np_arctanh) X) (repmat_cols W_bias_ (ncols X)).



(** [s'] has the sizes, the fixed weights and the coefficients of [s]. *)
Definition same_weights (s s' : Reservoir) : Prop :=
  size_in s' = size_in s /\ size_net s' = size_net s
  /\ W_star s' = W_star s /\ W_in s' = W_in s /\ W_bias s' = W_bias s
  /\ varrho_out s' = varrho_out s /\ varrho_w s' = varrho_w s.

(** Two steps of input, 1 then 0. *)
Definition two_step_pattern : matrix := [[1; 0]].

(** ** Ridge regression *)

(** [f 0 0 + ... + f (m-1) (n-1)]. *)
Definition fsum (m n : nat) (f : nat -> nat -> R) : R :=
  sum_n m (fun i => sum_n n (fun j => f i j)).

(** The ridge objective [||W.X - U||^2 + rho.||W||^2] (squared Frobenius
    norms). *)
Definition ridge_cost (X U : matrix) (rho : R) (W_ : matrix) : R :=
  sum_sq (msub (dot W_ X) U) + rho * sum_sq W_.

(** What the loop variables of [drive_reservoir] hold after the iterations
    [0 .. t-1], for a pattern with [w] wash-out and [L] learning columns. *)
Definition loop_invariant (s : Reservoir) (pattern : matrix) (w L t : nat)
  (h : harvest) : Prop :=
  h_x h = state_at s pattern t
  /\ h_x_collector h
     = mk_mat (size_net s) L
         (fun i c => if Nat.ltb (w + c) t
                     then get (state_at s pattern (w + c + 1)) i 0 else 0)
  /\ h_x_old_collector h
     = mk_mat (size_net s) L
         (fun i c => if Nat.ltb (w + c) t
                     then get (state_at s pattern (w + c)) i 0 else 0)
  /\ h_p_collector h
     = mk_mat (size_in s) L
         (fun i c => if Nat.ltb (w + c) t then get pattern i (w + c) else 0).

(** The correlation matrix that driving [p] with wash-out [w] records. *)
Definition correlation_of (s : Reservoir) (w : nat) (p : matrix) : matrix :=
  mdiv (dot (harvested_states s p w) (T (harvested_states s p w)))
       (INR (ncols p - w)).

(** ** The loop of [drive_reservoir] as it is run *)

(** The loop variables after the whole loop of [drive_reservoir]. *)
Definition harvest_of (s : Reservoir) (pattern : matrix) (washout_length : nat)
  : harvest :=
  let learn_length := (ncols pattern - washout_length)%nat in
  fold_left (drive_step s pattern washout_length)
            (seq 0 (washout_length + learn_length))
            (mkHarvest (np_zeros (size_net s) 1)
                       (np_zeros (size_net s) learn_length)
                       (np_zeros (size_net s) learn_length)
                       (np_zeros (size_in s) learn_length)).

(** The instance that a drive leaves when nothing interrupts it. *)
Definition driven (s : Reservoir) (pattern : matrix) (washout_length : nat)
    (Ux : matrix) (Sx : vector) : Reservoir :=
  let h := harvest_of s pattern washout_length in
  let X := h_x_collector h in
  mkReservoir (size_in s) (size_net s) (num_pattern s + 1) (sr s) (in_scale s)
    (bias_scale s) (varrho_out s) (varrho_w s) (W_star s) (W_in s) (W_bias s)
    (W_out s) (W s)
    (x_collectors s ++ [X])
    (pattern_Rs s ++ [mdiv (dot X (T X)) (INR (ncols pattern - washout_length))])
    (UR_collectors s ++ [Ux])
    (SR_collectors s ++ [Sx])
    (pattern_collectors s ++ [h_p_collector h])
    (aggregate (all_train_args s) X)
    (aggregate (all_train_old_args s) (h_x_old_collector h))
    (aggregate (all_train_outs s) (h_p_collector h))
    (Cs s).

(** Every per-pattern list holds one entry for each counted pattern. *)
Definition records_ok (s : Reservoir) : Prop :=
  length (x_collectors s) = num_pattern s
  /\ length (pattern_Rs s) = num_pattern s
  /\ length (UR_collectors s) = num_pattern s
  /\ length (SR_collectors s) = num_pattern s
  /\ length (pattern_collectors s) = num_pattern s.

(** [s'] differs from [s] at most in the per-pattern records, the
    aggregated matrices and the pattern counter. *)
Definition same_setup (s s' : Reservoir) : Prop :=
  same_weights s s'
  /\ sr s' = sr s /\ in_scale s' = in_scale s /\ bias_scale s' = bias_scale s
  /\ W_out s' = W_out s /\ W s' = W s /\ Cs s' = Cs s.

(** ** The inverse hyperbolic tangent *)

(** [arctanh] on the interval (-1, 1), a reference for [np.arctanh]. *)
Definition atanh (x : R) : R := ln ((1 + x) / (1 - x)) / 2.

(** ** The method [augment] *)

(** A 3-D numpy array is the list, along its first axis, of 2-D arrays. *)
Definition tensor := list matrix.

(** [D.shape[1]], [D.shape[2]] and [D[i, j, k]]. *)
Definition dim1 (D : tensor) : nat := nrows (hd [] D).
Definition dim2 (D : tensor) : nat := ncols (hd [] D).
Definition get3 (D : tensor) (i j k : nat) : R := get (nth i D []) j k.

(** The [m] by [n] by [p] array whose entry [(i, j, k)] is [f i j k]. *)
Definition mk_tensor (m n p : nat) (f : nat -> nat -> nat -> R) : tensor :=
  map (fun i => mk_mat n p (f i)) (seq 0 m).

(** [shape3 m n p D]: [D] has shape [(m, n, p)]. *)
Definition shape3 (m n p : nat) (D : tensor) : Prop :=
  length D = m /\ Forall (shape n p) D.

(** [np.zeros((m, n, p))]. *)
Definition np_zeros3 (m n p : nat) : tensor := mk_tensor m n p (fun _ _ _ => 0).

(** [D[:, :, k]]. *)
Definition slice3 (D : tensor) (k : nat) : matrix :=
  map (map (fun v => nth k v 0)) D.

(** [D[:, :, k] = M] on an array [D] of shape [(m, n, p)]. *)
Definition set_slice3 (m n p : nat) (D : tensor) (k : nat) (M : matrix) : tensor :=
  mk_tensor m n p (fun i j l => if Nat.eqb l k then get M i j else get3 D i j l).

(** [D.swapaxes(1, 2).reshape(-1, c, order = 'F')] on an array [D] of shape
    [(m, n, p)]: the entries are read and written with the first index
    running fastest, so entry [(r, j)] of the result is the entry of linear
    position [q = r + rows * j], which is [D[q % m, q // (m * p), (q // m) % p]].
    The row count is inferred; [ValueError] when [c] is zero or does not
    divide the size. *)
Definition swapaxes_reshape_F (m n p : nat) (D : tensor) (c : nat) : option matrix :=
  let size := (m * n * p)%nat in
  if Nat.eqb c 0 || negb (Nat.eqb (size mod c) 0) then None
  else
    let rows := (size / c)%nat in
    Some (mk_mat rows c
            (fun r j => let q := (r + rows * j)%nat in
                        get3 D (q mod m) (q / (m * p)) ((q / m) mod p))).

(** [augment]: the draw [x] of [np.random.randn(size_net, 1)] is an
    argument.  [np.tile(M, (1, k))] is [repmat_cols M k].  The [return] is
    inside the loop over the slices, so the loop body runs for the first
    slice only, and the method returns [None] when there is no slice. *)
Definition augment (x : matrix) (data : tensor)
  : method (option (matrix * tensor)) :=
  s <- self ;;
  let datalen := dim1 data in
  let xs := repmat_cols x datalen in
  let bias := repmat_cols (W_bias s) datalen in
  let resultvec := np_zeros3 (size_net s) datalen (dim2 data) in
  match seq 0 (dim2 data) with
  | [] => ret None
  | i :: _ =>
      let us := slice3 data i in
      let xs := np_tanh (madd (madd (dot (W_star s) xs) (dot (W_in s) us)) bias) in
      let resultvec := set_slice3 (size_net s) datalen (dim2 data) resultvec i xs in
      stacked <- call ValueError
                   (swapaxes_reshape_F (size_net s) datalen (dim2 data)
                                       resultvec datalen) ;;
      ret (Some (stacked, resultvec))
  end.

(** ** The columns of the aggregated matrices *)

(** The three aggregated matrices are 1-D and empty, or they hold the same
    number [L >= 1] of columns. *)
Definition aggregated_columns (s : Reservoir) (L : nat) : Prop :=
  (L = 0%nat /\ all_train_args s = [] /\ all_train_old_args s = []
   /\ all_train_outs s = [])
  \/ ((0 < L)%nat
      /\ shape (size_net s) L (all_train_args s)
      /\ shape (size_net s) L (all_train_old_args s)
      /\ shape (size_in s) L (all_train_outs s)).

(** * Properties *)

(** ** Sums *)

Lemma sum_n_ext n f g :
  (forall k, (k < n)%nat -> f k = g k) -> sum_n n f = sum_n n g.
Proof.
  induction n as [|n IH]; intros H; simpl; [reflexivity|].
  rewrite IH by (intros; apply H; lia). rewrite H by lia. reflexivity.
Qed.

Lemma sum_n_zero n f :
  (forall k, (k < n)%nat -> f k = 0) -> sum_n n f = 0.
Proof.
  induction n as [|n IH]; intros H; simpl; [reflexivity|].
  rewrite IH by (intros; apply H; lia). rewrite H by lia. lra.
Qed.

Lemma sum_n_plus n f g :
  sum_n n (fun k => f k + g k) = sum_n n f + sum_n n g.
Proof. induction n as [|n IH]; simpl; [lra | rewrite IH; lra]. Qed.

Lemma sum_n_minus n f g :
  sum_n n (fun k => f k - g k) = sum_n n f - sum_n n g.
Proof. induction n as [|n IH]; simpl; [lra | rewrite IH; lra]. Qed.

Lemma sum_n_scal_l n c f :
  sum_n n (fun k => c * f k) = c * sum_n n f.
Proof. induction n as [|n IH]; simpl; [lra | rewrite IH; lra]. Qed.

Lemma sum_n_scal_r n c f :
  sum_n n (fun k => f k * c) = sum_n n f * c.
Proof. induction n as [|n IH]; simpl; [lra | rewrite IH; lra]. Qed.

Lemma sum_n_swap m n (f : nat -> nat -> R) :
  sum_n m (fun i => sum_n n (fun j => f i j))
  = sum_n n (fun j => sum_n m (fun i => f i j)).
Proof.
  induction m as [|m IH]; simpl.
  - symmetry. apply sum_n_zero. reflexivity.
  - rewrite IH, <- sum_n_plus. reflexivity.
Qed.

Lemma sum_n_delta n i (a : nat -> R) :
  (i < n)%nat ->
  sum_n n (fun k => if Nat.eqb k i then a k else 0) = a i.
Proof.
  induction n as [|n IH]; intros Hi; [lia|]. simpl.
  destruct (Nat.eqb_spec n i) as [->|Hne].
  - rewrite sum_n_zero; [lra|].
    intros k Hk. destruct (Nat.eqb_spec k i); [lia | reflexivity].
  - rewrite IH by lia. lra.
Qed.


Lemma sum_n_nonneg n f :
  (forall k, (k < n)%nat -> 0 <= f k) -> 0 <= sum_n n f.
Proof.
  induction n as [|n IH]; intros H; simpl; [lra|].
  assert (0 <= sum_n n f) by (apply IH; intros; apply H; lia).
  assert (0 <= f n) by (apply H; lia). lra.
Qed.

(** ** Shapes and entries *)

Lemma nth_map_seq {A : Type} (g : nat -> A) n i d :
  (i < n)%nat -> nth i (map g (seq 0 n)) d = g i.
Proof.
  intros H.
  rewrite nth_indep with (d' := g 0%nat) by (rewrite length_map, length_seq; exact H).
  rewrite map_nth, seq_nth by exact H. reflexivity.
Qed.

Lemma get_mk_mat_full m n f i j :
  get (mk_mat m n f) i j = if Nat.ltb i m && Nat.ltb j n then f i j else 0.
Proof.
  unfold get, mk_mat. destruct (Nat.ltb_spec i m) as [H|H]; simpl.
  - rewrite nth_map_seq by exact H.
    destruct (Nat.ltb_spec j n) as [Hj|Hj].
    + apply nth_map_seq. exact Hj.
    + apply nth_overflow. rewrite length_map, length_seq. exact Hj.
  - rewrite (nth_overflow (map _ (seq 0 m)) [])
      by (rewrite length_map, length_seq; exact H).
    destruct j; reflexivity.
Qed.

Lemma get_mk_mat m n f i j :
  (i < m)%nat -> (j < n)%nat -> get (mk_mat m n f) i j = f i j.
Proof.
  intros Hi Hj. rewrite get_mk_mat_full.
  destruct (Nat.ltb_spec i m); [|lia]. destruct (Nat.ltb_spec j n); [|lia].
  reflexivity.
Qed.

Lemma shape_mk_mat m n f : shape m n (mk_mat m n f).
Proof.
  unfold shape, mk_mat. split.
  - rewrite length_map, length_seq. reflexivity.
  - apply Forall_forall. intros r Hr. apply in_map_iff in Hr.
    destruct Hr as [i [<- _]]. rewrite length_map, length_seq. reflexivity.
Qed.

Lemma shape_nrows m n A : shape m n A -> nrows A = m.
Proof. intros [H _]. exact H. Qed.

Lemma shape_ncols m n A : shape m n A -> (0 < m)%nat -> ncols A = n.
Proof.
  intros [Hl Hf] Hm. destruct A as [|r A]; simpl in *; [lia|].
  inversion Hf; subst. reflexivity.
Qed.

Lemma shape_row m n A i : shape m n A -> (i < m)%nat -> length (nth i A []) = n.
Proof.
  intros [Hl Hf] Hi. rewrite Forall_forall in Hf. apply Hf.
  apply nth_In. lia.
Qed.

Lemma nrows_mk_mat m n f : nrows (mk_mat m n f) = m.
Proof. apply (shape_nrows m n), shape_mk_mat. Qed.

Lemma ncols_mk_mat m n f : (0 < m)%nat -> ncols (mk_mat m n f) = n.
Proof. apply shape_ncols, shape_mk_mat. Qed.

(** Two arrays of one shape with the same entries are equal. *)
Lemma mat_ext m n A B :
  shape m n A -> shape m n B ->
  (forall i j, (i < m)%nat -> (j < n)%nat -> get A i j = get B i j) ->
  A = B.
Proof.
  intros HA HB H.
  apply nth_ext with (d := []) (d' := []).
  - destruct HA, HB. congruence.
  - intros i Hi. assert (Hi' : (i < m)%nat) by (destruct HA; lia).
    apply nth_ext with (d := 0) (d' := 0).
    + rewrite (shape_row m n A), (shape_row m n B) by assumption. reflexivity.
    + intros j Hj. rewrite (shape_row m n A) in Hj by assumption.
      apply (H i j Hi' Hj).
Qed.

Lemma mk_mat_ext m n f g :
  (forall i j, (i < m)%nat -> (j < n)%nat -> f i j = g i j) ->
  mk_mat m n f = mk_mat m n g.
Proof.
  intros H. apply (mat_ext m n); try apply shape_mk_mat.
  intros i j Hi Hj. rewrite !get_mk_mat by assumption. apply H; assumption.
Qed.

Lemma mk_mat_get m n A : shape m n A -> mk_mat m n (get A) = A.
Proof.
  intros HA. apply (mat_ext m n); [apply shape_mk_mat | exact HA |].
  intros i j Hi Hj. apply get_mk_mat; assumption.
Qed.

Create HintDb shape discriminated.
#[export] Hint Resolve shape_mk_mat : shape.

Ltac side := solve [assumption | lia | eauto with shape].

Lemma get_row_overflow m n A i j :
  shape m n A -> (n <= j)%nat -> get A i j = 0.
Proof.
  intros HA Hj. unfold get. apply nth_overflow.
  destruct (Nat.ltb_spec i m) as [Hi|Hi].
  - rewrite (shape_row m n A) by assumption. exact Hj.
  - rewrite nth_overflow by (destruct HA; lia). simpl. lia.
Qed.

(** *** Elementwise maps *)

Lemma shape_map_map m n A (f : R -> R) :
  shape m n A -> shape m n (map (map f) A).
Proof.
  intros [Hl Hf]. split; [rewrite length_map; exact Hl|].
  apply Forall_forall. intros r Hr. apply in_map_iff in Hr.
  destruct Hr as [r' [<- Hr']]. rewrite length_map.
  rewrite Forall_forall in Hf. apply Hf. exact Hr'.
Qed.

Lemma get_map_map m n A (f : R -> R) i j :
  shape m n A -> (i < m)%nat -> (j < n)%nat ->
  get (map (map f) A) i j = f (get A i j).
Proof.
  intros HA Hi Hj. unfold get.
  rewrite nth_indep with (d' := map f []) by (rewrite length_map; destruct HA; lia).
  rewrite map_nth.
  rewrite nth_indep with (d' := f 0)
    by (rewrite length_map, (shape_row m n A) by assumption; exact Hj).
  apply map_nth.
Qed.

Lemma shape_mscale m n c A : shape m n A -> shape m n (mscale c A).
Proof. apply shape_map_map. Qed.

Lemma get_mscale m n c A i j :
  shape m n A -> (i < m)%nat -> (j < n)%nat ->
  get (mscale c A) i j = c * get A i j.
Proof. apply get_map_map. Qed.

Lemma shape_mdiv m n c A : shape m n A -> shape m n (mdiv A c).
Proof. apply shape_map_map. Qed.

Lemma get_mdiv m n c A i j :
  shape m n A -> (i < m)%nat -> (j < n)%nat ->
  get (mdiv A c) i j = get A i j / c.
Proof. apply (get_map_map m n A (fun x => x / c)). Qed.

Lemma shape_np_tanh m n A : shape m n A -> shape m n (np_tanh A).
Proof. apply shape_map_map. Qed.

Lemma get_np_tanh m n A i j :
  shape m n A -> (i < m)%nat -> (j < n)%nat ->
  get (np_tanh A) i j = tanh (get A i j).
Proof. apply get_map_map. Qed.

(** *** Products, transposes and sums *)

Lemma dot_mk m p n A B :
  shape m p A -> shape p n B -> (0 < p)%nat ->
  dot A B = mk_mat m n (fun i j => sum_n p (fun k => get A i k * get B k j)).
Proof.
  intros HA HB Hp. unfold dot.
  rewrite (shape_nrows m p A HA), (shape_ncols p n B HB Hp).
  apply mk_mat_ext. intros i j Hi Hj.
  rewrite (shape_ncols m p A HA) by lia. reflexivity.
Qed.

Lemma shape_dot m p n A B :
  shape m p A -> shape p n B -> (0 < p)%nat -> shape m n (dot A B).
Proof. intros HA HB Hp. rewrite (dot_mk m p n) by assumption. apply shape_mk_mat. Qed.

Lemma get_dot m p n A B i j :
  shape m p A -> shape p n B -> (0 < p)%nat -> (i < m)%nat -> (j < n)%nat ->
  get (dot A B) i j = sum_n p (fun k => get A i k * get B k j).
Proof.
  intros HA HB Hp Hi Hj. rewrite (dot_mk m p n) by assumption.
  apply get_mk_mat; assumption.
Qed.

Lemma T_mk m n A :
  shape m n A -> (0 < m)%nat -> T A = mk_mat n m (fun i j => get A j i).
Proof.
  intros HA Hm. unfold T.
  rewrite (shape_nrows m n A HA), (shape_ncols m n A HA Hm). reflexivity.
Qed.

Lemma shape_T m n A : shape m n A -> (0 < m)%nat -> shape n m (T A).
Proof. intros HA Hm. rewrite (T_mk m n) by assumption. apply shape_mk_mat. Qed.

Lemma get_T m n A i j :
  shape m n A -> (i < n)%nat -> (j < m)%nat -> get (T A) i j = get A j i.
Proof.
  intros HA Hi Hj. rewrite (T_mk m n) by (assumption || lia).
  rewrite get_mk_mat by assumption. reflexivity.
Qed.

Lemma T_T m n A : shape m n A -> (0 < m)%nat -> (0 < n)%nat -> T (T A) = A.
Proof.
  intros HA Hm Hn. apply (mat_ext m n); [| exact HA |].
  - apply shape_T; [apply shape_T; assumption | exact Hn].
  - intros i j Hi Hj.
    rewrite (get_T n m) by (try apply shape_T; assumption).
    apply (get_T m n); assumption.
Qed.

Lemma madd_mk m n A B :
  shape m n A -> madd A B = mk_mat m n (fun i j => get A i j + get B i j).
Proof.
  intros HA. unfold madd. rewrite (shape_nrows m n A HA).
  destruct m as [|m]; [reflexivity|].
  rewrite (shape_ncols (S m) n A HA) by lia. reflexivity.
Qed.

Lemma shape_madd m n A B : shape m n A -> shape m n (madd A B).
Proof. intros HA. rewrite (madd_mk m n) by assumption. apply shape_mk_mat. Qed.

Lemma get_madd m n A B i j :
  shape m n A -> (i < m)%nat -> (j < n)%nat ->
  get (madd A B) i j = get A i j + get B i j.
Proof.
  intros HA Hi Hj. rewrite (madd_mk m n) by assumption.
  apply get_mk_mat; assumption.
Qed.

Lemma msub_mk m n A B :
  shape m n A -> msub A B = mk_mat m n (fun i j => get A i j - get B i j).
Proof.
  intros HA. unfold msub. rewrite (shape_nrows m n A HA).
  destruct m as [|m]; [reflexivity|].
  rewrite (shape_ncols (S m) n A HA) by lia. reflexivity.
Qed.

Lemma shape_msub m n A B : shape m n A -> shape m n (msub A B).
Proof. intros HA. rewrite (msub_mk m n) by assumption. apply shape_mk_mat. Qed.

Lemma get_msub m n A B i j :
  shape m n A -> (i < m)%nat -> (j < n)%nat ->
  get (msub A B) i j = get A i j - get B i j.
Proof.
  intros HA Hi Hj. rewrite (msub_mk m n) by assumption.
  apply get_mk_mat; assumption.
Qed.

Lemma mmul_mk m n A B :
  shape m n A -> mmul A B = mk_mat m n (fun i j => get A i j * get B i j).
Proof.
  intros HA. unfold mmul. rewrite (shape_nrows m n A HA).
  destruct m as [|m]; [reflexivity|].
  rewrite (shape_ncols (S m) n A HA) by lia. reflexivity.
Qed.

Lemma shape_np_eye n : shape n n (np_eye n).
Proof. apply shape_mk_mat. Qed.

Lemma get_np_eye n i j :
  (i < n)%nat -> (j < n)%nat -> get (np_eye n) i j = if Nat.eqb i j then 1 else 0.
Proof. intros. unfold np_eye. apply get_mk_mat; assumption. Qed.

Lemma shape_np_diag v : shape (length v) (length v) (np_diag v).
Proof. apply shape_mk_mat. Qed.

Lemma get_np_diag v i j :
  (i < length v)%nat -> (j < length v)%nat ->
  get (np_diag v) i j = if Nat.eqb i j then nth i v 0 else 0.
Proof. intros. unfold np_diag. apply get_mk_mat; assumption. Qed.

Lemma shape_np_zeros m n : shape m n (np_zeros m n).
Proof. apply shape_mk_mat. Qed.

#[export] Hint Resolve shape_map_map shape_mscale shape_mdiv shape_np_tanh
  shape_madd shape_msub shape_np_eye shape_np_diag shape_np_zeros : shape.
#[export] Hint Extern 2 (shape _ _ (dot _ _)) =>
  (eapply shape_dot; [ | | lia]) : shape.
#[export] Hint Extern 2 (shape _ _ (T _)) =>
  (eapply shape_T; [ | lia]) : shape.

Lemma dot_assoc m p q n A B C :
  shape m p A -> shape p q B -> shape q n C -> (0 < p)%nat -> (0 < q)%nat ->
  dot (dot A B) C = dot A (dot B C).
Proof.
  intros HA HB HC Hp Hq.
  assert (HAB : shape m q (dot A B)) by (apply (shape_dot m p q); assumption).
  assert (HBC : shape p n (dot B C)) by (apply (shape_dot p q n); assumption).
  rewrite (dot_mk m q n (dot A B) C), (dot_mk m p n A (dot B C)) by assumption.
  apply mk_mat_ext. intros i j Hi Hj.
  rewrite (sum_n_ext q _ (fun k => sum_n p (fun l => get A i l * get B l k * get C k j))).
  2:{ intros k Hk. rewrite (get_dot m p q) by assumption.
      rewrite <- sum_n_scal_r. reflexivity. }
  rewrite sum_n_swap. apply sum_n_ext. intros l Hl.
  rewrite (get_dot p q n) by assumption.
  rewrite <- sum_n_scal_l. apply sum_n_ext. intros k Hk. ring.
Qed.

Lemma dot_eye_l m n A : shape m n A -> (0 < m)%nat -> dot (np_eye m) A = A.
Proof.
  intros HA Hm. apply (mat_ext m n); [| exact HA |].
  - apply (shape_dot m m n); [apply shape_np_eye | exact HA | exact Hm].
  - intros i j Hi Hj.
    rewrite (get_dot m m n) by (try apply shape_np_eye; assumption).
    rewrite (sum_n_ext m _ (fun k => if Nat.eqb k i then get A k j else 0)).
    + apply (sum_n_delta m i (fun k => get A k j)). exact Hi.
    + intros k Hk. rewrite get_np_eye by assumption.
      rewrite (Nat.eqb_sym i k). destruct (Nat.eqb k i); ring.
Qed.

Lemma dot_eye_r m n A : shape m n A -> (0 < n)%nat -> dot A (np_eye n) = A.
Proof.
  intros HA Hn. apply (mat_ext m n); [| exact HA |].
  - apply (shape_dot m n n); [exact HA | apply shape_np_eye | exact Hn].
  - intros i j Hi Hj.
    rewrite (get_dot m n n) by (try apply shape_np_eye; assumption).
    rewrite (sum_n_ext n _ (fun k => if Nat.eqb k j then get A i k else 0)).
    + apply (sum_n_delta n j (fun k => get A i k)). exact Hj.
    + intros k Hk. rewrite get_np_eye by assumption.
      destruct (Nat.eqb k j); ring.
Qed.

Lemma T_dot m p n A B :
  shape m p A -> shape p n B -> (0 < m)%nat -> (0 < p)%nat -> (0 < n)%nat ->
  T (dot A B) = dot (T B) (T A).
Proof.
  intros HA HB Hm Hp Hn.
  apply (mat_ext n m).
  - apply shape_T; [apply (shape_dot m p n); assumption | exact Hm].
  - apply (shape_dot n p m); [apply shape_T | apply shape_T | ]; assumption.
  - intros i j Hi Hj.
    rewrite (get_T m n) by (try apply (shape_dot m p n); assumption).
    rewrite (get_dot m p n), (get_dot n p m)
      by (try apply shape_T; assumption).
    apply sum_n_ext. intros k Hk.
    rewrite (get_T p n), (get_T m p) by assumption. ring.
Qed.

Lemma T_np_eye n : (0 < n)%nat -> T (np_eye n) = np_eye n.
Proof.
  intros Hn. apply (mat_ext n n); [apply shape_T; [apply shape_np_eye | exact Hn]
                                  | apply shape_np_eye |].
  intros i j Hi Hj. rewrite (get_T n n) by (try apply shape_np_eye; assumption).
  rewrite !get_np_eye by assumption. rewrite Nat.eqb_sym. reflexivity.
Qed.

Lemma T_np_diag v : (0 < length v)%nat -> T (np_diag v) = np_diag v.
Proof.
  intros Hn. apply (mat_ext (length v) (length v));
    [apply shape_T; [apply shape_np_diag | exact Hn] | apply shape_np_diag |].
  intros i j Hi Hj.
  rewrite (get_T (length v) (length v)) by (try apply shape_np_diag; assumption).
  rewrite !get_np_diag by assumption.
  destruct (Nat.eqb_spec j i) as [->|Hne].
  - rewrite Nat.eqb_refl. reflexivity.
  - destruct (Nat.eqb_spec i j); [congruence | reflexivity].
Qed.

Lemma T_madd m n A B :
  shape m n A -> shape m n B -> (0 < m)%nat ->
  T (madd A B) = madd (T A) (T B).
Proof.
  intros HA HB Hm. apply (mat_ext n m).
  - apply shape_T; [apply shape_madd; exact HA | exact Hm].
  - apply shape_madd. apply shape_T; assumption.
  - intros i j Hi Hj.
    rewrite (get_T m n) by (try apply shape_madd; assumption).
    rewrite (get_madd m n), (get_madd n m) by (try apply shape_T; assumption).
    rewrite !(get_T m n) by assumption. reflexivity.
Qed.

Lemma T_mscale m n c A :
  shape m n A -> (0 < m)%nat -> T (mscale c A) = mscale c (T A).
Proof.
  intros HA Hm. apply (mat_ext n m).
  - apply shape_T; [apply shape_mscale; exact HA | exact Hm].
  - apply shape_mscale, shape_T; assumption.
  - intros i j Hi Hj.
    rewrite (get_T m n) by (try apply shape_mscale; assumption).
    rewrite (get_mscale m n), (get_mscale n m) by (try apply shape_T; assumption).
    rewrite (get_T m n) by assumption. reflexivity.
Qed.


(** ** Methods that leave the instance alone *)

Lemma read_only_ret {A : Type} (a : A) : read_only (ret a).
Proof. intros s. reflexivity. Qed.

Lemma read_only_raise {A : Type} (e : exn) : read_only (@raise A e).
Proof. intros s. reflexivity. Qed.

Lemma read_only_call {A : Type} (e : exn) (r : option A) : read_only (call e r).
Proof. destruct r; [apply read_only_ret | apply read_only_raise]. Qed.

Lemma read_only_index {A : Type} (l : list A) (i : nat) : read_only (index l i).
Proof. apply read_only_call. Qed.

Lemma read_only_bind {A B : Type} (c : method A) (k : A -> method B) :
  read_only c -> (forall a, read_only (k a)) -> read_only (bind c k).
Proof.
  intros Hc Hk s. unfold bind. specialize (Hc s).
  destruct (c s) as [[a|e] s']; simpl in *; subst s'.
  - apply Hk.
  - reflexivity.
Qed.

Lemma read_only_collect {A B : Type} (l : list A) (f : A -> method B) :
  (forall x, read_only (f x)) -> read_only (collect l f).
Proof.
  intros Hf. induction l as [|x t IH]; simpl.
  - apply read_only_ret.
  - apply read_only_bind; [apply Hf|]. intros y.
    apply read_only_bind; [exact IH|]. intros ys. apply read_only_ret.
Qed.

Section Frame.

Variable linalg_inv : matrix -> option matrix.
Variable interp1d_cubic : vector -> vector -> option (R -> R).
Variable PHI : matrix -> R -> matrix.

Lemma read_only_explore apN intPts data :
  read_only (explore linalg_inv interp1d_cubic PHI apN intPts data).
Proof.
  unfold explore.
  apply read_only_bind; [apply read_only_call|]. intros RI.
  apply read_only_bind; [apply read_only_call|]. intros interpfun.
  apply read_only_bind; [apply read_only_call|]. intros aptind.
  apply read_only_bind; [apply read_only_index|]. intros x.
  apply read_only_ret.
Qed.

Lemma read_only_recognition_train datalist apN out_mode :
  read_only (recognition_train linalg_inv interp1d_cubic PHI datalist apN out_mode).
Proof.
  unfold recognition_train.
  apply read_only_bind; [apply read_only_index|]. intros first.
  apply read_only_bind; [apply read_only_index|]. intros last.
  apply read_only_bind; [apply read_only_collect; intros; apply read_only_explore|].
  intros triples. destruct (String.eqb out_mode "complete"); apply read_only_ret.
Qed.

Lemma read_only_recognition_predict testdata C_list :
  read_only (recognition_predict testdata C_list).
Proof.
  unfold recognition_predict.
  apply read_only_bind; [apply read_only_call|]. intros evidence.
  apply read_only_bind; [apply read_only_call|]. intros am.
  apply read_only_ret.
Qed.

(** C10. [recognition_train] and [recognition_predict] assign no field of
    the reservoir: whatever they return or raise, the instance after the
    call is the instance before it, so [num_pattern], the pattern
    records, the aggregated training matrices, [W_out], [W] and [Cs] are
    as they were. *)
Theorem recognition_frame :
  forall (s : Reservoir),
    (forall datalist apN out_mode,
        snd (recognition_train linalg_inv interp1d_cubic PHI
                               datalist apN out_mode s) = s)
    /\ (forall testdata C_list,
           snd (recognition_predict testdata C_list s) = s).
Proof.
  intros s. split.
  - intros. apply read_only_recognition_train.
  - intros. apply read_only_recognition_predict.
Qed.

End Frame.

(** ** [clean_storage] *)

Lemma clean_storage_run s :
  clean_storage s =
  (Ok tt,
   mkReservoir (size_in s) (size_net s) (num_pattern s) (sr s) (in_scale s)
     (bias_scale s) (varrho_out s) (varrho_w s) (W_star s) (W_in s) (W_bias s)
     [] [] [] [] [] [] [] [] [] [] [[]; []; []; []]).
Proof. reflexivity. Qed.

(** [clean_storage] answers on every instance, empties the aggregated
    matrices and the pattern records, and keeps the counter. *)
Lemma clean_storage_effect s :
  fst (clean_storage s) = Ok tt
  /\ num_pattern (snd (clean_storage s)) = num_pattern s
  /\ pattern_Rs (snd (clean_storage s)) = []
  /\ all_train_args (snd (clean_storage s)) = []
  /\ all_train_old_args (snd (clean_storage s)) = []
  /\ all_train_outs (snd (clean_storage s)) = [].
Proof. rewrite clean_storage_run. simpl. repeat split. Qed.

(** ** [drive_reservoir] *)

Lemma get_column M n i : get (column M n) i 0 = get M i n.
Proof.
  unfold get, column. destruct (Nat.ltb_spec i (length M)) as [H|H].
  - rewrite nth_indep with (d' := (fun r => [nth n r 0]) [])
      by (rewrite length_map; exact H).
    rewrite (map_nth (fun r => [nth n r 0])). reflexivity.
  - rewrite (nth_overflow (map _ M)) by (rewrite length_map; exact H).
    rewrite (nth_overflow M) by exact H. destruct n; reflexivity.
Qed.

Lemma set_col_mk m n f k x :
  (0 < m)%nat ->
  set_col (mk_mat m n f) k x
  = mk_mat m n (fun i j => if Nat.eqb j k then get x i 0 else f i j).
Proof.
  intros Hm. unfold set_col. rewrite nrows_mk_mat, ncols_mk_mat by exact Hm.
  apply mk_mat_ext. intros i j Hi Hj. rewrite get_mk_mat by assumption.
  reflexivity.
Qed.

Section Drive.

Variable s : Reservoir.
Variable pattern : matrix.
Variable w : nat.
Variable L : nat.
Hypothesis size_net_pos : (0 < size_net s)%nat.
Hypothesis size_in_pos : (0 < size_in s)%nat.

Lemma drive_step_invariant t h :
  loop_invariant s pattern w L t h ->
  loop_invariant s pattern w L (S t) (drive_step s pattern w h t).
Proof.
  intros (Hx & Hc & Ho & Hp). unfold drive_step. rewrite Hx, Hc, Ho, Hp.
  destruct (Z.ltb_spec (Z.of_nat w - 1) (Z.of_nat t)) as [Hw|Hw];
    unfold loop_invariant; cbn [h_x h_x_collector h_x_old_collector h_p_collector].
  - rewrite !set_col_mk by assumption.
    repeat split; apply mk_mat_ext; intros i c Hi Hc'.
    + destruct (Nat.eqb_spec c (t - w)) as [->|Hne].
      * destruct (Nat.ltb_spec (w + (t - w)) (S t)); [|lia].
        replace (w + (t - w) + 1)%nat with (S t) by lia. reflexivity.
      * destruct (Nat.ltb_spec (w + c) t), (Nat.ltb_spec (w + c) (S t));
          try reflexivity; lia.
    + destruct (Nat.eqb_spec c (t - w)) as [->|Hne].
      * destruct (Nat.ltb_spec (w + (t - w)) (S t)); [|lia].
        replace (w + (t - w))%nat with t by lia. reflexivity.
      * destruct (Nat.ltb_spec (w + c) t), (Nat.ltb_spec (w + c) (S t));
          try reflexivity; lia.
    + destruct (Nat.eqb_spec c (t - w)) as [->|Hne].
      * destruct (Nat.ltb_spec (w + (t - w)) (S t)); [|lia].
        replace (w + (t - w))%nat with t by lia. apply get_column.
      * destruct (Nat.ltb_spec (w + c) t), (Nat.ltb_spec (w + c) (S t));
          try reflexivity; lia.
  - repeat split; apply mk_mat_ext; intros i c Hi Hc';
      destruct (Nat.ltb_spec (w + c) t), (Nat.ltb_spec (w + c) (S t));
      try reflexivity; lia.
Qed.

Lemma drive_loop_invariant t :
  loop_invariant s pattern w L t
    (fold_left (drive_step s pattern w) (seq 0 t)
       (mkHarvest (np_zeros (size_net s) 1)
                  (np_zeros (size_net s) L)
                  (np_zeros (size_net s) L)
                  (np_zeros (size_in s) L))).
Proof.
  induction t as [|t IH].
  - simpl. repeat split; apply mk_mat_ext; reflexivity.
  - rewrite seq_S, fold_left_app. simpl fold_left at 1.
    apply drive_step_invariant. exact IH.
Qed.

End Drive.

(** The loop of [drive_reservoir] leaves the harvested matrices in its
    three collectors. *)
Lemma drive_loop_result s pattern w :
  (0 < size_net s)%nat -> (0 < size_in s)%nat -> (w <= ncols pattern)%nat ->
  let L := (ncols pattern - w)%nat in
  let h := fold_left (drive_step s pattern w) (seq 0 (w + L))
             (mkHarvest (np_zeros (size_net s) 1)
                        (np_zeros (size_net s) L)
                        (np_zeros (size_net s) L)
                        (np_zeros (size_in s) L)) in
  h_x_collector h = harvested_states s pattern w
  /\ h_x_old_collector h = harvested_old_states s pattern w
  /\ h_p_collector h = harvested_inputs s pattern w.
Proof.
  intros Hn Hm Hw L h.
  destruct (drive_loop_invariant s pattern w L Hn Hm (w + L))
    as (_ & Hc & Ho & Hp).
  fold h in Hc, Ho, Hp. rewrite Hc, Ho, Hp.
  unfold harvested_states, harvested_old_states, harvested_inputs. fold L.
  repeat split; apply mk_mat_ext; intros i c Hi Hc';
    destruct (Nat.ltb_spec (w + c) (w + L)); try reflexivity; lia.
Qed.

(** A drive that the SVD does not interrupt: the instance it leaves. *)
Lemma drive_reservoir_run linalg_svd s pattern w Ux Sx Vt :
  (0 < size_net s)%nat -> (0 < size_in s)%nat -> (w <= ncols pattern)%nat ->
  linalg_svd (mdiv (dot (harvested_states s pattern w)
                        (T (harvested_states s pattern w)))
                   (INR (ncols pattern - w))) = Some (Ux, Sx, Vt) ->
  drive_reservoir linalg_svd pattern w s =
  (Ok tt,
   mkReservoir (size_in s) (size_net s) (num_pattern s + 1) (sr s) (in_scale s)
     (bias_scale s) (varrho_out s) (varrho_w s) (W_star s) (W_in s) (W_bias s)
     (W_out s) (W s)
     (x_collectors s ++ [harvested_states s pattern w])
     (pattern_Rs s ++ [mdiv (dot (harvested_states s pattern w)
                                 (T (harvested_states s pattern w)))
                            (INR (ncols pattern - w))])
     (UR_collectors s ++ [Ux])
     (SR_collectors s ++ [Sx])
     (pattern_collectors s ++ [harvested_inputs s pattern w])
     (aggregate (all_train_args s) (harvested_states s pattern w))
     (aggregate (all_train_old_args s) (harvested_old_states s pattern w))
     (aggregate (all_train_outs s) (harvested_inputs s pattern w))
     (Cs s)).
Proof.
  intros Hn Hm Hw Hsvd.
  destruct (drive_loop_result s pattern w Hn Hm Hw) as (Hc & Ho & Hp).
  unfold drive_reservoir, bind at 1, self.
  destruct (Nat.ltb_spec (ncols pattern) w) as [Hlt|_]; [lia|].
  cbv zeta. rewrite Hc, Ho, Hp.
  unfold bind, assign, call. simpl. rewrite Hsvd. reflexivity.
Qed.

(** ** Correlation matrices [X.dot(X.T) / c] *)

Lemma get_gram n L X i j :
  shape n L X -> (0 < n)%nat -> (0 < L)%nat -> (i < n)%nat -> (j < n)%nat ->
  get (dot X (T X)) i j = sum_n L (fun k => get X i k * get X j k).
Proof.
  intros HX Hn HL Hi Hj.
  rewrite (get_dot n L n) by (try apply shape_T; assumption).
  apply sum_n_ext. intros k Hk. rewrite (get_T n L) by assumption. reflexivity.
Qed.

Lemma shape_correlation n L X c :
  shape n L X -> (0 < n)%nat -> (0 < L)%nat ->
  shape n n (mdiv (dot X (T X)) c).
Proof.
  intros HX Hn HL. apply shape_mdiv.
  apply (shape_dot n L n); [exact HX | apply shape_T; assumption | exact HL].
Qed.

Lemma get_correlation n L X c i j :
  shape n L X -> (0 < n)%nat -> (0 < L)%nat -> (i < n)%nat -> (j < n)%nat ->
  get (mdiv (dot X (T X)) c) i j = sum_n L (fun k => get X i k * get X j k) / c.
Proof.
  intros HX Hn HL Hi Hj.
  rewrite (get_mdiv n n)
    by (try (apply (shape_dot n L n); [| apply shape_T |]); assumption).
  rewrite (get_gram n L) by assumption. reflexivity.
Qed.

Lemma correlation_symmetric n L X c :
  shape n L X -> (0 < n)%nat -> (0 < L)%nat ->
  T (mdiv (dot X (T X)) c) = mdiv (dot X (T X)) c.
Proof.
  intros HX Hn HL.
  assert (HR := shape_correlation n L X c HX Hn HL).
  apply (mat_ext n n); [apply shape_T; assumption | exact HR |].
  intros i j Hi Hj. rewrite (get_T n n) by assumption.
  rewrite !(get_correlation n L) by assumption.
  f_equal. apply sum_n_ext. intros k Hk. ring.
Qed.

Lemma sum_n_triple_rotate a b c (f : nat -> nat -> nat -> R) :
  sum_n a (fun i => sum_n b (fun j => sum_n c (fun k => f i j k)))
  = sum_n c (fun k => sum_n a (fun i => sum_n b (fun j => f i j k))).
Proof.
  rewrite (sum_n_ext a _ (fun i => sum_n c (fun k => sum_n b (fun j => f i j k))))
    by (intros i Hi; apply sum_n_swap).
  apply sum_n_swap.
Qed.

Lemma sum_n_mult a b (f g : nat -> R) :
  sum_n a f * sum_n b g = sum_n a (fun i => sum_n b (fun j => f i * g j)).
Proof.
  rewrite <- sum_n_scal_r. apply sum_n_ext. intros i Hi.
  rewrite <- sum_n_scal_l. reflexivity.
Qed.

Lemma correlation_quad_form n L X c v :
  shape n L X -> (0 < n)%nat -> (0 < L)%nat -> length v = n ->
  quad_form (mdiv (dot X (T X)) c) v
  = sum_n L (fun k => sum_n n (fun i => nth i v 0 * get X i k)
                      * sum_n n (fun i => nth i v 0 * get X i k)) / c.
Proof.
  intros HX Hn HL Hv. unfold quad_form. rewrite Hv.
  rewrite (sum_n_ext L _
             (fun k => sum_n n (fun i => sum_n n (fun j =>
                (nth i v 0 * get X i k) * (nth j v 0 * get X j k)))))
    by (intros k Hk; apply sum_n_mult).
  rewrite <- (sum_n_triple_rotate n n L
                (fun i j k => (nth i v 0 * get X i k) * (nth j v 0 * get X j k))).
  unfold Rdiv. rewrite <- sum_n_scal_r.
  apply sum_n_ext. intros i Hi. rewrite <- sum_n_scal_r.
  apply sum_n_ext. intros j Hj.
  rewrite (get_correlation n L) by assumption.
  unfold Rdiv. rewrite <- !sum_n_scal_r, <- sum_n_scal_l, <- sum_n_scal_r.
  apply sum_n_ext. intros k Hk. ring.
Qed.

Lemma correlation_psd n L X c :
  shape n L X -> (0 < n)%nat -> (0 < L)%nat -> 0 < c ->
  psd n (mdiv (dot X (T X)) c).
Proof.
  intros HX Hn HL Hc v Hv.
  rewrite (correlation_quad_form n L) by assumption.
  apply Rmult_le_pos.
  - apply sum_n_nonneg. intros k Hk. apply Rle_0_sqr.
  - left. apply Rinv_0_lt_compat. exact Hc.
Qed.

Lemma shape_harvested_states s pattern w :
  shape (size_net s) (ncols pattern - w) (harvested_states s pattern w).
Proof. apply shape_mk_mat. Qed.

Lemma shape_harvested_old_states s pattern w :
  shape (size_net s) (ncols pattern - w) (harvested_old_states s pattern w).
Proof. apply shape_mk_mat. Qed.

Lemma shape_harvested_inputs s pattern w :
  shape (size_in s) (ncols pattern - w) (harvested_inputs s pattern w).
Proof. apply shape_mk_mat. Qed.

#[export] Hint Resolve shape_harvested_states shape_harvested_old_states
  shape_harvested_inputs : shape.

(** C6. Driving a reservoir with a pattern of [total_length] columns and a
    washout [0 <= w < total_length] iterates
    [x' = tanh(W_star.x + W_in.u + W_bias)] from the zero state over all the
    columns and keeps the last [total_length - w] steps: the harvested
    state matrix has that many columns, column [c] being the state after
    step [w + c]; the lagged matrix holds the states just before those
    steps and the input matrix the inputs of those steps.  The correlation
    matrix [X.X^T / (total_length - w)] that is appended to [pattern_Rs] is
    [size_net] by [size_net], symmetric and positive semi-definite, and the
    pattern counter goes up by one. *)
Theorem drive_reservoir_harvest :
  forall linalg_svd s pattern w Ux Sx Vt,
    (0 < size_net s)%nat -> (0 < size_in s)%nat -> (w < ncols pattern)%nat ->
    linalg_svd (mdiv (dot (harvested_states s pattern w)
                          (T (harvested_states s pattern w)))
                     (INR (ncols pattern - w))) = Some (Ux, Sx, Vt) ->
    exists s',
      drive_reservoir linalg_svd pattern w s = (Ok tt, s')
      /\ state_at s pattern 0 = np_zeros (size_net s) 1
      /\ (forall k, state_at s pattern (S k)
                    = np_tanh (madd (madd (dot (W_star s) (state_at s pattern k))
                                          (dot (W_in s) (column pattern k)))
                                    (W_bias s)))
      /\ (exists X X_old U Rm,
             x_collectors s' = x_collectors s ++ [X]
             /\ pattern_collectors s' = pattern_collectors s ++ [U]
             /\ pattern_Rs s' = pattern_Rs s ++ [Rm]
             /\ all_train_args s' = aggregate (all_train_args s) X
             /\ all_train_old_args s' = aggregate (all_train_old_args s) X_old
             /\ all_train_outs s' = aggregate (all_train_outs s) U
             /\ shape (size_net s) (ncols pattern - w) X
             /\ shape (size_net s) (ncols pattern - w) X_old
             /\ shape (size_in s) (ncols pattern - w) U
             /\ (forall i c, (i < size_net s)%nat -> (c < ncols pattern - w)%nat ->
                   get X i c = get (state_at s pattern (w + c + 1)) i 0
                   /\ get X_old i c = get (state_at s pattern (w + c)) i 0)
             /\ (forall i c, (i < size_in s)%nat -> (c < ncols pattern - w)%nat ->
                   get U i c = get pattern i (w + c))
             /\ Rm = mdiv (dot X (T X)) (INR (ncols pattern - w))
             /\ shape (size_net s) (size_net s) Rm
             /\ T Rm = Rm
             /\ psd (size_net s) Rm)
      /\ num_pattern s' = (num_pattern s + 1)%nat.
Proof.
  intros linalg_svd s pattern w Ux Sx Vt Hn Hm Hw Hsvd.
  eexists. split.
  { apply drive_reservoir_run with (Ux := Ux) (Sx := Sx) (Vt := Vt);
      [exact Hn | exact Hm | lia | exact Hsvd]. }
  split; [reflexivity|]. split; [reflexivity|]. split; [|reflexivity].
  exists (harvested_states s pattern w), (harvested_old_states s pattern w),
    (harvested_inputs s pattern w),
    (mdiv (dot (harvested_states s pattern w) (T (harvested_states s pattern w)))
          (INR (ncols pattern - w))).
  cbn [x_collectors pattern_collectors pattern_Rs all_train_args
         all_train_old_args all_train_outs].
  assert (HL : (0 < ncols pattern - w)%nat) by lia.
  repeat match goal with |- _ /\ _ => split end; try reflexivity;
    try apply shape_mk_mat.
  - intros i c Hi Hc. unfold harvested_states, harvested_old_states.
    rewrite !get_mk_mat by assumption. split; reflexivity.
  - intros i c Hi Hc. unfold harvested_inputs.
    rewrite get_mk_mat by assumption. reflexivity.
  - apply (shape_correlation (size_net s) (ncols pattern - w)); auto with shape.
  - apply (correlation_symmetric (size_net s) (ncols pattern - w));
      auto with shape.
  - apply (correlation_psd (size_net s) (ncols pattern - w)); auto with shape.
    apply lt_0_INR. exact HL.
Qed.

(** ** Diagonal matrices *)

Lemma nth_map_R (f : R -> R) v i :
  (i < length v)%nat -> nth i (map f v) 0 = f (nth i v 0).
Proof.
  intros H. rewrite nth_indep with (d' := f 0) by (rewrite length_map; exact H).
  apply map_nth.
Qed.

Lemma ncols_np_diag v : ncols (np_diag v) = length v.
Proof.
  destruct v as [|a v]; [reflexivity|].
  apply (shape_ncols (length (a :: v))); [apply shape_np_diag | simpl; lia].
Qed.

Lemma np_diagonal_np_diag v : np_diagonal (np_diag v) = v.
Proof.
  unfold np_diagonal.
  rewrite (shape_nrows _ _ _ (shape_np_diag v)), ncols_np_diag, Nat.min_id.
  apply nth_ext with (d := 0) (d' := 0).
  - rewrite length_map, length_seq. reflexivity.
  - intros i Hi. rewrite length_map, length_seq in Hi.
    rewrite (nth_map_seq (fun i => get (np_diag v) i i)) by exact Hi.
    rewrite get_np_diag by exact Hi. rewrite Nat.eqb_refl. reflexivity.
Qed.

Lemma dot_np_diag u v :
  length u = length v -> (0 < length u)%nat ->
  dot (np_diag u) (np_diag v)
  = np_diag (map (fun i => nth i u 0 * nth i v 0) (seq 0 (length u))).
Proof.
  intros Huv Hn.
  set (n := length u) in *.
  assert (Hl : length (map (fun i => nth i u 0 * nth i v 0) (seq 0 n)) = n)
    by (rewrite length_map, length_seq; reflexivity).
  apply (mat_ext n n).
  - apply (shape_dot n n n); [apply shape_np_diag | | exact Hn].
    rewrite Huv. apply shape_np_diag.
  - rewrite <- Hl at 1 2. apply shape_np_diag.
  - intros i j Hi Hj.
    rewrite (get_dot n n n);
      [ | apply shape_np_diag | rewrite Huv; apply shape_np_diag | assumption..].
    rewrite get_np_diag by (rewrite Hl; assumption).
    rewrite (sum_n_ext n _
               (fun k => if Nat.eqb k i
                         then nth k u 0 * get (np_diag v) k j else 0)).
    2:{ intros k Hk. rewrite get_np_diag by assumption.
        rewrite (Nat.eqb_sym i k). destruct (Nat.eqb_spec k i) as [->|]; ring. }
    rewrite (sum_n_delta n i (fun k => nth k u 0 * get (np_diag v) k j)) by exact Hi.
    rewrite get_np_diag by (rewrite <- Huv; assumption).
    destruct (Nat.eqb_spec i j) as [->|Hne].
    + rewrite (nth_map_seq (fun i => nth i u 0 * nth i v 0)) by exact Hj. reflexivity.
    + ring.
Qed.

Lemma np_diag_ones n : np_diag (repeat 1 n) = np_eye n.
Proof.
  unfold np_diag, np_eye. rewrite repeat_length.
  apply mk_mat_ext. intros i j Hi Hj.
  destruct (Nat.eqb i j); [|reflexivity].
  apply nth_repeat_lt. exact Hi.
Qed.

Lemma madd_diag_eye v a :
  madd (np_diag v) (mscale a (np_eye (length v)))
  = np_diag (map (fun x => x + a) v).
Proof.
  set (n := length v).
  rewrite (madd_mk n n) by apply shape_np_diag.
  unfold np_diag at 2. rewrite length_map. fold n.
  apply mk_mat_ext. intros i j Hi Hj.
  rewrite get_np_diag by assumption.
  rewrite (get_mscale n n) by (try apply shape_np_eye; assumption).
  rewrite get_np_eye by assumption.
  destruct (Nat.eqb i j).
  - rewrite (nth_map_R (fun x => x + a)) by exact Hi. ring.
  - ring.
Qed.

(** A left inverse and a right inverse of one matrix are equal. *)
Lemma inverse_unique n A B C :
  (0 < n)%nat -> shape n n A -> shape n n B -> shape n n C ->
  dot B A = np_eye n -> dot A C = np_eye n -> B = C.
Proof.
  intros Hn HA HB HC HBA HAC.
  rewrite <- (dot_eye_r n n B HB Hn), <- HAC.
  rewrite <- (dot_assoc n n n n B A C) by assumption.
  rewrite HBA. apply (dot_eye_l n n); assumption.
Qed.

(** *** The reference routines *)

Lemma sorted_singular_b_true d :
  sorted_singular d -> sorted_singular_b d = true.
Proof.
  induction d as [|a t IH]; [reflexivity|]. intros (Ha & Hb & Ht).
  simpl. destruct (Rle_dec 0 a); [|contradiction].
  rewrite (IH Ht). destruct t as [|b t']; [reflexivity|].
  destruct (Rle_dec b a); [reflexivity | contradiction].
Qed.

Lemma diag_svd_diag d :
  sorted_singular d ->
  diag_svd (np_diag d) = Some (np_eye (length d), d, np_eye (length d)).
Proof.
  intros Hd. unfold diag_svd. rewrite np_diagonal_np_diag.
  destruct (mat_eq_dec (np_diag d) (np_diag d)) as [_|Hne]; [|contradiction].
  rewrite (sorted_singular_b_true d Hd). reflexivity.
Qed.

Lemma diag_inv_diag d :
  Forall (fun x => x <> 0) d ->
  diag_inv (np_diag d) = Some (np_diag (map Rinv d)).
Proof.
  intros Hd. unfold diag_inv. rewrite np_diagonal_np_diag.
  destruct (mat_eq_dec (np_diag d) (np_diag d)) as [_|Hne]; [|contradiction].
  destruct (Forall_dec _ nonzero_dec d) as [_|Hn]; [reflexivity | contradiction].
Qed.

Lemma np_diag_inverse d :
  (0 < length d)%nat -> Forall (fun x => x <> 0) d ->
  dot (np_diag (map Rinv d)) (np_diag d) = np_eye (length d)
  /\ dot (np_diag d) (np_diag (map Rinv d)) = np_eye (length d).
Proof.
  intros Hn Hd.
  assert (Hone : forall i, (i < length d)%nat -> nth i d 0 * / nth i d 0 = 1).
  { intros i Hi. apply Rinv_r. rewrite Forall_forall in Hd.
    apply Hd, nth_In, Hi. }
  split.
  - rewrite dot_np_diag by (rewrite length_map; (reflexivity || exact Hn)).
    rewrite length_map, <- np_diag_ones. f_equal.
    apply nth_ext with (d := 0) (d' := 0).
    + rewrite length_map, length_seq, repeat_length. reflexivity.
    + intros i Hi. rewrite length_map, length_seq in Hi.
      rewrite (nth_map_seq (fun i => nth i (map Rinv d) 0 * nth i d 0)) by exact Hi.
      rewrite nth_repeat_lt by exact Hi.
      rewrite nth_map_R by exact Hi. rewrite Rmult_comm. apply Hone, Hi.
  - rewrite dot_np_diag by (rewrite ?length_map; (reflexivity || exact Hn)).
    rewrite <- np_diag_ones. f_equal.
    apply nth_ext with (d := 0) (d' := 0).
    + rewrite length_map, length_seq, repeat_length. reflexivity.
    + intros i Hi. rewrite length_map, length_seq in Hi.
      rewrite (nth_map_seq (fun i => nth i d 0 * nth i (map Rinv d) 0)) by exact Hi.
      rewrite nth_repeat_lt by exact Hi.
      rewrite nth_map_R by exact Hi. apply Hone, Hi.
Qed.

Lemma diag_inv_sound : inv_sound diag_inv.
Proof.
  intros n A B Hn HA H. unfold diag_inv in H.
  remember (np_diagonal A) as d eqn:Hd.
  destruct (mat_eq_dec A (np_diag d)) as [e|]; [|discriminate].
  destruct (Forall_dec _ nonzero_dec d) as [Hnz|]; [|discriminate].
  inversion H; subst B; clear H. subst A.
  assert (Hlen : length d = n).
  { rewrite <- (shape_nrows n n _ HA).
    symmetry. apply (shape_nrows _ _ _ (shape_np_diag d)). }
  destruct (np_diag_inverse d) as [H1 H2]; [lia | exact Hnz |].
  rewrite Hlen in H1, H2. split; [|split; assumption].
  pose proof (shape_np_diag (map Rinv d)) as Hs.
  rewrite length_map, Hlen in Hs. exact Hs.
Qed.

Lemma diag_inv_total_on_diag : inv_total_on_diag diag_inv.
Proof. intros d Hd. rewrite (diag_inv_diag d Hd). discriminate. Qed.

(** ** [compute_projector] *)

Section Projector.

Variable linalg_inv : matrix -> option matrix.
Variable linalg_svd : matrix -> option (matrix * vector * matrix).
Hypothesis inv_ok : inv_sound linalg_inv.
Hypothesis inv_diag : inv_total_on_diag linalg_inv.

(** The inverse the method asks for is the diagonal of the reciprocals. *)
Lemma shrink_inverse S_ a :
  (0 < length S_)%nat -> Forall (fun x => 0 <= x) S_ -> 0 < a ->
  linalg_inv (madd (np_diag S_) (mscale a (np_eye (length S_))))
  = Some (np_diag (map (fun x => / (x + a)) S_)).
Proof.
  intros Hn Hpos Ha. rewrite madd_diag_eye.
  set (d := map (fun x => x + a) S_).
  assert (Hlen : length d = length S_) by apply length_map.
  assert (Hd : Forall (fun x => x <> 0) d).
  { apply Forall_forall. intros y Hy. apply in_map_iff in Hy.
    destruct Hy as [x [<- Hx]]. rewrite Forall_forall in Hpos.
    specialize (Hpos x Hx). lra. }
  destruct (linalg_inv (np_diag d)) as [D|] eqn:HD;
    [| exfalso; exact (inv_diag d Hd HD)].
  assert (Hsd : shape (length d) (length d) (np_diag d)) by apply shape_np_diag.
  destruct (inv_ok (length d) (np_diag d) D) as (HsD & HDA & HAD);
    [lia | exact Hsd | exact HD |].
  destruct (np_diag_inverse d) as [H1 H2]; [lia | exact Hd |].
  f_equal.
  replace (map (fun x => / (x + a)) S_) with (map Rinv d)
    by (unfold d; rewrite map_map; reflexivity).
  apply (inverse_unique (length d) (np_diag d)); try assumption; try lia.
  pose proof (shape_np_diag (map Rinv d)) as Hs.
  rewrite length_map in Hs. exact Hs.
Qed.

Lemma shrunk_diagonal S_ a :
  (0 < length S_)%nat ->
  dot (np_diag S_) (np_diag (map (fun x => / (x + a)) S_))
  = np_diag (shrink a S_).
Proof.
  intros Hn. rewrite dot_np_diag by (rewrite ?length_map; (reflexivity || lia)).
  f_equal. apply nth_ext with (d := 0) (d' := 0).
  - unfold shrink. rewrite !length_map, length_seq. reflexivity.
  - intros i Hi. rewrite length_map, length_seq in Hi.
    rewrite (nth_map_seq
               (fun i => nth i S_ 0 * nth i (map (fun x => / (x + a)) S_) 0))
      by exact Hi.
    unfold shrink.
    rewrite (nth_map_R (fun x => / (x + a))), (nth_map_R (fun x => x / (x + a)))
      by exact Hi.
    reflexivity.
Qed.

(** [compute_projector] on a reservoir whose bundle has its four lists. *)
Lemma compute_projector_run s R_ alpha U S_ Vt c0 c1 c2 c3 :
  Cs s = [c0; c1; c2; c3] ->
  linalg_svd R_ = Some (U, S_, Vt) ->
  length S_ = size_net s -> (0 < size_net s)%nat ->
  Forall (fun x => 0 <= x) S_ -> 0 < alpha ->
  compute_projector linalg_inv linalg_svd R_ alpha s
  = (Ok tt,
     set_Cs [c0 ++ [Arr2 (conj_diag U (shrink (powerRZ alpha (-2)) S_))];
             c1 ++ [Arr2 U];
             c2 ++ [Arr1 (shrink (powerRZ alpha (-2)) S_)];
             c3 ++ [Arr1 S_]] s).
Proof.
  intros HCs Hsvd Hlen Hn Hpos Halpha.
  assert (Ha : 0 < powerRZ alpha (-2)) by (apply powerRZ_lt; exact Halpha).
  unfold compute_projector, bind at 1, self.
  unfold bind at 1, call at 1. rewrite Hsvd. unfold ret at 1.
  unfold bind at 1. rewrite <- Hlen.
  rewrite (shrink_inverse S_ _) by (try lia; assumption).
  unfold call at 1, ret at 1.
  rewrite shrunk_diagonal by lia. rewrite np_diagonal_np_diag.
  unfold conj_diag, Cs_append, bind, self, call, assign. rewrite HCs. simpl.
  reflexivity.
Qed.

End Projector.

(** ** Conceptors [U . diag(d) . U^T] *)

Lemma shape_np_diag_n n d : length d = n -> shape n n (np_diag d).
Proof. intros <-. apply shape_np_diag. Qed.

#[export] Hint Resolve shape_np_diag_n : shape.

Lemma shape_conj_diag n U d :
  shape n n U -> length d = n -> (0 < n)%nat -> shape n n (conj_diag U d).
Proof.
  intros HU Hd Hn. unfold conj_diag.
  apply (shape_dot n n n); [| apply shape_T; assumption | exact Hn].
  apply (shape_dot n n n); [exact HU | apply shape_np_diag_n; exact Hd | exact Hn].
Qed.

Lemma conj_diag_symmetric n U d :
  shape n n U -> length d = n -> (0 < n)%nat ->
  T (conj_diag U d) = conj_diag U d.
Proof.
  intros HU Hd Hn. unfold conj_diag.
  assert (HD : shape n n (np_diag d)) by (apply shape_np_diag_n; exact Hd).
  assert (HT : shape n n (T U)) by (apply shape_T; assumption).
  assert (HUD : shape n n (dot U (np_diag d)))
    by (apply (shape_dot n n n); assumption).
  rewrite (T_dot n n n) by assumption.
  rewrite (T_T n n) by assumption.
  rewrite (T_dot n n n) by assumption.
  rewrite T_np_diag by lia.
  symmetry. apply (dot_assoc n n n n); assumption.
Qed.

(** The columns of an orthogonal [U] are eigenvectors of [U.diag(d).U^T],
    with the entries of [d] as eigenvalues. *)
Lemma conj_diag_eigen n U d :
  shape n n U -> length d = n -> (0 < n)%nat ->
  dot (T U) U = np_eye n ->
  dot (conj_diag U d) U = dot U (np_diag d).
Proof.
  intros HU Hd Hn Horth. unfold conj_diag.
  assert (HD : shape n n (np_diag d)) by (apply shape_np_diag_n; exact Hd).
  assert (HT : shape n n (T U)) by (apply shape_T; assumption).
  assert (HUD : shape n n (dot U (np_diag d)))
    by (apply (shape_dot n n n); assumption).
  rewrite (dot_assoc n n n n) by assumption.
  rewrite Horth. apply (dot_eye_r n n); assumption.
Qed.

Lemma shrink_bounds a S_ :
  0 < a -> Forall (fun x => 0 <= x) S_ ->
  Forall (fun y => 0 <= y < 1) (shrink a S_).
Proof.
  intros Ha HS. apply Forall_forall. intros y Hy.
  apply in_map_iff in Hy. destruct Hy as [x [<- Hx]].
  rewrite Forall_forall in HS. specialize (HS x Hx).
  assert (Hpos : 0 < / (x + a)) by (apply Rinv_0_lt_compat; lra).
  split.
  - apply Rmult_le_pos; lra.
  - apply (Rmult_lt_reg_r (x + a)); [lra|].
    unfold Rdiv. rewrite Rmult_assoc, Rinv_l by lra. lra.
Qed.

(** C5. For an aperture [alpha > 0] and a correlation matrix whose SVD
    returns an orthogonal [U] and non-negative singular values [S],
    [compute_projector] appends to the bundle the conceptor
    [C = U.diag(s / (s + alpha^(-2))).U^T], together with [U], the shrunk
    values and [S].  [C] is symmetric, the columns of [U] are its
    eigenvectors and its eigenvalues, the shrunk values, lie in [[0, 1)]. *)
Theorem compute_projector_shrinkage :
  forall linalg_inv linalg_svd s R_ alpha U S_ Vt c0 c1 c2 c3,
    inv_sound linalg_inv -> inv_total_on_diag linalg_inv ->
    (0 < size_net s)%nat ->
    Cs s = [c0; c1; c2; c3] ->
    linalg_svd R_ = Some (U, S_, Vt) ->
    shape (size_net s) (size_net s) U ->
    dot (T U) U = np_eye (size_net s) ->
    R_ = conj_diag U S_ ->
    length S_ = size_net s ->
    Forall (fun x => 0 <= x) S_ ->
    0 < alpha ->
    exists C S_new,
      compute_projector linalg_inv linalg_svd R_ alpha s
      = (Ok tt, set_Cs [c0 ++ [Arr2 C]; c1 ++ [Arr2 U];
                        c2 ++ [Arr1 S_new]; c3 ++ [Arr1 S_]] s)
      /\ S_new = map (fun x => x / (x + powerRZ alpha (-2))) S_
      /\ C = dot (dot U (np_diag S_new)) (T U)
      /\ shape (size_net s) (size_net s) C
      /\ T C = C
      /\ dot C U = dot U (np_diag S_new)
      /\ Forall (fun y => 0 <= y < 1) S_new.
Proof.
  intros linalg_inv linalg_svd s R_ alpha U S_ Vt c0 c1 c2 c3
         Hinv Hdiag Hn HCs Hsvd HU Horth HR Hlen Hpos Halpha.
  exists (conj_diag U (shrink (powerRZ alpha (-2)) S_)),
    (shrink (powerRZ alpha (-2)) S_).
  assert (Hl : length (shrink (powerRZ alpha (-2)) S_) = size_net s)
    by (unfold shrink; rewrite length_map; exact Hlen).
  split; [apply compute_projector_run with (Vt := Vt); assumption|].
  split; [reflexivity|]. split; [reflexivity|].
  split; [apply shape_conj_diag; assumption|].
  split; [apply (conj_diag_symmetric (size_net s)); assumption|].
  split; [apply (conj_diag_eigen (size_net s)); assumption|].
  apply shrink_bounds; [apply powerRZ_lt; exact Halpha | exact Hpos].
Qed.

(** Scenario B of the specification, with the reference routines:
    [R = [[4, 0], [0, 1]]] and [alpha = 1] give [C = diag(4/5, 1/2)]. *)
Lemma compute_projector_scenario_B :
  compute_projector diag_inv diag_svd [[4; 0]; [0; 1]] 1 reservoir_1_2
  = (Ok tt,
     set_Cs [[Arr2 [[4 / 5; 0]; [0; 1 / 2]]]; [Arr2 [[1; 0]; [0; 1]]];
             [Arr1 [4 / 5; 1 / 2]]; [Arr1 [4; 1]]] reservoir_1_2).
Proof.
  destruct (compute_projector_shrinkage diag_inv diag_svd reservoir_1_2
              [[4; 0]; [0; 1]] 1 (np_eye 2) [4; 1] (np_eye 2) [] [] [] [])
    as (C & S_new & Hrun & HS & HC & _).
  - exact diag_inv_sound.
  - exact diag_inv_total_on_diag.
  - simpl. lia.
  - reflexivity.
  - change [[4; 0]; [0; 1]] with (np_diag [4; 1]).
    apply (diag_svd_diag [4; 1]). simpl. repeat split; lra.
  - apply shape_np_eye.
  - rewrite T_np_eye by lia. apply (dot_eye_l 2 2); [apply shape_np_eye | lia].
  - unfold conj_diag. rewrite T_np_eye by lia.
    rewrite (dot_eye_l 2 2), (dot_eye_r 2 2) by (try apply shape_np_diag; lia).
    reflexivity.
  - reflexivity.
  - repeat constructor; lra.
  - lra.
  - rewrite Hrun. f_equal. subst C S_new.
    rewrite T_np_eye by lia.
    rewrite (dot_eye_l 2 2), (dot_eye_r 2 2)
      by (try apply (shape_np_diag_n 2); (reflexivity || lia)).
    assert (E1 : 4 / (4 + powerRZ 1 (-2)) = 4 / 5) by (simpl; field).
    assert (E2 : 1 / (1 + powerRZ 1 (-2)) = 1 / 2) by (simpl; field).
    cbn [map]. rewrite E1, E2. reflexivity.
Defined.

(** ** Scenario A: zero weights, ten steps of zero input, washout 2 *)

Lemma tanh_0 : tanh 0 = 0.
Proof. unfold tanh. rewrite sinh_0. unfold Rdiv. apply Rmult_0_l. Qed.

Lemma zero_reservoir_state k :
  state_at reservoir_1_2 zero_pattern_10 k = np_zeros 2 1.
Proof.
  induction k as [|k IH]; [reflexivity|].
  cbn [state_at]. rewrite IH. unfold next_state.
  apply (mat_ext 2 1); [| apply shape_np_zeros |].
  - apply shape_np_tanh, (shape_madd 2 1), (shape_madd 2 1).
    apply (shape_dot 2 2 1); [apply shape_np_zeros | apply shape_np_zeros | lia].
  - intros i j Hi Hj.
    assert (Hd : shape 2 1 (dot (W_star reservoir_1_2) (np_zeros 2 1)))
      by (apply (shape_dot 2 2 1); [apply shape_np_zeros | apply shape_np_zeros | lia]).
    rewrite (get_np_tanh 2 1) by (try apply (shape_madd 2 1), (shape_madd 2 1); assumption).
    rewrite (get_madd 2 1) by (try apply (shape_madd 2 1); assumption).
    rewrite (get_madd 2 1) by assumption.
    rewrite (get_dot 2 2 1) by (try apply shape_np_zeros; (assumption || lia)).
    replace (get (np_zeros 2 1) i j) with (tanh 0)
      by (unfold np_zeros; rewrite get_mk_mat by assumption; apply tanh_0).
    f_equal.
    assert (E1 : sum_n 2 (fun k0 => get (W_star reservoir_1_2) i k0
                                    * get (np_zeros 2 1) k0 j) = 0).
    { apply sum_n_zero. intros k0 Hk0. unfold np_zeros at 1.
      rewrite get_mk_mat by assumption. ring. }
    assert (E2 : get (dot (W_in reservoir_1_2) (column zero_pattern_10 k)) i j = 0).
    { unfold dot. rewrite get_mk_mat_full.
      destruct (_ && _); [|reflexivity].
      apply sum_n_zero. intros k0 Hk0.
      change (W_in reservoir_1_2) with (np_zeros 2 1).
      unfold np_zeros. rewrite get_mk_mat_full.
      destruct (_ && _); ring. }
    assert (E3 : get (W_bias reservoir_1_2) i j = 0).
    { change (W_bias reservoir_1_2) with (np_zeros 2 1).
      unfold np_zeros. rewrite get_mk_mat by assumption. reflexivity. }
    rewrite E1, E2, E3. ring.
Qed.

Lemma zero_reservoir_correlation :
  mdiv (dot (harvested_states reservoir_1_2 zero_pattern_10 2)
            (T (harvested_states reservoir_1_2 zero_pattern_10 2)))
       (INR (ncols zero_pattern_10 - 2))
  = np_diag [0; 0].
Proof.
  apply (mat_ext 2 2); [| apply (shape_np_diag [0; 0]) |].
  - apply (shape_correlation 2 8); [apply shape_harvested_states | lia | lia].
  - intros i j Hi Hj.
    rewrite (get_correlation 2 8)
      by (try apply shape_harvested_states; (assumption || lia)).
    rewrite sum_n_zero.
    + rewrite (get_np_diag [0; 0]) by assumption.
      unfold Rdiv. rewrite Rmult_0_l.
      destruct (Nat.eqb i j); [|reflexivity].
      destruct i as [|[|i]]; [reflexivity | reflexivity | simpl in Hi; lia].
    + intros k Hk. unfold harvested_states.
      rewrite !get_mk_mat by (assumption || (simpl; lia)).
      rewrite !zero_reservoir_state. unfold np_zeros.
      rewrite !get_mk_mat by (assumption || lia). ring.
Qed.

(** Scenario A of the specification, with the reference SVD: the harvested
    state matrix has 8 columns and the stored correlation matrix is 2 by 2,
    symmetric and positive semi-definite. *)
Lemma drive_reservoir_scenario_A :
  exists s',
    drive_reservoir diag_svd zero_pattern_10 2 reservoir_1_2 = (Ok tt, s')
    /\ (exists X Rm,
           x_collectors s' = [X] /\ pattern_Rs s' = [Rm]
           /\ shape 2 8 X /\ Rm = mdiv (dot X (T X)) 8
           /\ shape 2 2 Rm /\ T Rm = Rm /\ psd 2 Rm)
    /\ num_pattern s' = 1%nat.
Proof.
  destruct (drive_reservoir_harvest diag_svd reservoir_1_2 zero_pattern_10 2
              (np_eye 2) [0; 0] (np_eye 2))
    as (s' & Hrun & _ & _ & (X & X_old & U & Rm & H) & Hnum).
  - simpl. lia.
  - simpl. lia.
  - unfold zero_pattern_10, ncols. simpl. lia.
  - rewrite zero_reservoir_correlation.
    apply (diag_svd_diag [0; 0]). simpl. repeat split; lra.
  - exists s'. split; [exact Hrun|]. split; [|exact Hnum].
    destruct H as (Hx & _ & HR & _ & _ & _ & HsX & _ & _ & _ & _ & HRm & HsR & Hsym & Hpsd).
    exists X, Rm.
    split; [exact Hx|]. split; [exact HR|]. split; [exact HsX|].
    split; [|split; [exact HsR | split; [exact Hsym | exact Hpsd]]].
    rewrite HRm. f_equal. unfold zero_pattern_10, ncols. simpl. lra.
Defined.

(** ** [compute_projectors] *)

Lemma for_each_app {A : Type} (l1 l2 : list A) (body : A -> method unit) s :
  for_each (l1 ++ l2) body s
  = match for_each l1 body s with
    | (Ok _, s1) => for_each l2 body s1
    | (Raised e, s1) => (Raised e, s1)
    end.
Proof.
  revert s. induction l1 as [|x t IH]; intros s; simpl.
  - reflexivity.
  - unfold bind. destruct (body x s) as [[[]|e] s1]; [apply IH | reflexivity].
Qed.

Lemma map_nth_seq {A : Type} (l : list A) (d : A) :
  map (fun p => nth p l d) (seq 0 (length l)) = l.
Proof.
  apply nth_ext with (d := d) (d' := d).
  - rewrite length_map, length_seq. reflexivity.
  - intros i Hi. rewrite length_map, length_seq in Hi.
    apply (nth_map_seq (fun p => nth p l d)). exact Hi.
Qed.

Lemma default_alpha_pos : 0 < default_alpha.
Proof. unfold default_alpha. lra. Qed.

Section ProjectorLoop.

Variable linalg_inv : matrix -> option matrix.
Variable linalg_svd : matrix -> option (matrix * vector * matrix).
Hypothesis inv_ok : inv_sound linalg_inv.
Hypothesis inv_diag : inv_total_on_diag linalg_inv.
Variable alphas : vector.

Lemma projector_step_run p s R_ c0 c1 c2 c3 :
  Cs s = [c0; c1; c2; c3] ->
  nth_error (pattern_Rs s) p = Some R_ ->
  (p < length alphas)%nat ->
  svd_ok linalg_svd (size_net s) R_ ->
  (0 < size_net s)%nat ->
  projector_step linalg_inv linalg_svd alphas p s
  = (Ok tt, set_Cs (append_projector linalg_svd default_alpha
                                     [c0; c1; c2; c3] R_) s).
Proof.
  intros HCs HR Hp (U & S_ & Vt & Hsvd & Hlen & Hpos) Hn.
  unfold projector_step, bind at 1, self.
  unfold bind at 1, index at 1, call at 1. rewrite HR. unfold ret at 1.
  destruct (nth_error alphas p) as [a|] eqn:Ha;
    [| apply nth_error_None in Ha; lia].
  unfold bind at 1, index at 1, call at 1. rewrite Ha. unfold ret at 1.
  rewrite (compute_projector_run linalg_inv linalg_svd inv_ok inv_diag
             s R_ default_alpha U S_ Vt c0 c1 c2 c3)
    by (assumption || apply default_alpha_pos).
  unfold append_projector. rewrite Hsvd. reflexivity.
Qed.

Lemma projector_loop_run l : forall s c0 c1 c2 c3,
  Cs s = [c0; c1; c2; c3] ->
  (0 < size_net s)%nat ->
  Forall (fun p => (p < length alphas)%nat
                   /\ (p < length (pattern_Rs s))%nat
                   /\ svd_ok linalg_svd (size_net s) (nth p (pattern_Rs s) []))
         l ->
  for_each l (projector_step linalg_inv linalg_svd alphas) s
  = (Ok tt,
     set_Cs (fold_left (append_projector linalg_svd default_alpha)
                       (map (fun p => nth p (pattern_Rs s) []) l)
                       [c0; c1; c2; c3]) s).
Proof.
  induction l as [|p l IH]; intros s c0 c1 c2 c3 HCs Hn Hall.
  - simpl. unfold ret. rewrite <- HCs. destruct s; reflexivity.
  - inversion Hall as [|p' l' (Hp & HpR & Hok) Hall']; subst.
    cbn [for_each map fold_left]. unfold bind.
    rewrite (projector_step_run p s (nth p (pattern_Rs s) []) c0 c1 c2 c3)
      by (try assumption; apply nth_error_nth'; exact HpR).
    destruct Hok as (U & S_ & Vt & Hsvd & Hlen & Hpos).
    unfold append_projector at 1 3. rewrite Hsvd.
    rewrite (IH (set_Cs _ s) _ _ _ _ eq_refl); [reflexivity | exact Hn | exact Hall'].
Qed.

(** A call that nothing interrupts stores the bundle of the recorded
    correlation matrices, all of them at the default aperture. *)
Lemma compute_projectors_run s :
  Cs s <> [] ->
  num_pattern s = length (pattern_Rs s) ->
  (num_pattern s <= length alphas)%nat ->
  (0 < size_net s)%nat ->
  Forall (svd_ok linalg_svd (size_net s)) (pattern_Rs s) ->
  compute_projectors linalg_inv linalg_svd alphas s
  = (Ok tt, set_Cs (bundle_of linalg_svd default_alpha (pattern_Rs s)) s).
Proof.
  intros HCs Hnum Hal Hn Hall.
  unfold compute_projectors, bind at 1, self.
  destruct (Cs s) as [|c cs] eqn:E; [contradiction|].
  unfold bind at 1.
  change (reset_Cs s) with (Ok tt, set_Cs [[]; []; []; []] s).
  unfold bind at 1. cbn [num_pattern set_Cs].
  rewrite (projector_loop_run _ _ [] [] [] []); [| reflexivity | exact Hn |].
  - cbn [pattern_Rs set_Cs]. rewrite Hnum, map_nth_seq. reflexivity.
  - cbn [pattern_Rs size_net set_Cs]. apply Forall_forall. intros p Hp.
    apply in_seq in Hp. rewrite Forall_forall in Hall.
    repeat split; try lia. apply Hall, nth_In. lia.
Qed.

End ProjectorLoop.

(** ** One-neuron reservoirs *)

Lemma one_by_one M : shape 1 1 M -> M = np_diag [get M 0 0].
Proof.
  intros HM. apply (mat_ext 1 1); [exact HM | apply (shape_np_diag [get M 0 0]) |].
  intros i j Hi Hj. assert (i = 0%nat) by lia. assert (j = 0%nat) by lia. subst.
  reflexivity.
Qed.

Lemma psd_one_by_one M : psd 1 M -> 0 <= get M 0 0.
Proof.
  intros H. specialize (H [1] eq_refl). unfold quad_form in H. simpl in H. lra.
Qed.

Lemma diag_svd_one_by_one M :
  shape 1 1 M -> psd 1 M ->
  diag_svd M = Some (np_eye 1, [get M 0 0], np_eye 1).
Proof.
  intros HM Hpsd. rewrite (one_by_one M HM) at 1.
  apply (diag_svd_diag [get M 0 0]). simpl.
  pose proof (psd_one_by_one M Hpsd). repeat split; assumption.
Qed.

Lemma svd_ok_one_by_one M :
  shape 1 1 M -> psd 1 M -> svd_ok diag_svd 1 M.
Proof.
  intros HM Hpsd. exists (np_eye 1), [get M 0 0], (np_eye 1).
  split; [apply diag_svd_one_by_one; assumption|]. split; [reflexivity|].
  constructor; [apply psd_one_by_one, Hpsd | constructor].
Qed.

(** With the reference SVD a one-neuron reservoir can always be driven. *)
Lemma drive_one_neuron s pattern w :
  size_net s = 1%nat -> (0 < size_in s)%nat -> (w < ncols pattern)%nat ->
  let Rm := mdiv (dot (harvested_states s pattern w)
                      (T (harvested_states s pattern w)))
                 (INR (ncols pattern - w)) in
  let s' := snd (drive_reservoir diag_svd pattern w s) in
  drive_reservoir diag_svd pattern w s = (Ok tt, s')
  /\ shape 1 1 Rm /\ psd 1 Rm
  /\ pattern_Rs s' = pattern_Rs s ++ [Rm]
  /\ num_pattern s' = (num_pattern s + 1)%nat
  /\ size_net s' = 1%nat /\ size_in s' = size_in s /\ Cs s' = Cs s
  /\ W_star s' = W_star s /\ W_in s' = W_in s /\ W_bias s' = W_bias s.
Proof.
  intros Hn Hm Hw Rm s'.
  assert (HL : (0 < ncols pattern - w)%nat) by lia.
  assert (HX : shape 1 (ncols pattern - w) (harvested_states s pattern w))
    by (rewrite <- Hn; apply shape_harvested_states).
  assert (HsR : shape 1 1 Rm)
    by (apply (shape_correlation 1 (ncols pattern - w)); (assumption || lia)).
  assert (HpR : psd 1 Rm).
  { apply (correlation_psd 1 (ncols pattern - w)); try (assumption || lia).
    apply lt_0_INR. exact HL. }
  assert (Hrun := drive_reservoir_run diag_svd s pattern w (np_eye 1)
                    [get Rm 0 0] (np_eye 1)).
  rewrite Hn in Hrun at 1. specialize (Hrun ltac:(lia) Hm ltac:(lia)
                                         (diag_svd_one_by_one Rm HsR HpR)).
  subst s'. rewrite Hrun. cbn [snd pattern_Rs num_pattern size_net size_in Cs
                                 W_star W_in W_bias].
  split; [reflexivity|]. split; [exact HsR|]. split; [exact HpR|].
  repeat split; try reflexivity. exact Hn.
Qed.

Lemma tanh_pos x : 0 < x -> 0 < tanh x.
Proof.
  intros Hx. unfold tanh, sinh, cosh.
  pose proof (exp_pos x). pose proof (exp_pos (- x)).
  assert (exp (- x) < exp x) by (apply exp_increasing; lra).
  apply Rdiv_lt_0_compat; lra.
Qed.

(** *** The reservoir [reservoir_1_1] driven by [unit_pattern] *)

Lemma driven_once_facts :
  exists Rm,
    drive_reservoir diag_svd unit_pattern 0 reservoir_1_1 = (Ok tt, driven_once)
    /\ pattern_Rs driven_once = [Rm]
    /\ shape 1 1 Rm /\ psd 1 Rm /\ 0 < get Rm 0 0
    /\ num_pattern driven_once = 1%nat
    /\ size_net driven_once = 1%nat
    /\ size_in driven_once = 1%nat
    /\ Cs driven_once = [[]; []; []; []].
Proof.
  destruct (drive_one_neuron reservoir_1_1 unit_pattern 0)
    as (Hrun & HsR & HpR & HRs & Hnum & Hn & Hm & HCs & _);
    [reflexivity | cbv; lia | cbv; lia |].
  eexists. split; [exact Hrun|]. split; [exact HRs|].
  split; [exact HsR|]. split; [exact HpR|].
  split; [| repeat split; assumption].
  rewrite (get_correlation 1 1)
    by (try apply (shape_harvested_states reservoir_1_1 unit_pattern 0); lia).
  cbn [sum_n]. unfold harvested_states. rewrite get_mk_mat by (simpl; lia).
  change (get (state_at reservoir_1_1 unit_pattern (0 + 0 + 1)) 0 0)
    with (tanh (0 + 3 / 2 * 0 + (0 + 1 * 1) + 0)).
  replace (0 + 3 / 2 * 0 + (0 + 1 * 1) + 0) with 1 by lra.
  pose proof (tanh_pos 1 Rlt_0_1) as Ht.
  replace (INR (ncols unit_pattern - 0)) with 1 by (simpl; reflexivity).
  assert (0 < tanh 1 * tanh 1) by (apply Rmult_lt_0_compat; assumption).
  lra.
Qed.

(** C2. [clean_storage] empties the trained weights, the pattern records,
    the aggregated training matrices and the bundle, but it does not
    assign [num_pattern]: the counter keeps the value it had.  On the
    reservoir [reservoir_1_1] driven once by [unit_pattern] the counter is 1
    before the call and still 1 after it, while the aggregated matrices are
    empty. *)
Theorem clean_storage_keeps_num_pattern :
  (forall s,
     fst (clean_storage s) = Ok tt
     /\ num_pattern (snd (clean_storage s)) = num_pattern s
     /\ all_train_args (snd (clean_storage s)) = []
     /\ all_train_old_args (snd (clean_storage s)) = []
     /\ all_train_outs (snd (clean_storage s)) = [])
  /\ drive_reservoir diag_svd unit_pattern 0 reservoir_1_1
     = (Ok tt, driven_once)
  /\ num_pattern driven_once = 1%nat
  /\ num_pattern (snd (clean_storage driven_once)) = 1%nat
  /\ num_pattern (snd (clean_storage driven_once)) <> 0%nat.
Proof.
  destruct driven_once_facts as (Rm & Hrun & _ & _ & _ & _ & Hnum & _).
  split.
  - intros s. destruct (clean_storage_effect s) as (H1 & H2 & _ & H4 & H5 & H6).
    repeat split; assumption.
  - destruct (clean_storage_effect driven_once) as (_ & H2 & _).
    rewrite H2, Hnum. repeat split; [exact Hrun | discriminate].
Qed.

Lemma conj_diag_eye n d :
  length d = n -> (0 < n)%nat -> conj_diag (np_eye n) d = np_diag d.
Proof.
  intros Hd Hn. unfold conj_diag. rewrite T_np_eye by exact Hn.
  rewrite (dot_eye_l n n), (dot_eye_r n n)
    by (try apply shape_np_diag_n; assumption).
  reflexivity.
Qed.

(** C1. On the one-neuron reservoir [reservoir_1_1] driven once by
    [unit_pattern], [compute_projectors([1])] stores the conceptor of the
    recorded correlation matrix at the default aperture 10, which is not
    its conceptor at the aperture [alphas[0] = 1]. *)
Theorem compute_projectors_default_aperture :
  exists Rm U S_ Vt s2,
    pattern_Rs driven_once = [Rm]
    /\ num_pattern driven_once = 1%nat
    /\ diag_svd Rm = Some (U, S_, Vt)
    /\ compute_projectors diag_inv diag_svd [1] driven_once = (Ok tt, s2)
    /\ nth_error (Cs s2) 0
       = Some [Arr2 (conj_diag U (shrink (powerRZ 10 (-2)) S_))]
    /\ conj_diag U (shrink (powerRZ 10 (-2)) S_)
       <> conj_diag U (shrink (powerRZ 1 (-2)) S_).
Proof.
  destruct driven_once_facts
    as (Rm & _ & HRs & HsR & HpR & Hpos & Hnum & Hn & _ & HCs).
  exists Rm, (np_eye 1), [get Rm 0 0], (np_eye 1).
  eexists. split; [exact HRs|]. split; [exact Hnum|].
  split; [apply diag_svd_one_by_one; assumption|].
  split.
  - apply (compute_projectors_run diag_inv diag_svd diag_inv_sound
             diag_inv_total_on_diag).
    + rewrite HCs. discriminate.
    + rewrite Hnum, HRs. reflexivity.
    + rewrite Hnum. simpl. lia.
    + rewrite Hn. lia.
    + rewrite HRs, Hn. constructor; [|constructor].
      apply svd_ok_one_by_one; assumption.
  - split.
    + cbn [Cs set_Cs]. rewrite HRs. unfold bundle_of. cbn [fold_left].
      unfold append_projector.
      rewrite (diag_svd_one_by_one Rm HsR HpR). reflexivity.
    + rewrite !(conj_diag_eye 1) by (reflexivity || lia).
      assert (P10 : powerRZ 10 (-2) = / 100) by (simpl; field).
      assert (P1 : powerRZ 1 (-2) = 1) by (simpl; field).
      rewrite P10, P1.
      intros H. apply (f_equal (fun M => get M 0 0)) in H.
      cbn in H. set (r := get Rm 0 0) in *.
      assert (E1 : r / (r + / 100) * ((r + / 100) * (r + 1))
                   = r * (r + 1)) by (field; lra).
      assert (E2 : r / (r + 1) * ((r + / 100) * (r + 1))
                   = r * (r + / 100)) by (field; lra).
      rewrite H, E2 in E1. nra.
Qed.

(** ** A call of [compute_projectors] that is interrupted *)

Section Interrupted.

Variable linalg_inv : matrix -> option matrix.
Variable linalg_svd : matrix -> option (matrix * vector * matrix).
Variable alphas : vector.









End Interrupted.

Lemma map_nth_seq_firstn {A : Type} (l : list A) (d : A) k :
  (k <= length l)%nat ->
  map (fun p => nth p l d) (seq 0 k) = firstn k l.
Proof.
  intros Hk. apply nth_ext with (d := d) (d' := d).
  - rewrite length_map, length_seq, length_firstn. lia.
  - intros i Hi. rewrite length_map, length_seq in Hi.
    rewrite (nth_map_seq (fun p => nth p l d)) by exact Hi.
    rewrite nth_firstn. destruct (Nat.ltb_spec i k); [reflexivity | lia].
Qed.

Section TooFewApertures.

Variable linalg_inv : matrix -> option matrix.
Variable linalg_svd : matrix -> option (matrix * vector * matrix).
Hypothesis inv_ok : inv_sound linalg_inv.
Hypothesis inv_diag : inv_total_on_diag linalg_inv.

Lemma projector_step_index_error alphas p s :
  (p < length (pattern_Rs s))%nat -> (length alphas <= p)%nat ->
  projector_step linalg_inv linalg_svd alphas p s = (Raised IndexError, s).
Proof.
  intros HR Ha. unfold projector_step, bind, self, index, call.
  destruct (nth_error (pattern_Rs s) p) as [R_|] eqn:E;
    [| apply nth_error_None in E; lia].
  apply nth_error_None in Ha. rewrite Ha. reflexivity.
Qed.

(** With fewer apertures than patterns the call raises [IndexError] at the
    first pattern without one, after it has stored the projectors of the
    patterns before it. *)
Lemma compute_projectors_short alphas s :
  Cs s <> [] ->
  num_pattern s = length (pattern_Rs s) ->
  (length alphas < num_pattern s)%nat ->
  (0 < size_net s)%nat ->
  Forall (svd_ok linalg_svd (size_net s))
         (firstn (length alphas) (pattern_Rs s)) ->
  compute_projectors linalg_inv linalg_svd alphas s
  = (Raised IndexError,
     set_Cs (bundle_of linalg_svd default_alpha
                       (firstn (length alphas) (pattern_Rs s))) s).
Proof.
  intros HCs Hnum Hal Hn Hall.
  set (k := length alphas) in *.
  unfold compute_projectors, bind at 1, self. cbv beta iota.
  destruct (Cs s) as [|c cs] eqn:E; [contradiction|].
  unfold bind at 1.
  change (reset_Cs s) with (Ok tt, set_Cs [[]; []; []; []] s).
  cbv beta iota. unfold bind at 1. cbn [num_pattern set_Cs].
  replace (num_pattern s) with (k + S (num_pattern s - k - 1))%nat by lia.
  rewrite seq_app, for_each_app.
  rewrite (projector_loop_run linalg_inv linalg_svd inv_ok inv_diag alphas
             _ _ [] [] [] []); [| reflexivity | exact Hn |].
  - cbn [pattern_Rs set_Cs seq for_each]. unfold bind.
    rewrite projector_step_index_error
      by (cbn [pattern_Rs set_Cs]; unfold k; lia).
    rewrite map_nth_seq_firstn by lia. reflexivity.
  - cbn [pattern_Rs size_net set_Cs]. apply Forall_forall. intros p Hp.
    apply in_seq in Hp. rewrite Forall_forall in Hall.
    repeat split; try lia.
    replace (nth p (pattern_Rs s) []) with (nth p (firstn k (pattern_Rs s)) [])
      by (rewrite nth_firstn; destruct (Nat.ltb_spec p k); [reflexivity | lia]).
    apply Hall, nth_In. rewrite length_firstn. lia.
Qed.

End TooFewApertures.

(** *** The reservoir [reservoir_1_1] driven twice *)








(** The values in [alphas] never reach [compute_projector]: two aperture
    lists of one length give the same outcome and the same instance. *)
Lemma projector_step_apertures linalg_inv linalg_svd alphas alphas' p s :
  length alphas = length alphas' ->
  projector_step linalg_inv linalg_svd alphas p s
  = projector_step linalg_inv linalg_svd alphas' p s.
Proof.
  intros Hlen. unfold projector_step, bind, self, index, call.
  destruct (nth_error (pattern_Rs s) p) as [R_|]; [|reflexivity].
  unfold ret at 1 3.
  destruct (nth_error alphas p) as [a|] eqn:Ha,
           (nth_error alphas' p) as [a'|] eqn:Ha'; try reflexivity.
  - apply nth_error_None in Ha'.
    assert (nth_error alphas p <> None) by congruence.
    apply nth_error_Some in H. lia.
  - apply nth_error_None in Ha.
    assert (nth_error alphas' p <> None) by congruence.
    apply nth_error_Some in H. lia.
Qed.

Lemma compute_projectors_apertures linalg_inv linalg_svd alphas alphas' s :
  length alphas = length alphas' ->
  compute_projectors linalg_inv linalg_svd alphas s
  = compute_projectors linalg_inv linalg_svd alphas' s.
Proof.
  intros Hlen. unfold compute_projectors, bind at 1 4, self. cbv beta iota.
  unfold bind at 1 3.
  destruct (match Cs s with [] => ret tt | _ :: _ => reset_Cs end s)
    as [[[]|e] s1]; [|reflexivity].
  unfold bind. cbv beta iota.
  generalize (seq 0 (num_pattern s1)). intros l. revert s1.
  induction l as [|p l IH]; intros s1; [reflexivity|].
  cbn [for_each]. unfold bind.
  rewrite (projector_step_apertures _ _ alphas alphas') by exact Hlen.
  destruct (projector_step linalg_inv linalg_svd alphas' p s1) as [[[]|e] s2];
    [apply IH | reflexivity].
Qed.

(** ** [recognition_predict] *)

(** [np.argmax]: the index found is in range and no entry is above the one
    it points at. *)
Lemma argmax_from_spec l : forall bi b i,
  (bi < i)%nat ->
  (argmax_from bi b i l = bi /\ Forall (fun x => x <= b) l)
  \/ ((i <= argmax_from bi b i l < i + length l)%nat
      /\ b <= nth (argmax_from bi b i l - i) l 0
      /\ Forall (fun x => x <= nth (argmax_from bi b i l - i) l 0) l).
Proof.
  induction l as [|x t IH]; intros bi b i Hbi.
  - left. split; [reflexivity | constructor].
  - cbn [argmax_from]. destruct (Rlt_dec b x) as [Hlt|Hge].
    + right. destruct (IH i x (S i) (Nat.lt_succ_diag_r i)) as [[Hr Hall]|(Hr & Hb & Hall)].
      * rewrite Hr, Nat.sub_diag. cbn [nth length].
        split; [lia|]. split; [lra|]. constructor; [lra | exact Hall].
      * set (r := argmax_from i x (S i) t) in *.
        replace (r - i)%nat with (S (r - S i)) by lia. cbn [nth length].
        split; [lia|]. split; [lra|].
        constructor; [lra | exact Hall].
    + destruct (IH bi b (S i) ltac:(lia)) as [[Hr Hall]|(Hr & Hb & Hall)].
      * left. split; [exact Hr|]. constructor; [lra | exact Hall].
      * right. set (r := argmax_from bi b (S i) t) in *.
        replace (r - i)%nat with (S (r - S i)) by lia. cbn [nth length].
        split; [lia|]. split; [lra|].
        constructor; [lra | exact Hall].
Qed.

Lemma length_vadd u : forall v,
  length u = length v -> length (vadd u v) = length u.
Proof.
  induction u as [|a u IH]; intros [|b v] H; simpl in *; try lia.
  rewrite IH by lia. reflexivity.
Qed.

Lemma nth_vadd u : forall v j,
  (j < length u)%nat -> length u = length v ->
  nth j (vadd u v) 0 = nth j u 0 + nth j v 0.
Proof.
  induction u as [|a u IH]; intros [|b v] j Hj H; simpl in *; try lia.
  destruct j; [reflexivity | apply IH; lia].
Qed.

(** Python's [sum] over the rows of an array with at least one row: the
    array of the column sums. *)
Lemma py_sum_mk_mat m c f :
  py_sum (mk_mat (S m) c f)
  = PyArr1 (map (fun j => sum_n (S m) (fun i => f i j)) (seq 0 c)).
Proof.
  unfold py_sum. induction m as [|m IH].
  - cbn [mk_mat seq map fold_left py_add sum_n]. f_equal.
    rewrite map_map. reflexivity.
  - unfold mk_mat, vector in *. rewrite seq_S, map_app, fold_left_app, IH.
    cbn [map fold_left py_add Nat.add]. f_equal.
    apply nth_ext with (d := 0) (d' := 0).
    + rewrite length_vadd; rewrite !length_map; reflexivity.
    + intros j Hj.
      rewrite length_vadd, length_map, length_seq in Hj
        by (rewrite !length_map; reflexivity).
      rewrite nth_vadd by (rewrite !length_map, ?length_seq; (exact Hj || reflexivity)).
      rewrite !(nth_map_seq _ c j 0 Hj). reflexivity.
Qed.

Lemma py_sum_evidence m c testdata C :
  shape (S m) c testdata ->
  py_sum (mmul testdata (dot C testdata))
  = PyArr1 (map (column_evidence testdata C) (seq 0 c)).
Proof.
  intros Htd. rewrite (mmul_mk (S m) c) by exact Htd.
  rewrite py_sum_mk_mat. unfold column_evidence.
  rewrite (shape_nrows _ _ _ Htd). reflexivity.
Qed.

Lemma nth_column_tail (t : matrix) j q :
  nth q (map (fun r => nth j r 0) t) 0 = nth j (nth q t []) 0.
Proof.
  destruct (Nat.ltb_spec q (length t)) as [H|H].
  - rewrite nth_indep with (d' := (fun r => nth j r 0) [])
      by (rewrite length_map; exact H).
    apply (map_nth (fun r => nth j r 0)).
  - rewrite (nth_overflow (map _ t)) by (rewrite length_map; exact H).
    rewrite (nth_overflow t) by exact H. destruct j; reflexivity.
Qed.

(** [np.argmax(E, axis = 0)]: one row index for each column, that of an
    entry no other entry of the column exceeds. *)
Lemma argmax_axis0_spec E am :
  argmax_axis0 E = Some am ->
  length am = ncols E
  /\ forall j, (j < ncols E)%nat ->
       (nth j am 0 < nrows E)%nat
       /\ forall q, (q < nrows E)%nat ->
            get E q j <= get E (nth j am 0%nat) j.
Proof.
  destruct E as [|e0 t]; [discriminate|]. intros H. inversion H; subst; clear H.
  split; [rewrite length_map, length_seq; reflexivity|].
  intros j Hj.
  rewrite (nth_map_seq
             (fun j => argmax_from 0 (get (e0 :: t) 0 j) 1
                                   (map (fun r => nth j r 0) (tl (e0 :: t))))
             _ _ _ Hj).
  cbn [tl]. set (col := map (fun r => nth j r 0) t).
  assert (Hcol : length col = length t) by apply length_map.
  assert (Hget : forall q, get (e0 :: t) (S q) j = nth q col 0).
  { intros q. unfold get, col. cbn [nth]. symmetry. apply nth_column_tail. }
  destruct (argmax_from_spec col 0 (get (e0 :: t) 0 j) 1 Nat.lt_0_1)
    as [[Hr Hall]|(Hr & Hb & Hall)];
    set (r := argmax_from 0 (get (e0 :: t) 0 j) 1 col) in *.
  - rewrite Hr. unfold nrows. cbn [length]. split; [lia|].
    intros [|q] Hq; [lra|].
    rewrite Hget. rewrite Forall_forall in Hall. apply Hall, nth_In. lia.
  - unfold nrows. cbn [length]. split; [lia|].
    replace r with (S (r - 1)) by lia. rewrite Hget.
    intros [|q] Hq; [exact Hb|].
    rewrite Hget. rewrite Forall_forall in Hall. apply Hall, nth_In. lia.
Qed.

Lemma get_evidence_rows testdata C_list q j :
  (q < length C_list)%nat -> (j < ncols testdata)%nat ->
  get (evidence_rows testdata C_list) q j
  = column_evidence testdata (nth q C_list []) j.
Proof.
  intros Hq Hj. unfold get, evidence_rows.
  rewrite nth_indep
    with (d' := (fun C => map (column_evidence testdata C)
                              (seq 0 (ncols testdata))) [])
    by (rewrite length_map; exact Hq).
  rewrite (map_nth (fun C => map (column_evidence testdata C)
                                 (seq 0 (ncols testdata)))).
  apply nth_map_seq. exact Hj.
Qed.

Lemma row_stack_evidence m c testdata C_list :
  shape (S m) c testdata -> C_list <> [] ->
  row_stack (map (fun C => py_sum (mmul testdata (dot C testdata))) C_list)
  = Some (evidence_rows testdata C_list).
Proof.
  intros Htd Hne.
  rewrite (map_ext _ (fun C => PyArr1 (map (column_evidence testdata C) (seq 0 c))))
    by (intros C; apply (py_sum_evidence m c); exact Htd).
  unfold row_stack, evidence_rows.
  rewrite (shape_ncols (S m) c testdata Htd) by lia.
  rewrite map_map. cbn [atleast_2d].
  destruct C_list as [|C0 t]; [contradiction|]. cbn [map].
  replace (forallb _ _) with true.
  - f_equal. cbn [concat app]. f_equal.
    induction t as [|C1 t IH]; [reflexivity|]. cbn [map concat app].
    f_equal. apply IH. discriminate.
  - symmetry. apply forallb_forall. intros x Hx. apply in_map_iff in Hx.
    destruct Hx as [C1 [<- _]]. unfold ncols. cbn [hd].
    rewrite !length_map. apply Nat.eqb_refl.
Qed.

(** What [recognition_predict] returns on test data with at least one
    row. *)
Lemma recognition_predict_evidence s testdata C_list m c :
  shape (S m) c testdata -> C_list <> [] ->
  exists am,
    argmax_axis0 (evidence_rows testdata C_list) = Some am
    /\ recognition_predict testdata C_list s
       = (Ok (am, evidence_rows testdata C_list), s).
Proof.
  intros Htd Hne. unfold recognition_predict, bind, call.
  rewrite (row_stack_evidence m c) by assumption. unfold ret at 1.
  destruct (argmax_axis0 (evidence_rows testdata C_list)) as [am|] eqn:Ham.
  - exists am. split; reflexivity.
  - exfalso. destruct C_list as [|C0 t]; [contradiction|]. discriminate.
Qed.

(** C3, amended. For a test-data matrix with at least one row and a
    non-empty conceptor list, [recognition_predict] computes for each
    conceptor one evidence value for each column of [testdata], the sum of
    that column of [testdata * C.dot(testdata)]; it returns the array of
    these rows and, for every column, the index of a conceptor whose
    evidence in that column no other conceptor exceeds. *)
Theorem recognition_predict_per_column :
  forall s testdata C_list m c,
    shape m c testdata -> (0 < m)%nat -> C_list <> [] ->
    exists am,
      recognition_predict testdata C_list s
      = (Ok (am, evidence_rows testdata C_list), s)
      /\ length am = c
      /\ forall j, (j < c)%nat ->
           (nth j am 0 < length C_list)%nat
           /\ forall q, (q < length C_list)%nat ->
                column_evidence testdata (nth q C_list []) j
                <= column_evidence testdata (nth (nth j am 0%nat) C_list []) j.
Proof.
  intros s testdata C_list m c Htd Hm Hne.
  destruct m as [|m]; [lia|].
  assert (Hc : ncols testdata = c) by (apply (shape_ncols (S m)); (assumption || lia)).
  assert (Hrows : nrows (evidence_rows testdata C_list) = length C_list)
    by (unfold nrows, evidence_rows; apply length_map).
  assert (Hcols : ncols (evidence_rows testdata C_list) = c).
  { destruct C_list as [|C0 t]; [contradiction|].
    unfold ncols, evidence_rows. cbn [map hd].
    rewrite length_map, length_seq. exact Hc. }
  destruct (recognition_predict_evidence s testdata C_list m c Htd Hne)
    as (am & Ham & Hrun).
  exists am. split; [exact Hrun|].
  destruct (argmax_axis0_spec _ _ Ham) as [Hlen Hmax].
  rewrite Hcols in Hlen, Hmax. rewrite Hrows in Hmax.
  split; [exact Hlen|]. intros j Hj.
  destruct (Hmax j Hj) as [Hidx Hle]. split; [exact Hidx|].
  intros q Hq. specialize (Hle q Hq).
  rewrite !get_evidence_rows in Hle by (rewrite ?Hc; assumption).
  exact Hle.
Qed.

(** C3, refuted as stated. With the two columns [1] and [2] of test data
    and the conceptor [[[1]]] the evidence returned is the row [[1, 4]], one
    value for each column, not the single pooled sum [5]. *)
Lemma recognition_predict_not_pooled :
  exists am e0 e1,
    recognition_predict [[1; 2]] [[[1]]] reservoir_1_1
    = (Ok (am, [[e0; e1]]), reservoir_1_1)
    /\ e0 = 1 /\ e1 = 4
    /\ pooled_evidence [[1; 2]] [[1]] = 5
    /\ [[e0; e1]] <> [[pooled_evidence [[1; 2]] [[1]]]].
Proof.
  destruct (recognition_predict_evidence reservoir_1_1 [[1; 2]] [[[1]]] 0 2)
    as (am & _ & Hrun).
  - split; [reflexivity | repeat constructor].
  - discriminate.
  - exists am, (column_evidence [[1; 2]] [[1]] 0), (column_evidence [[1; 2]] [[1]] 1).
    split; [exact Hrun|].
    split; [cbn; lra|]. split; [cbn; lra|]. split; [cbn; lra|].
    intros H. inversion H.
Qed.

(** The amended statement on the test data of the refutation. *)
Lemma recognition_predict_per_column_example :
  exists am,
    recognition_predict [[1; 2]] [[[1]]] reservoir_1_1
    = (Ok (am, evidence_rows [[1; 2]] [[[1]]]), reservoir_1_1)
    /\ length am = 2%nat.
Proof.
  destruct (recognition_predict_per_column reservoir_1_1 [[1; 2]] [[[1]]] 1 2)
    as (am & Hrun & Hlen & _).
  - split; [reflexivity | repeat constructor].
  - lia.
  - discriminate.
  - exists am. split; assumption.
Defined.

(** ** Side-by-side blocks *)

Lemma shape_hstack n a b A B :
  shape n a A -> shape n b B -> shape n (a + b) (hstack A B).
Proof.
  intros [HlA HfA] [HlB HfB]. unfold hstack. split.
  - rewrite length_map, length_combine. lia.
  - apply Forall_forall. intros r Hr. apply in_map_iff in Hr.
    destruct Hr as [[ra rb] [<- Hin]]. cbn [fst snd]. rewrite length_app.
    rewrite Forall_forall in HfA, HfB.
    rewrite (HfA ra), (HfB rb); [reflexivity | |].
    + apply in_combine_r in Hin. exact Hin.
    + apply in_combine_l in Hin. exact Hin.
Qed.

#[export] Hint Resolve shape_hstack : shape.



Lemma ncols_dot_l M X : (0 < nrows M)%nat -> ncols (dot M X) = ncols X.
Proof. intros H. unfold dot. apply ncols_mk_mat. exact H. Qed.






Lemma aggregate_nil X : aggregate [] X = X.
Proof. reflexivity. Qed.

Lemma aggregate_shaped n L A X :
  shape n L A -> (0 < n)%nat -> (0 < L)%nat -> aggregate A X = hstack A X.
Proof.
  intros HA Hn HL. unfold aggregate, msize.
  rewrite (shape_nrows n L A HA), (shape_ncols n L A HA Hn).
  destruct (Nat.eqb_spec (n * L) 0) as [E|_]; [|reflexivity].
  apply Nat.eq_mul_0 in E. lia.
Qed.

Section Blocks.

Variables n m L1 L2 : nat.
Variables X1 X2 Y1 Y2 : matrix.
Hypothesis n_pos : (0 < n)%nat.
Hypothesis m_pos : (0 < m)%nat.
Hypothesis L1_pos : (0 < L1)%nat.
Hypothesis L2_pos : (0 < L2)%nat.
Hypothesis HX1 : shape n L1 X1.
Hypothesis HX2 : shape n L2 X2.
Hypothesis HY1 : shape m L1 Y1.
Hypothesis HY2 : shape m L2 Y2.


End Blocks.


(** ** The regression targets of [compute_W] *)

Lemma nth_concat_repeat_singleton (r : list R) k : forall l,
  length r = 1%nat -> (l < k)%nat ->
  nth l (concat (repeat r k)) 0 = nth 0 r 0.
Proof.
  destruct r as [|b [|c r]]; try discriminate. intros l _.
  revert l. induction k as [|k IH]; intros l Hl; [lia|].
  cbn [repeat concat app]. destruct l as [|l]; [reflexivity|].
  cbn [nth]. rewrite IH by lia. reflexivity.
Qed.

Lemma get_repmat_cols n Wb k i l :
  shape n 1 Wb -> (i < n)%nat -> (l < k)%nat ->
  get (repmat_cols Wb k) i l = get Wb i 0.
Proof.
  intros HW Hi Hl. unfold get, repmat_cols.
  rewrite nth_indep with (d' := (fun r : list R => concat (repeat r k)) [])
    by (rewrite length_map; destruct HW; lia).
  rewrite (map_nth (fun r : list R => concat (repeat r k))).
  apply nth_concat_repeat_singleton; [|exact Hl].
  apply (shape_row n 1 Wb); assumption.
Qed.

Section Targets.

Variable np_arctanh : R -> R.
Variable Wb : matrix.
Variable n : nat.
Hypothesis n_pos : (0 < n)%nat.
Hypothesis HWb : shape n 1 Wb.

Lemma shape_W_targets a A :
  shape n a A -> shape n a (W_targets_of np_arctanh Wb A).
Proof.
  intros HA. unfold W_targets_of. apply shape_msub, shape_map_map. exact HA.
Qed.

Lemma get_W_targets a A i l :
  shape n a A -> (i < n)%nat -> (l < a)%nat ->
  get (W_targets_of np_arctanh Wb A) i l
  = np_arctanh (get A i l) - get Wb i 0.
Proof.
  intros HA Hi Hl. unfold W_targets_of.
  rewrite (get_msub n a) by (try apply shape_map_map; assumption).
  rewrite (get_map_map n a) by assumption.
  rewrite (get_repmat_cols n) by (try rewrite (shape_ncols n a A HA n_pos); assumption).
  reflexivity.
Qed.



End Targets.

(** ** Driving two patterns *)

Lemma same_weights_refl s : same_weights s s.
Proof. repeat split. Qed.

Lemma state_at_weights s s' pattern k :
  same_weights s s' -> state_at s' pattern k = state_at s pattern k.
Proof.
  intros (_ & Hn & Hs & Hi & Hb & _).
  induction k as [|k IH]; cbn [state_at].
  - rewrite Hn. reflexivity.
  - rewrite IH. unfold next_state. rewrite Hs, Hi, Hb. reflexivity.
Qed.

Lemma harvested_weights s s' pattern w :
  same_weights s s' ->
  harvested_states s' pattern w = harvested_states s pattern w
  /\ harvested_old_states s' pattern w = harvested_old_states s pattern w
  /\ harvested_inputs s' pattern w = harvested_inputs s pattern w.
Proof.
  intros H. pose proof H as (Hm & Hn & _).
  unfold harvested_states, harvested_old_states, harvested_inputs.
  rewrite Hm, Hn. repeat split; try reflexivity;
    apply mk_mat_ext; intros i c _ _; rewrite (state_at_weights s s') by exact H;
    reflexivity.
Qed.

Section TwoPatterns.

Variable linalg_svd : matrix -> option (matrix * vector * matrix).
Variable s : Reservoir.
Variable w : nat.
Hypothesis size_net_pos : (0 < size_net s)%nat.
Hypothesis size_in_pos : (0 < size_in s)%nat.

(** A drive that the SVD interrupts has only extended [x_collectors]. *)
Lemma drive_reservoir_interrupted t p :
  same_weights s t -> (w <= ncols p)%nat ->
  linalg_svd (correlation_of s w p) = None ->
  drive_reservoir linalg_svd p w t
  = (Raised LinAlgError,
     set_x_collectors (x_collectors t ++ [harvested_states s p w]) t).
Proof.
  intros Hsw Hw Hsvd.
  pose proof Hsw as (Hm & Hn & _).
  destruct (harvested_weights s t p w Hsw) as (EX & _ & _).
  destruct (drive_loop_result t p w) as (Hc & _ & _);
    [rewrite Hn; exact size_net_pos | rewrite Hm; exact size_in_pos | exact Hw |].
  unfold drive_reservoir, bind at 1, self. cbv beta iota.
  destruct (Nat.ltb_spec (ncols p) w) as [Hlt|_]; [lia|].
  cbv zeta. rewrite Hc, EX.
  unfold bind, assign, call. cbv beta iota.
  unfold correlation_of in Hsvd. rewrite Hsvd. reflexivity.
Qed.


End TwoPatterns.

(** ** [train] *)




Section Train.

Variable linalg_inv : matrix -> option matrix.
Variable linalg_svd : matrix -> option (matrix * vector * matrix).
Variable np_arctanh : R -> R.


End Train.

Section TrainTwo.

Variable linalg_inv : matrix -> option matrix.
Variable linalg_svd : matrix -> option (matrix * vector * matrix).
Variable np_arctanh : R -> R.
Variable s : Reservoir.
Variable w : nat.
Hypothesis size_net_pos : (0 < size_net s)%nat.
Hypothesis size_in_pos : (0 < size_in s)%nat.



End TrainTwo.



(** ** The algebra of [U . diag(d) . U^T] for an orthogonal [U] *)

Section Orthogonal.

Variable n : nat.
Variable U : matrix.
Hypothesis n_pos : (0 < n)%nat.
Hypothesis HU : shape n n U.
Hypothesis UtU : dot (T U) U = np_eye n.
Hypothesis UUt : dot U (T U) = np_eye n.

Lemma get_conj_diag d i j :
  length d = n -> (i < n)%nat -> (j < n)%nat ->
  get (conj_diag U d) i j
  = sum_n n (fun k => get U i k * nth k d 0 * get U j k).
Proof.
  intros Hd Hi Hj. unfold conj_diag.
  assert (HD : shape n n (np_diag d)) by (apply shape_np_diag_n; exact Hd).
  rewrite (get_dot n n n)
    by (try apply (shape_dot n n n); try apply shape_T; assumption).
  apply sum_n_ext. intros k Hk.
  rewrite (get_T n n) by assumption. f_equal.
  rewrite (get_dot n n n) by assumption.
  rewrite (sum_n_ext n _ (fun l => if Nat.eqb l k then get U i l * nth l d 0 else 0)).
  - apply (sum_n_delta n k (fun l => get U i l * nth l d 0)). exact Hk.
  - intros l Hl. rewrite get_np_diag by (rewrite Hd; assumption).
    destruct (Nat.eqb l k); ring.
Qed.

Lemma conj_diag_mul a b :
  length a = n -> length b = n ->
  dot (conj_diag U a) (conj_diag U b)
  = conj_diag U (map (fun i => nth i a 0 * nth i b 0) (seq 0 n)).
Proof.
  intros Ha Hb. unfold conj_diag.
  assert (HA : shape n n (np_diag a)) by (apply shape_np_diag_n; exact Ha).
  assert (HB : shape n n (np_diag b)) by (apply shape_np_diag_n; exact Hb).
  assert (HT : shape n n (T U)) by (apply shape_T; assumption).
  assert (HUA : shape n n (dot U (np_diag a))) by (apply (shape_dot n n n); assumption).
  assert (HUB : shape n n (dot U (np_diag b))) by (apply (shape_dot n n n); assumption).
  rewrite (dot_assoc n n n n (dot U (np_diag a)) (T U))
    by (try apply (shape_dot n n n); assumption).
  rewrite <- (dot_assoc n n n n (T U) (dot U (np_diag b)) (T U)) by assumption.
  rewrite <- (dot_assoc n n n n (T U) U (np_diag b)) by assumption.
  rewrite UtU, (dot_eye_l n n) by assumption.
  rewrite <- (dot_assoc n n n n (dot U (np_diag a)) (np_diag b) (T U)) by assumption.
  rewrite (dot_assoc n n n n U (np_diag a) (np_diag b)) by assumption.
  rewrite dot_np_diag by (rewrite ?Ha, ?Hb; (reflexivity || exact n_pos)).
  rewrite Ha. reflexivity.
Qed.

Lemma conj_diag_ones : conj_diag U (repeat 1 n) = np_eye n.
Proof.
  unfold conj_diag. rewrite np_diag_ones, (dot_eye_r n n) by assumption.
  exact UUt.
Qed.

Lemma conj_diag_plus_eye d :
  length d = n ->
  madd (conj_diag U d) (np_eye n) = conj_diag U (map (fun x => x + 1) d).
Proof.
  intros Hd.
  assert (Hd' : length (map (fun x => x + 1) d) = n) by (rewrite length_map; exact Hd).
  apply (mat_ext n n).
  - apply shape_madd, shape_conj_diag; assumption.
  - apply shape_conj_diag; assumption.
  - intros i j Hi Hj.
    rewrite (get_madd n n) by (try apply shape_conj_diag; assumption).
    rewrite !get_conj_diag by assumption.
    rewrite <- conj_diag_ones at 1.
    rewrite get_conj_diag by (try apply repeat_length; assumption).
    rewrite <- sum_n_plus. apply sum_n_ext. intros k Hk.
    rewrite nth_repeat_lt by exact Hk.
    rewrite (nth_map_R (fun x => x + 1)) by (rewrite Hd; exact Hk). ring.
Qed.

(** [(R + I)^(-1)] and [R.(R + I)^(-1)] for [R = U.diag(S).U^T] with
    non-negative [S]. *)
Lemma conj_diag_plus_eye_inverse S_ :
  length S_ = n -> Forall (fun x => 0 <= x) S_ ->
  dot (conj_diag U (map (fun x => / (x + 1)) S_))
      (madd (conj_diag U S_) (np_eye n)) = np_eye n
  /\ dot (madd (conj_diag U S_) (np_eye n))
         (conj_diag U (map (fun x => / (x + 1)) S_)) = np_eye n.
Proof.
  intros HS Hpos. rewrite conj_diag_plus_eye by exact HS.
  assert (Hones : forall f g : R -> R,
             (forall x, 0 <= x -> f x * g x = 1) ->
             map (fun i => nth i (map f S_) 0 * nth i (map g S_) 0) (seq 0 n)
             = repeat 1 n).
  { intros f g Hfg. apply nth_ext with (d := 0) (d' := 0).
    - rewrite length_map, length_seq, repeat_length. reflexivity.
    - intros i Hi. rewrite length_map, length_seq in Hi.
      rewrite (nth_map_seq (fun i => nth i (map f S_) 0 * nth i (map g S_) 0))
        by exact Hi.
      rewrite nth_repeat_lt by exact Hi.
      rewrite !nth_map_R by (rewrite HS; exact Hi).
      apply Hfg. rewrite Forall_forall in Hpos. apply Hpos, nth_In.
      rewrite HS. exact Hi. }
  split; rewrite conj_diag_mul by (rewrite length_map; exact HS).
  - rewrite (Hones (fun x => / (x + 1)) (fun x => x + 1))
      by (intros x Hx; apply Rinv_l; lra).
    apply conj_diag_ones.
  - rewrite (Hones (fun x => x + 1) (fun x => / (x + 1)))
      by (intros x Hx; apply Rinv_r; lra).
    apply conj_diag_ones.
Qed.

Lemma conj_diag_proto_conceptor S_ :
  length S_ = n ->
  dot (conj_diag U S_) (conj_diag U (map (fun x => / (x + 1)) S_))
  = conj_diag U (shrink 1 S_).
Proof.
  intros HS. rewrite conj_diag_mul by (rewrite ?length_map; exact HS).
  f_equal. apply nth_ext with (d := 0) (d' := 0).
  - unfold shrink. rewrite !length_map, length_seq. symmetry. exact HS.
  - intros i Hi. rewrite length_map, length_seq in Hi.
    rewrite (nth_map_seq
               (fun i => nth i S_ 0 * nth i (map (fun x => / (x + 1)) S_) 0))
      by exact Hi.
    unfold shrink. rewrite !nth_map_R by (rewrite HS; exact Hi). reflexivity.
Qed.

(** What [R.dot(inv(R + I))] is when the inverse answers. *)
Lemma proto_conceptor_shrinkage linalg_inv S_ RI :
  inv_sound linalg_inv ->
  length S_ = n -> Forall (fun x => 0 <= x) S_ ->
  linalg_inv (madd (conj_diag U S_) (np_eye n)) = Some RI ->
  dot (conj_diag U S_) RI = conj_diag U (shrink 1 S_).
Proof.
  intros Hinv HS Hpos HRI.
  assert (HA : shape n n (madd (conj_diag U S_) (np_eye n)))
    by (apply shape_madd, shape_conj_diag; assumption).
  destruct (Hinv n _ RI n_pos HA HRI) as (HsRI & HL & HR).
  destruct (conj_diag_plus_eye_inverse S_ HS Hpos) as [HL' HR'].
  assert (E : RI = conj_diag U (map (fun x => / (x + 1)) S_)).
  { apply (inverse_unique n (madd (conj_diag U S_) (np_eye n))); try assumption.
    apply shape_conj_diag; try assumption. rewrite length_map. exact HS. }
  rewrite E. apply conj_diag_proto_conceptor. exact HS.
Qed.

End Orthogonal.

(** ** [recognition_train] *)

Lemma collect_read_only {A B : Type} (f : A -> method B) l : forall s ys s',
  (forall x, read_only (f x)) ->
  collect l f s = (Ok ys, s') ->
  Forall2 (fun x y => f x s = (Ok y, s)) l ys.
Proof.
  induction l as [|x t IH]; intros s ys s' Hro H.
  - inversion H. constructor.
  - cbn [collect] in H. unfold bind in H.
    pose proof (Hro x s) as Hx.
    destruct (f x s) as [[y|e] s1] eqn:E; [|discriminate].
    cbn [snd] in Hx. subst s1.
    pose proof (read_only_collect t f Hro s) as Ht.
    destruct (collect t f s) as [[ys'|e] s2] eqn:Et; [|discriminate].
    cbn [snd] in Ht. subst s2. unfold ret in H. inversion H; subst.
    constructor; [exact E|]. apply (IH _ ys' _ Hro Et).
Qed.

Section RecognitionTrain.

Variable linalg_inv : matrix -> option matrix.
Variable interp1d_cubic : vector -> vector -> option (R -> R).
Variable PHI : matrix -> R -> matrix.

(** What a pass of the loop body that ends returns for one datum. *)
Lemma explore_ok apN intPts data s Rm C_prem apt s' :
  explore linalg_inv interp1d_cubic PHI apN intPts data s
  = (Ok (Rm, C_prem, apt), s') ->
  Rm = mdiv (dot data (T data)) (INR (ncols data))
  /\ exists RI,
      linalg_inv (madd Rm (np_eye (nrows Rm))) = Some RI
      /\ C_prem = dot Rm RI.
Proof.
  unfold explore, bind, call. intros H.
  destruct (linalg_inv _) as [RI|] eqn:ERI; [|discriminate].
  unfold ret at 1 in H.
  destruct (interp1d_cubic _ _) as [interpfun|]; [|discriminate].
  unfold ret at 1 in H.
  destruct (np_argmax _) as [aptind|]; [|discriminate].
  unfold ret at 1 in H. unfold index, call in H.
  destruct (nth_error intPts aptind) as [x|]; [|discriminate].
  unfold ret in H. inversion H; subst.
  split; [reflexivity|]. exists RI. split; [exact ERI | reflexivity].
Qed.

(** In "complete" mode the lists returned hold, datum by datum, the
    correlation and the proto-conceptor of the loop body. *)
Lemma recognition_train_complete datalist apN s C_list R_list C_prem_list apt_list s' :
  recognition_train linalg_inv interp1d_cubic PHI datalist apN "complete" s
  = (Ok (Complete C_list R_list C_prem_list apt_list), s') ->
  forall i data,
    nth_error datalist i = Some data ->
    exists RI,
      linalg_inv (madd (mdiv (dot data (T data)) (INR (ncols data)))
                       (np_eye (nrows (mdiv (dot data (T data))
                                            (INR (ncols data))))))
      = Some RI
      /\ nth_error R_list i = Some (mdiv (dot data (T data)) (INR (ncols data)))
      /\ nth_error C_prem_list i
         = Some (dot (mdiv (dot data (T data)) (INR (ncols data))) RI).
Proof.
  unfold recognition_train. unfold bind at 1, index at 1, call at 1. intros H.
  destruct (nth_error (map INR (seq 0 apN)) 0) as [first|]; [|discriminate].
  unfold ret at 1 in H. unfold bind at 1, index at 1, call at 1 in H.
  destruct (nth_error (map INR (seq 0 apN)) (apN - 1)) as [last|]; [|discriminate].
  unfold ret at 1 in H. unfold bind at 1 in H.
  destruct (collect datalist _ s) as [[triples|e] s1] eqn:Ec; [|discriminate].
  apply collect_read_only in Ec; [|intros x; apply read_only_explore].
  cbn [String.eqb Ascii.eqb Bool.eqb] in H. unfold ret in H.
  inversion H; subst; clear H.
  intros i data Hi.
  revert i Hi. induction Ec as [|x y l ys Hxy Hrest IH]; intros i Hi.
  - destruct i; discriminate.
  - destruct i as [|i].
    + inversion Hi; subst. destruct y as [[Rm C_prem] apt].
      destruct (explore_ok _ _ _ _ _ _ _ _ Hxy) as (HR & RI & HRI & HC).
      subst Rm. exists RI. split; [exact HRI|]. cbn [map nth_error fst snd].
      split; [reflexivity | rewrite HC; reflexivity].
    + cbn [nth_error] in Hi. destruct (IH i Hi) as (RI & HRI & HR & HC).
      exists RI. split; [exact HRI|]. cbn [map nth_error]. split; assumption.
Qed.

End RecognitionTrain.

Lemma powerRZ_1_m2 : powerRZ 1 (-2) = 1.
Proof. simpl. field. Qed.

(** *** A run of [recognition_train] that ends *)

Lemma ceilZ_ge_2 x : 1 < x -> (2 <= ceilZ x)%Z.
Proof.
  intros Hx. unfold ceilZ. destruct (archimed (- x)) as [_ Hup].
  assert (H : IZR (up (- x)) < IZR 0) by lra.
  apply lt_IZR in H. lia.
Qed.

Lemma length_np_arange start stop step :
  1 < (stop - start) / step -> (2 <= length (np_arange start stop step))%nat.
Proof.
  intros H. unfold np_arange. rewrite length_map, length_seq.
  pose proof (ceilZ_ge_2 _ H). lia.
Qed.

Lemma length_vsub u : forall v, length (vsub u v) = Nat.min (length u) (length v).
Proof.
  induction u as [|a u IH]; intros [|b v]; simpl; try reflexivity.
  rewrite IH. reflexivity.
Qed.

Lemma length_np_diff l : length (np_diff l) = (length l - 1)%nat.
Proof.
  unfold np_diff. rewrite length_vsub.
  assert (H2 : length (removelast l) = (length l - 1)%nat).
  { induction l as [|a l IH]; [reflexivity|].
    destruct l as [|b l]; [reflexivity|].
    change (removelast (a :: b :: l)) with (a :: removelast (b :: l)).
    cbn [length] in *. rewrite IH. lia. }
  assert (H1 : length (tl l) = (length l - 1)%nat) by (destruct l; simpl; lia).
  rewrite H1, H2. lia.
Qed.

Lemma np_argmax_some l :
  l <> [] -> exists i, np_argmax l = Some i /\ (i < length l)%nat.
Proof.
  destruct l as [|x t]; [contradiction|]. intros _.
  exists (argmax_from 0 x 1 t). split; [reflexivity|].
  destruct (argmax_from_spec t 0 x 1 Nat.lt_0_1) as [[H _]|(H & _)];
    cbn [length]; lia.
Qed.

Lemma collect_runs {A B : Type} (f : A -> method B) l s :
  Forall (fun x => exists y, f x s = (Ok y, s)) l ->
  exists ys, collect l f s = (Ok ys, s).
Proof.
  induction 1 as [|x t [y Hy] _ [ys IH]].
  - exists []. reflexivity.
  - exists (y :: ys). cbn [collect]. unfold bind. rewrite Hy, IH. reflexivity.
Qed.

Section RecognitionTrainRuns.

Variable linalg_inv : matrix -> option matrix.
Variable interp1d_cubic : vector -> vector -> option (R -> R).
Variable PHI : matrix -> R -> matrix.
Hypothesis interp_total : forall xs ys, interp1d_cubic xs ys <> None.

Lemma explore_runs apN intPts data s RI :
  linalg_inv (madd (mdiv (dot data (T data)) (INR (ncols data)))
                   (np_eye (nrows (mdiv (dot data (T data))
                                        (INR (ncols data))))))
  = Some RI ->
  (2 <= length intPts)%nat ->
  exists y, explore linalg_inv interp1d_cubic PHI apN intPts data s = (Ok y, s).
Proof.
  intros HRI Hlen. unfold explore, bind, call. rewrite HRI. unfold ret at 1.
  destruct (interp1d_cubic _ _) as [f|] eqn:Ef;
    [| exfalso; exact (interp_total _ _ Ef)].
  unfold ret at 1.
  set (grad := map Rabs (map (fun d => d / 0.01) (np_diff (map f intPts)))).
  assert (Hg : length grad = (length intPts - 1)%nat)
    by (unfold grad; rewrite !length_map, length_np_diff, length_map; reflexivity).
  destruct (np_argmax_some grad) as (idx & Hidx & Hlt).
  { intros E. rewrite E in Hg. simpl in Hg. lia. }
  rewrite Hidx. unfold ret at 1, index, call.
  destruct (nth_error intPts idx) as [x|] eqn:Ex.
  - eexists. reflexivity.
  - apply nth_error_None in Ex. lia.
Qed.

Lemma nth_error_exponents apN k :
  (k < apN)%nat -> nth_error (map INR (seq 0 apN)) k = Some (INR k).
Proof.
  intros Hk. rewrite nth_error_map, nth_error_seq.
  destruct (Nat.ltb_spec k apN) as [_|H]; [reflexivity | lia].
Qed.

Lemma recognition_train_runs datalist apN s :
  (2 <= apN)%nat ->
  Forall (fun data =>
            linalg_inv (madd (mdiv (dot data (T data)) (INR (ncols data)))
                             (np_eye (nrows (mdiv (dot data (T data))
                                                  (INR (ncols data))))))
            <> None) datalist ->
  exists C_list R_list C_prem_list apt_list,
    recognition_train linalg_inv interp1d_cubic PHI datalist apN "complete" s
    = (Ok (Complete C_list R_list C_prem_list apt_list), s).
Proof.
  intros HapN Hall. unfold recognition_train.
  unfold bind at 1, index at 1, call at 1.
  rewrite nth_error_exponents by lia.
  unfold ret at 1. unfold bind at 1, index at 1, call at 1.
  rewrite nth_error_exponents by lia.
  unfold ret at 1. unfold bind at 1.
  destruct (collect_runs
              (explore linalg_inv interp1d_cubic PHI apN
                       (np_arange (INR 0) (INR (apN - 1) + 0.01) 0.01))
              datalist s) as [ys Hys].
  { apply Forall_forall. intros data Hd. rewrite Forall_forall in Hall.
    specialize (Hall data Hd).
    destruct (linalg_inv _) as [RI|] eqn:ERI; [|contradiction].
    apply (explore_runs apN _ data s RI ERI).
    apply length_np_arange.
    assert (H1 : 1 <= INR (apN - 1)).
    { change 1 with (INR 1). apply le_INR. lia. }
    change (INR 0) with 0.
    apply (Rmult_lt_reg_r 0.01); [lra|].
    unfold Rdiv. rewrite Rmult_assoc, Rinv_l by lra. lra. }
  rewrite Hys. cbn [String.eqb Ascii.eqb Bool.eqb]. unfold ret.
  do 4 eexists. reflexivity.
Qed.

End RecognitionTrainRuns.

(** C9. For a datum with [ncols >= 1] columns, [recognition_train] computes
    the correlation [R = data.data^T / ncols] and the proto-conceptor
    [C_prem = R.(R + I)^(-1)] (they are what "complete" mode returns at the
    position of the datum).  For an SVD [R = U.diag(S).U^T] with orthogonal
    [U] and non-negative [S], [C_prem] is [U.diag(s / (s + 1)).U^T], and it
    is the conceptor that [compute_projector(R, 1)] appends to the
    bundle.  Such runs exist: with at least two exploration exponents, an
    interpolation that answers and inversions of the [R + I] that answer,
    the call returns its four lists. *)
Theorem proto_conceptor_is_shrinkage :
  forall linalg_inv linalg_svd interp1d_cubic PHI s s' datalist apN
         C_list R_list C_prem_list apt_list i data n c U S_ Vt s0 c0 c1 c2 c3,
    inv_sound linalg_inv -> inv_total_on_diag linalg_inv ->
    recognition_train linalg_inv interp1d_cubic PHI datalist apN "complete" s
    = (Ok (Complete C_list R_list C_prem_list apt_list), s') ->
    nth_error datalist i = Some data ->
    shape n c data -> (0 < n)%nat -> (1 <= c)%nat ->
    linalg_svd (mdiv (dot data (T data)) (INR c)) = Some (U, S_, Vt) ->
    shape n n U -> dot (T U) U = np_eye n -> dot U (T U) = np_eye n ->
    length S_ = n -> Forall (fun x => 0 <= x) S_ ->
    mdiv (dot data (T data)) (INR c) = conj_diag U S_ ->
    size_net s0 = n -> Cs s0 = [c0; c1; c2; c3] ->
    nth_error R_list i = Some (mdiv (dot data (T data)) (INR c))
    /\ nth_error C_prem_list i = Some (conj_diag U (shrink 1 S_))
    /\ compute_projector linalg_inv linalg_svd
         (mdiv (dot data (T data)) (INR c)) 1 s0
       = (Ok tt,
          set_Cs [c0 ++ [Arr2 (conj_diag U (shrink 1 S_))];
                  c1 ++ [Arr2 U];
                  c2 ++ [Arr1 (shrink 1 S_)];
                  c3 ++ [Arr1 S_]] s0)
    /\ ((2 <= apN)%nat ->
        (forall xs ys, interp1d_cubic xs ys <> None) ->
        Forall (fun d =>
                  linalg_inv (madd (mdiv (dot d (T d)) (INR (ncols d)))
                                   (np_eye (nrows (mdiv (dot d (T d))
                                                        (INR (ncols d))))))
                  <> None) datalist ->
        forall t, exists Cl Rl Cpl al,
          recognition_train linalg_inv interp1d_cubic PHI datalist apN
                            "complete" t
          = (Ok (Complete Cl Rl Cpl al), t)).
Proof.
  intros linalg_inv linalg_svd interp1d_cubic PHI s s' datalist apN
         C_list R_list C_prem_list apt_list i data n c U S_ Vt s0 c0 c1 c2 c3
         Hinv Hdiag Hrun Hi Hdata Hn Hc Hsvd HU UtU UUt HS Hpos HR Hsize HCs.
  destruct (recognition_train_complete linalg_inv interp1d_cubic PHI
              datalist apN s C_list R_list C_prem_list apt_list s' Hrun i data Hi)
    as (RI & HRI & HRl & HCl).
  rewrite (shape_ncols n c data Hdata Hn) in HRI, HRl, HCl.
  rewrite (shape_nrows n n _ (shape_correlation n c data (INR c) Hdata Hn Hc))
    in HRI.
  split; [exact HRl|]. split; [|split].
  - rewrite HCl. f_equal. rewrite HR in HRI |- *.
    apply (proto_conceptor_shrinkage n U Hn HU UtU UUt linalg_inv); assumption.
  - rewrite (compute_projector_run linalg_inv linalg_svd Hinv Hdiag
               s0 _ 1 U S_ Vt c0 c1 c2 c3)
      by (try assumption; try lia; try lra; rewrite Hsize; assumption).
    rewrite powerRZ_1_m2. reflexivity.
  - intros HapN Hint Hall t.
    apply (recognition_train_runs linalg_inv interp1d_cubic PHI Hint);
      assumption.
Qed.

Lemma diag_inv_one_by_one M :
  shape 1 1 M -> get M 0 0 <> 0 -> diag_inv M <> None.
Proof.
  intros HM Hnz. rewrite (one_by_one M HM).
  rewrite diag_inv_diag by (constructor; [exact Hnz | constructor]).
  discriminate.
Qed.

(** The proto-conceptor of the one-by-one datum [unit_pattern], with the
    reference routines, an interpolant that is constantly zero and the
    identity for [PHI]. *)
Lemma proto_conceptor_example :
  exists C_list R_list C_prem_list apt_list U S_,
    recognition_train diag_inv (fun _ _ => Some (fun _ => 0)) (fun C _ => C)
                      [unit_pattern] 2 "complete" reservoir_1_1
    = (Ok (Complete C_list R_list C_prem_list apt_list), reservoir_1_1)
    /\ nth_error R_list 0
       = Some (mdiv (dot unit_pattern (T unit_pattern)) (INR 1))
    /\ nth_error C_prem_list 0 = Some (conj_diag U (shrink 1 S_))
    /\ compute_projector diag_inv diag_svd
         (mdiv (dot unit_pattern (T unit_pattern)) (INR 1)) 1 reservoir_1_1
       = (Ok tt,
          set_Cs [[Arr2 (conj_diag U (shrink 1 S_))]; [Arr2 U];
                  [Arr1 (shrink 1 S_)]; [Arr1 S_]] reservoir_1_1).
Proof.
  set (Rm := mdiv (dot unit_pattern (T unit_pattern)) (INR 1)).
  assert (Hdata : shape 1 1 unit_pattern)
    by (split; [reflexivity | repeat constructor]).
  assert (HsR : shape 1 1 Rm)
    by (apply (shape_correlation 1 1); (assumption || lia)).
  assert (HpR : psd 1 Rm)
    by (apply (correlation_psd 1 1); try (assumption || lia); simpl; lra).
  pose proof (psd_one_by_one Rm HpR) as Hpos.
  destruct (recognition_train_runs diag_inv (fun _ _ => Some (fun _ => 0))
              (fun C _ => C) ltac:(discriminate) [unit_pattern] 2 reservoir_1_1)
    as (C_list & R_list & C_prem_list & apt_list & Hrun); [lia | |].
  { constructor; [|constructor].
    change (ncols unit_pattern) with 1%nat. fold Rm.
    rewrite (shape_nrows 1 1 Rm HsR).
    apply diag_inv_one_by_one; [apply shape_madd; exact HsR|].
    rewrite (get_madd 1 1) by (assumption || lia).
    rewrite get_np_eye by lia. simpl. lra. }
  exists C_list, R_list, C_prem_list, apt_list, (np_eye 1), [get Rm 0 0].
  split; [exact Hrun|].
  destruct (proto_conceptor_is_shrinkage diag_inv diag_svd
              (fun _ _ => Some (fun _ => 0)) (fun C _ => C)
              reservoir_1_1 reservoir_1_1 [unit_pattern] 2
              C_list R_list C_prem_list apt_list 0 unit_pattern 1 1
              (np_eye 1) [get Rm 0 0] (np_eye 1) reservoir_1_1 [] [] [] [])
    as (H1 & H2 & H3 & _).
  - exact diag_inv_sound.
  - exact diag_inv_total_on_diag.
  - exact Hrun.
  - reflexivity.
  - exact Hdata.
  - lia.
  - lia.
  - apply diag_svd_one_by_one; assumption.
  - apply shape_np_eye.
  - rewrite T_np_eye by lia. apply (dot_eye_l 1 1); [apply shape_np_eye | lia].
  - rewrite T_np_eye by lia. apply (dot_eye_l 1 1); [apply shape_np_eye | lia].
  - reflexivity.
  - constructor; [exact Hpos | constructor].
  - rewrite (conj_diag_eye 1) by (reflexivity || lia).
    apply one_by_one. exact HsR.
  - reflexivity.
  - reflexivity.
  - split; [exact H1|]. split; [exact H2 | exact H3].
Defined.

(** ** Ridge regression *)

Lemma fsum_ext m n f g :
  (forall i j, (i < m)%nat -> (j < n)%nat -> f i j = g i j) ->
  fsum m n f = fsum m n g.
Proof.
  intros H. unfold fsum. apply sum_n_ext. intros i Hi.
  apply sum_n_ext. intros j Hj. apply H; assumption.
Qed.

Lemma fsum_plus m n f g :
  fsum m n (fun i j => f i j + g i j) = fsum m n f + fsum m n g.
Proof.
  unfold fsum. rewrite <- sum_n_plus. apply sum_n_ext. intros i _.
  apply sum_n_plus.
Qed.

Lemma fsum_scal m n c f :
  fsum m n (fun i j => c * f i j) = c * fsum m n f.
Proof.
  unfold fsum. rewrite <- sum_n_scal_l. apply sum_n_ext. intros i _.
  apply sum_n_scal_l.
Qed.

Lemma fsum_zero m n f :
  (forall i j, (i < m)%nat -> (j < n)%nat -> f i j = 0) -> fsum m n f = 0.
Proof.
  intros H. unfold fsum. apply sum_n_zero. intros i Hi.
  apply sum_n_zero. intros j Hj. apply H; assumption.
Qed.

Lemma fsum_square_nonneg m n f : 0 <= fsum m n (fun i j => f i j * f i j).
Proof.
  unfold fsum. apply sum_n_nonneg. intros i _. apply sum_n_nonneg. intros j _.
  apply Rle_0_sqr.
Qed.

Lemma sum_sq_fsum m n M :
  shape m n M -> sum_sq M = fsum m n (fun i j => get M i j * get M i j).
Proof.
  intros HM. unfold sum_sq, fsum. rewrite (shape_nrows m n M HM).
  apply sum_n_ext. intros i Hi.
  rewrite (shape_ncols m n M HM) by lia. reflexivity.
Qed.

(** The adjoint identity [<E, D.X> = <E.X^T, D>], entry by entry. *)
Lemma fsum_adjoint m n L (e d x : nat -> nat -> R) :
  fsum m L (fun i l => e i l * sum_n n (fun k => d i k * x k l))
  = fsum m n (fun i k => d i k * sum_n L (fun l => e i l * x k l)).
Proof.
  unfold fsum. apply sum_n_ext. intros i _.
  rewrite (sum_n_ext L _ (fun l => sum_n n (fun k => e i l * (d i k * x k l))))
    by (intros l _; symmetry; apply sum_n_scal_l).
  rewrite sum_n_swap. apply sum_n_ext. intros k _.
  rewrite <- sum_n_scal_l. apply sum_n_ext. intros l _. ring.
Qed.

Section Ridge.

Variables n m L : nat.
Variables X U W_ : matrix.
Variable rho : R.
Hypothesis n_pos : (0 < n)%nat.
Hypothesis m_pos : (0 < m)%nat.
Hypothesis L_pos : (0 < L)%nat.
Hypothesis HX : shape n L X.
Hypothesis HU : shape m L U.
Hypothesis HW : shape m n W_.
Hypothesis rho_nonneg : 0 <= rho.
Hypothesis normal_equation :
  dot W_ (madd (dot X (T X)) (mscale rho (np_eye n))) = dot U (T X).

Lemma ridge_cost_fsum V :
  shape m n V ->
  ridge_cost X U rho V
  = fsum m L (fun i l => (sum_n n (fun k => get V i k * get X k l) - get U i l)
                         * (sum_n n (fun k => get V i k * get X k l) - get U i l))
    + rho * fsum m n (fun i j => get V i j * get V i j).
Proof.
  intros HV. unfold ridge_cost.
  assert (HVX : shape m L (dot V X)) by (apply (shape_dot m n L); assumption).
  rewrite (sum_sq_fsum m L) by (apply shape_msub; exact HVX).
  rewrite (sum_sq_fsum m n V HV). f_equal.
  apply fsum_ext. intros i l Hi Hl.
  rewrite (get_msub m L) by assumption.
  rewrite (get_dot m n L) by assumption. reflexivity.
Qed.

(** The gradient of the objective vanishes at [W_]. *)
Lemma ridge_stationary i j :
  (i < m)%nat -> (j < n)%nat ->
  sum_n L (fun l => (sum_n n (fun k => get W_ i k * get X k l) - get U i l)
                    * get X j l)
  + rho * get W_ i j = 0.
Proof.
  intros Hi Hj.
  assert (HG : shape n n (dot X (T X)))
    by (apply (shape_dot n L n); [exact HX | apply shape_T; assumption | exact L_pos]).
  assert (HA : shape n n (madd (dot X (T X)) (mscale rho (np_eye n))))
    by (apply shape_madd; exact HG).
  pose proof (f_equal (fun M => get M i j) normal_equation) as E. cbv beta in E.
  rewrite (get_dot m n n) in E by assumption.
  rewrite (get_dot m L n) in E by (try apply shape_T; assumption).
  rewrite (sum_n_ext n _
             (fun k => get W_ i k * sum_n L (fun l => get X k l * get X j l)
                       + (if Nat.eqb k j then rho * get W_ i k else 0))) in E.
  2:{ intros k Hk. rewrite (get_madd n n) by assumption.
      rewrite (get_gram n L) by assumption.
      rewrite (get_mscale n n) by (try apply shape_np_eye; assumption).
      rewrite get_np_eye by assumption.
      destruct (Nat.eqb k j); ring. }
  rewrite sum_n_plus in E.
  rewrite (sum_n_delta n j (fun k => rho * get W_ i k)) in E by exact Hj.
  rewrite (sum_n_ext L (fun k => get U i k * get (T X) k j)
             (fun l => get U i l * get X j l)) in E
    by (intros l Hl; rewrite (get_T n L) by assumption; reflexivity).
  rewrite (sum_n_ext L _
             (fun l => sum_n n (fun k => get W_ i k * get X k l * get X j l)
                       - get U i l * get X j l)).
  2:{ intros l Hl.
      rewrite (sum_n_scal_r n (get X j l) (fun k => get W_ i k * get X k l)).
      ring. }
  rewrite sum_n_minus, sum_n_swap.
  rewrite (sum_n_ext n _
             (fun k => get W_ i k * sum_n L (fun l => get X k l * get X j l))).
  2:{ intros k Hk.
      rewrite <- (sum_n_scal_l L (get W_ i k) (fun l => get X k l * get X j l)).
      apply sum_n_ext. intros l Hl. ring. }
  lra.
Qed.

(** No matrix of the shape of [W_] has a smaller ridge objective. *)
Lemma ridge_minimizer V :
  shape m n V -> ridge_cost X U rho W_ <= ridge_cost X U rho V.
Proof.
  intros HV. rewrite (ridge_cost_fsum W_ HW), (ridge_cost_fsum V HV).
  set (e := fun i l => sum_n n (fun k => get W_ i k * get X k l) - get U i l).
  set (d := fun i j => get V i j - get W_ i j).
  set (dx := fun i l => sum_n n (fun k => d i k * get X k l)).
  assert (E1 : fsum m L
                 (fun i l => (sum_n n (fun k => get V i k * get X k l) - get U i l)
                             * (sum_n n (fun k => get V i k * get X k l) - get U i l))
               = fsum m L (fun i l => e i l * e i l)
                 + (fsum m L (fun i l => dx i l * dx i l)
                    + 2 * fsum m L (fun i l => e i l * dx i l))).
  { rewrite <- fsum_scal, <- !fsum_plus. apply fsum_ext. intros i l Hi Hl.
    replace (sum_n n (fun k => get V i k * get X k l)) with
      (sum_n n (fun k => get W_ i k * get X k l) + dx i l).
    - unfold e. ring.
    - unfold dx, d. rewrite <- sum_n_plus. apply sum_n_ext. intros k Hk. ring. }
  assert (E2 : fsum m n (fun i j => get V i j * get V i j)
               = fsum m n (fun i j => get W_ i j * get W_ i j)
                 + (fsum m n (fun i j => d i j * d i j)
                    + 2 * fsum m n (fun i j => get W_ i j * d i j))).
  { rewrite <- fsum_scal, <- !fsum_plus. apply fsum_ext. intros i j Hi Hj.
    unfold d. ring. }
  assert (E3 : fsum m L (fun i l => e i l * dx i l)
               + rho * fsum m n (fun i j => get W_ i j * d i j) = 0).
  { unfold dx. rewrite (fsum_adjoint m n L e d (get X)).
    rewrite <- fsum_scal, <- fsum_plus. apply fsum_zero. intros i j Hi Hj.
    pose proof (ridge_stationary i j Hi Hj) as Hs. fold (e i) in Hs.
    replace (d i j * sum_n L (fun l => e i l * get X j l)
             + rho * (get W_ i j * d i j))
      with (d i j * (sum_n L (fun l => e i l * get X j l) + rho * get W_ i j))
      by ring.
    unfold e at 1. rewrite Hs. ring. }
  rewrite E1, E2.
  pose proof (fsum_square_nonneg m L dx) as P1.
  pose proof (fsum_square_nonneg m n d) as P2.
  match goal with
  | |- ?a + _ <= _ => change a with (fsum m L (fun i l => e i l * e i l))
  end.
  assert (0 <= rho * fsum m n (fun i j => d i j * d i j))
    by (apply Rmult_le_pos; assumption).
  lra.
Qed.

End Ridge.

(** ** [compute_W_out] *)

Lemma ridge_matrix_shape n L X rho :
  shape n L X -> (0 < n)%nat -> (0 < L)%nat ->
  shape n n (madd (dot X (T X)) (mscale rho (np_eye n))).
Proof.
  intros HX Hn HL. apply shape_madd.
  apply (shape_dot n L n); [exact HX | apply shape_T; assumption | exact HL].
Qed.

Lemma ridge_matrix_symmetric n L X rho :
  shape n L X -> (0 < n)%nat -> (0 < L)%nat ->
  T (madd (dot X (T X)) (mscale rho (np_eye n)))
  = madd (dot X (T X)) (mscale rho (np_eye n)).
Proof.
  intros HX Hn HL.
  assert (HT : shape L n (T X)) by (apply shape_T; assumption).
  assert (HG : shape n n (dot X (T X))) by (apply (shape_dot n L n); assumption).
  rewrite (T_madd n n) by (try apply shape_mscale, shape_np_eye; assumption).
  rewrite (T_dot n L n), (T_T n L) by assumption.
  rewrite (T_mscale n n), T_np_eye by (try apply shape_np_eye; assumption).
  reflexivity.
Qed.

(** The inverse of a symmetric matrix is symmetric. *)
Lemma inverse_symmetric n G A :
  (0 < n)%nat -> shape n n G -> shape n n A -> T G = G ->
  dot A G = np_eye n -> dot G A = np_eye n -> T A = A.
Proof.
  intros Hn HG HA Hsym HAG HGA.
  apply (inverse_unique n G); try assumption.
  - apply shape_T; assumption.
  - rewrite <- Hsym at 1. rewrite <- (T_dot n n n) by assumption.
    rewrite HGA. apply T_np_eye. exact Hn.
Qed.

(** C7. Once the aggregated matrices hold the [L >= 1] columns of the
    driven patterns, [compute_W_out] (whose inversion answers) assigns
    [W_out = U_all.X_all^T.(X_all.X_all^T + varrho_out.I)^(-1)], and for a
    coefficient [varrho_out >= 0] no matrix of that shape has a smaller
    value of [||W.X_all - U_all||^2 + varrho_out.||W||^2]. *)
Theorem compute_W_out_ridge :
  forall linalg_inv s varrho_out_arg n m L A,
    inv_sound linalg_inv ->
    size_net s = n -> (0 < n)%nat -> (0 < m)%nat -> (0 < L)%nat ->
    shape n L (all_train_args s) -> shape m L (all_train_outs s) ->
    linalg_inv
      (madd (dot (all_train_args s) (T (all_train_args s)))
            (mscale (match varrho_out_arg with
                     | None => varrho_out s
                     | Some v => v
                     end) (np_eye n))) = Some A ->
    exists Wo,
      compute_W_out linalg_inv varrho_out_arg s = (Ok tt, set_W_out Wo s)
      /\ Wo = dot (dot (all_train_outs s) (T (all_train_args s))) A
      /\ shape m n Wo
      /\ (0 <= match varrho_out_arg with
               | None => varrho_out s
               | Some v => v
               end ->
          forall V, shape m n V ->
            ridge_cost (all_train_args s) (all_train_outs s)
                       (match varrho_out_arg with
                        | None => varrho_out s
                        | Some v => v
                        end) Wo
            <= ridge_cost (all_train_args s) (all_train_outs s)
                          (match varrho_out_arg with
                           | None => varrho_out s
                           | Some v => v
                           end) V).
Proof.
  intros linalg_inv s varrho_out_arg n m L A Hinv Hsize Hn Hm HL HX HU HA.
  set (rho := match varrho_out_arg with None => varrho_out s | Some v => v end) in *.
  set (X := all_train_args s) in *. set (U := all_train_outs s) in *.
  assert (HG : shape n n (madd (dot X (T X)) (mscale rho (np_eye n))))
    by (apply (ridge_matrix_shape n L); assumption).
  destruct (Hinv n _ A Hn HG HA) as (HsA & HAG & HGA).
  assert (HTA : T A = A).
  { apply (inverse_symmetric n (madd (dot X (T X)) (mscale rho (np_eye n))));
      try assumption.
    apply (ridge_matrix_symmetric n L); assumption. }
  assert (HTX : shape L n (T X)) by (apply shape_T; assumption).
  assert (HTU : shape L m (T U)) by (apply shape_T; assumption).
  assert (HAX : shape n L (dot A X)) by (apply (shape_dot n n L); assumption).
  assert (HUX : shape m n (dot U (T X))) by (apply (shape_dot m L n); assumption).
  assert (HWo : T (dot (dot A X) (T U)) = dot (dot U (T X)) A).
  { rewrite (T_dot n L m) by assumption.
    rewrite (T_T m L) by assumption.
    rewrite (T_dot n n L) by assumption.
    rewrite HTA. symmetry. apply (dot_assoc m L n n); assumption. }
  exists (dot (dot U (T X)) A).
  split.
  - unfold compute_W_out, bind at 1, self. cbv beta iota zeta.
    fold rho X U. rewrite Hsize.
    unfold bind, call. rewrite HA. unfold ret, assign. rewrite HWo. reflexivity.
  - split; [reflexivity|].
    split; [apply (shape_dot m n n); assumption|].
    intros Hrho V HV.
    apply (ridge_minimizer n m L X U (dot (dot U (T X)) A) rho); try assumption.
    + apply (shape_dot m n n); assumption.
    + rewrite (dot_assoc m n n n) by assumption.
      rewrite HAG. apply (dot_eye_r m n); assumption.
Qed.

Lemma driven_once_training_data :
  all_train_args driven_once = harvested_states reservoir_1_1 unit_pattern 0
  /\ all_train_outs driven_once = harvested_inputs reservoir_1_1 unit_pattern 0
  /\ varrho_out driven_once = 0.01
  /\ size_net driven_once = 1%nat.
Proof.
  destruct (drive_one_neuron reservoir_1_1 unit_pattern 0)
    as (_ & HsR & HpR & _); [reflexivity | cbv; lia | cbv; lia |].
  unfold driven_once.
  rewrite (drive_reservoir_run diag_svd reservoir_1_1 unit_pattern 0
             (np_eye 1) _ (np_eye 1)
             ltac:(cbv; lia) ltac:(cbv; lia) ltac:(cbv; lia)
             (diag_svd_one_by_one _ HsR HpR)).
  cbn [snd all_train_args all_train_outs varrho_out size_net].
  repeat split.
Qed.

(** The readout trained on [reservoir_1_1] driven once by [unit_pattern]
    minimises the ridge objective. *)
Lemma compute_W_out_ridge_example :
  exists A Wo,
    compute_W_out diag_inv None driven_once = (Ok tt, set_W_out Wo driven_once)
    /\ Wo = dot (dot (all_train_outs driven_once)
                     (T (all_train_args driven_once))) A
    /\ forall V, shape 1 1 V ->
         ridge_cost (all_train_args driven_once) (all_train_outs driven_once)
                    0.01 Wo
         <= ridge_cost (all_train_args driven_once) (all_train_outs driven_once)
                       0.01 V.
Proof.
  destruct driven_once_training_data as (Hx & Hu & Hrho & Hn).
  assert (HX : shape 1 1 (all_train_args driven_once))
    by (rewrite Hx; apply (shape_harvested_states reservoir_1_1 unit_pattern 0)).
  assert (HU : shape 1 1 (all_train_outs driven_once))
    by (rewrite Hu; apply (shape_harvested_inputs reservoir_1_1 unit_pattern 0)).
  set (G := madd (dot (all_train_args driven_once) (T (all_train_args driven_once)))
                 (mscale (varrho_out driven_once) (np_eye 1))).
  assert (HG : shape 1 1 G) by (apply (ridge_matrix_shape 1 1); (assumption || lia)).
  assert (Hpos : 0 < get G 0 0).
  { unfold G. rewrite (get_madd 1 1), (get_mscale 1 1), (get_gram 1 1), get_np_eye
      by (try apply shape_np_eye; try apply (shape_dot 1 1 1);
          try apply shape_T; (assumption || lia)).
    rewrite Hrho. cbn [sum_n Nat.eqb].
    pose proof (Rle_0_sqr (get (all_train_args driven_once) 0 0)) as Hsq.
    unfold Rsqr in Hsq. lra. }
  assert (HA : diag_inv G = Some (np_diag (map Rinv [get G 0 0]))).
  { rewrite (one_by_one G HG) at 1.
    apply diag_inv_diag. constructor; [lra | constructor]. }
  destruct (compute_W_out_ridge diag_inv driven_once None 1 1 1
              (np_diag (map Rinv [get G 0 0])))
    as (Wo & Hrun & HWo & _ & Hmin).
  - exact diag_inv_sound.
  - exact Hn.
  - lia.
  - lia.
  - lia.
  - exact HX.
  - exact HU.
  - exact HA.
  - exists (np_diag (map Rinv [get G 0 0])), Wo.
    split; [exact Hrun|]. split; [exact HWo|].
    rewrite Hrho in Hmin. apply Hmin. lra.
Defined.

(** * Further properties of the methods *)

(** ** [drive_reservoir], case by case *)

Lemma drive_reservoir_cases linalg_svd pattern w s :
  drive_reservoir linalg_svd pattern w s
  = if Nat.ltb (ncols pattern) w then (Raised ValueError, s)
    else
      let X := h_x_collector (harvest_of s pattern w) in
      match linalg_svd (mdiv (dot X (T X)) (INR (ncols pattern - w))) with
      | None => (Raised LinAlgError, set_x_collectors (x_collectors s ++ [X]) s)
      | Some (Ux, Sx, _) => (Ok tt, driven s pattern w Ux Sx)
      end.
Proof.
  unfold drive_reservoir, bind at 1, self. cbv beta iota.
  destruct (Nat.ltb (ncols pattern) w); [reflexivity|].
  cbv zeta. fold (harvest_of s pattern w).
  unfold bind at 1, assign at 1. cbv beta iota.
  unfold bind at 1, call at 1. cbn [x_collectors set_x_collectors].
  destruct (linalg_svd _) as [[[Ux Sx] Vt]|]; [|reflexivity].
  reflexivity.
Qed.

Lemma same_setup_refl s : same_setup s s.
Proof. repeat split. Qed.

Lemma same_setup_trans s t u :
  same_setup s t -> same_setup t u -> same_setup s u.
Proof.
  unfold same_setup, same_weights.
  intros ((A1 & A2 & A3 & A4 & A5 & A6 & A7) & A8 & A9 & A10 & A11 & A12 & A13)
         ((B1 & B2 & B3 & B4 & B5 & B6 & B7) & B8 & B9 & B10 & B11 & B12 & B13).
  repeat split; congruence.
Qed.

Lemma same_setup_driven s pattern w Ux Sx :
  same_setup s (driven s pattern w Ux Sx).
Proof. repeat split. Qed.

(** A drive leaves the sizes, the coefficients, the weights and the bundle
    alone, whatever it returns or raises. *)
Lemma drive_reservoir_same_setup linalg_svd pattern w s :
  same_setup s (snd (drive_reservoir linalg_svd pattern w s)).
Proof.
  rewrite drive_reservoir_cases.
  destruct (Nat.ltb (ncols pattern) w); [apply same_setup_refl|].
  cbv zeta. destruct (linalg_svd _) as [[[Ux Sx] Vt]|]; cbn [snd].
  - apply same_setup_driven.
  - repeat split.
Qed.

(** X1. [drive_reservoir] assigns only the per-pattern lists, the
    aggregated matrices and the counter: whatever it returns or raises, the
    sizes, the coefficients, the weights [W_star], [W_in], [W_bias], the
    trained [W_out] and [W] and the bundle [Cs] are as before, and each of
    the five per-pattern lists still starts with its earlier entries. *)
Theorem drive_reservoir_frame :
  forall linalg_svd pattern w s,
    let s' := snd (drive_reservoir linalg_svd pattern w s) in
    same_setup s s'
    /\ (exists l, x_collectors s' = x_collectors s ++ l)
    /\ (exists l, pattern_Rs s' = pattern_Rs s ++ l)
    /\ (exists l, UR_collectors s' = UR_collectors s ++ l)
    /\ (exists l, SR_collectors s' = SR_collectors s ++ l)
    /\ (exists l, pattern_collectors s' = pattern_collectors s ++ l).
Proof.
  intros linalg_svd pattern w s. cbv zeta.
  rewrite drive_reservoir_cases.
  destruct (Nat.ltb (ncols pattern) w).
  - cbn [snd]. split; [apply same_setup_refl|].
    repeat split; exists []; symmetry; apply app_nil_r.
  - cbv zeta. destruct (linalg_svd _) as [[[Ux Sx] Vt]|]; cbn [snd].
    + split; [apply same_setup_driven|].
      unfold driven. cbv zeta.
      cbn [x_collectors pattern_Rs UR_collectors SR_collectors pattern_collectors].
      repeat split; eexists; reflexivity.
    + split; [repeat split|].
      cbn [x_collectors pattern_Rs UR_collectors SR_collectors
           pattern_collectors set_x_collectors].
      split; [eexists; reflexivity|].
      repeat split; exists []; symmetry; apply app_nil_r.
Qed.

(** X2. A washout longer than the pattern makes [drive_reservoir] raise
    [ValueError] (the collectors would have a negative number of columns)
    before anything is assigned; [train] passes the exception on, so a
    first pattern that is too short leaves the instance as it was. *)
Theorem drive_reservoir_short_pattern :
  forall linalg_inv linalg_svd np_arctanh pattern patterns w s,
    (ncols pattern < w)%nat ->
    drive_reservoir linalg_svd pattern w s = (Raised ValueError, s)
    /\ train linalg_inv linalg_svd np_arctanh (pattern :: patterns) w s
       = (Raised ValueError, s).
Proof.
  intros linalg_inv linalg_svd np_arctanh pattern patterns w s Hw.
  assert (E : drive_reservoir linalg_svd pattern w s = (Raised ValueError, s)).
  { rewrite drive_reservoir_cases.
    destruct (Nat.ltb_spec (ncols pattern) w); [reflexivity | lia]. }
  split; [exact E|].
  unfold train, bind at 1. cbn [for_each]. unfold bind at 1. rewrite E.
  reflexivity.
Qed.

Lemma drive_reservoir_short_pattern_example :
  drive_reservoir diag_svd unit_pattern 2 reservoir_1_1
  = (Raised ValueError, reservoir_1_1)
  /\ train diag_inv diag_svd (fun x => x) [unit_pattern; two_step_pattern] 2
           reservoir_1_1
     = (Raised ValueError, reservoir_1_1).
Proof.
  apply (drive_reservoir_short_pattern diag_inv diag_svd (fun x => x)
           unit_pattern [two_step_pattern] 2 reservoir_1_1).
  unfold unit_pattern, ncols. simpl. lia.
Defined.

(** What the three collectors hold after the loop. *)
Lemma harvest_of_collectors s pattern w :
  (0 < size_net s)%nat -> (0 < size_in s)%nat -> (w <= ncols pattern)%nat ->
  h_x_collector (harvest_of s pattern w) = harvested_states s pattern w
  /\ h_x_old_collector (harvest_of s pattern w) = harvested_old_states s pattern w
  /\ h_p_collector (harvest_of s pattern w) = harvested_inputs s pattern w.
Proof. intros Hn Hm Hw. exact (drive_loop_result s pattern w Hn Hm Hw). Qed.

(** X3. When the SVD of the correlation matrix does not converge,
    [drive_reservoir] raises [LinAlgError] after it has appended the
    harvested states to [x_collectors] and before it assigns anything else:
    [x_collectors] is then one entry longer than [pattern_Rs] and the
    counter, and the aggregated matrices have not received the harvest. *)
Theorem drive_reservoir_svd_failure :
  forall linalg_svd pattern w s,
    (0 < size_net s)%nat -> (0 < size_in s)%nat -> (w < ncols pattern)%nat ->
    linalg_svd (correlation_of s w pattern) = None ->
    drive_reservoir linalg_svd pattern w s
    = (Raised LinAlgError,
       set_x_collectors (x_collectors s ++ [harvested_states s pattern w]) s)
    /\ (records_ok s ->
        ~ records_ok (snd (drive_reservoir linalg_svd pattern w s))).
Proof.
  intros linalg_svd pattern w s Hn Hm Hw Hsvd.
  assert (E : drive_reservoir linalg_svd pattern w s
              = (Raised LinAlgError,
                 set_x_collectors
                   (x_collectors s ++ [harvested_states s pattern w]) s)).
  { apply (drive_reservoir_interrupted linalg_svd s w Hn Hm s pattern
             (same_weights_refl s)); [lia | exact Hsvd]. }
  split; [exact E|].
  rewrite E. cbn [snd]. intros (H1 & _) (H2 & _).
  cbn [x_collectors num_pattern set_x_collectors] in H2.
  rewrite length_app in H2. cbn [length] in H2. lia.
Qed.

Lemma drive_reservoir_svd_failure_example :
  drive_reservoir (fun _ => None) unit_pattern 0 reservoir_1_1
  = (Raised LinAlgError,
     set_x_collectors
       (x_collectors reservoir_1_1 ++ [harvested_states reservoir_1_1 unit_pattern 0])
       reservoir_1_1)
  /\ (records_ok reservoir_1_1 ->
      ~ records_ok (snd (drive_reservoir (fun _ => None) unit_pattern 0
                                         reservoir_1_1))).
Proof.
  apply (drive_reservoir_svd_failure (fun _ => None) unit_pattern 0 reservoir_1_1).
  - cbv; lia.
  - cbv; lia.
  - cbv; lia.
  - reflexivity.
Defined.

(** ** The per-pattern records *)

Lemma records_ok_driven s pattern w Ux Sx :
  records_ok s -> records_ok (driven s pattern w Ux Sx).
Proof.
  intros (H1 & H2 & H3 & H4 & H5). unfold records_ok, driven. cbv zeta.
  cbn [x_collectors pattern_Rs UR_collectors SR_collectors pattern_collectors
       num_pattern].
  rewrite !length_app. cbn [length]. repeat split; lia.
Qed.

(** A loop of drives that ends has counted every pattern. *)
Lemma for_each_drive_ok linalg_svd w patterns : forall t t',
  for_each patterns (fun p => drive_reservoir linalg_svd p w) t = (Ok tt, t') ->
  same_setup t t'
  /\ num_pattern t' = (num_pattern t + length patterns)%nat
  /\ (records_ok t -> records_ok t').
Proof.
  induction patterns as [|p ps IH]; intros t t' Hrun.
  - cbn [for_each] in Hrun. unfold ret in Hrun. inversion Hrun; subst t'.
    split; [apply same_setup_refl|]. split; [cbn [length]; lia | tauto].
  - cbn [for_each] in Hrun. unfold bind in Hrun.
    rewrite drive_reservoir_cases in Hrun.
    destruct (Nat.ltb (ncols p) w); [discriminate Hrun|].
    cbv zeta in Hrun.
    destruct (linalg_svd _) as [[[Ux Sx] Vt]|]; [|discriminate Hrun].
    destruct (IH _ _ Hrun) as (Hs & Hnum & Hrec).
    split; [apply (same_setup_trans _ (driven t p w Ux Sx));
            [apply same_setup_driven | exact Hs]|].
    split.
    + rewrite Hnum. unfold driven. cbv zeta. cbn [num_pattern length]. lia.
    + intros H. apply Hrec, records_ok_driven, H.
Qed.

(** [compute_W_out] and [compute_W], case by case. *)
Lemma compute_W_out_cases linalg_inv arg s :
  compute_W_out linalg_inv arg s
  = match linalg_inv
            (madd (dot (all_train_args s) (T (all_train_args s)))
                  (mscale (match arg with None => varrho_out s | Some v => v end)
                          (np_eye (size_net s)))) with
    | None => (Raised LinAlgError, s)
    | Some A =>
        (Ok tt,
         set_W_out (T (dot (dot A (all_train_args s)) (T (all_train_outs s)))) s)
    end.
Proof.
  unfold compute_W_out, bind at 1, self. cbv beta iota zeta.
  unfold bind, call. destruct (linalg_inv _) as [A|]; reflexivity.
Qed.

Lemma compute_W_cases linalg_inv np_arctanh arg s :
  compute_W linalg_inv np_arctanh arg s
  = match all_train_args s with
    | [] => (Raised IndexError, s)
    | _ :: _ =>
        match linalg_inv
                (madd (dot (all_train_old_args s) (T (all_train_old_args s)))
                      (mscale (match arg with None => varrho_w s | Some v => v end)
                              (np_eye (size_net s)))) with
        | None => (Raised LinAlgError, s)
        | Some A =>
            (Ok tt,
             set_W (T (dot (dot A (all_train_old_args s))
                           (T (W_targets_of np_arctanh (W_bias s)
                                            (all_train_args s))))) s)
        end
    end.
Proof.
  unfold compute_W, bind at 1, self. cbv beta iota zeta.
  destruct (all_train_args s) as [|r rs] eqn:E; [reflexivity|].
  unfold bind, call. destruct (linalg_inv _) as [A|]; reflexivity.
Qed.

(** ** The two regressions *)


(** X5. With no training data, on a fresh instance or after
    [clean_storage], [compute_W] raises [IndexError] ([all_train_args] is
    1-D and has no [shape[1]]) before it inverts anything, and it assigns
    nothing. *)
Theorem compute_W_without_data :
  forall linalg_inv np_arctanh init_weights arg s size_in_ size_net_ sr_
         in_scale_ bias_scale_ varrho_out_ varrho_w_,
    compute_W linalg_inv np_arctanh arg (snd (clean_storage s))
    = (Raised IndexError, snd (clean_storage s))
    /\ compute_W linalg_inv np_arctanh arg
         (init init_weights size_in_ size_net_ sr_ in_scale_ bias_scale_
               varrho_out_ varrho_w_)
       = (Raised IndexError,
          init init_weights size_in_ size_net_ sr_ in_scale_ bias_scale_
               varrho_out_ varrho_w_).
Proof.
  intros. split.
  - rewrite compute_W_cases, clean_storage_run. reflexivity.
  - rewrite compute_W_cases. unfold init.
    destruct (init_weights _ _ _ _ _) as [[Ws Wi] Wb]. reflexivity.
Qed.

(** ** [train] *)

(** [train] is the loop of drives followed by the two regressions. *)
Lemma train_cases linalg_inv linalg_svd np_arctanh patterns w s :
  train linalg_inv linalg_svd np_arctanh patterns w s
  = match for_each patterns (fun p => drive_reservoir linalg_svd p w) s with
    | (Raised e, t) => (Raised e, t)
    | (Ok _, t) =>
        match compute_W_out linalg_inv (Some (varrho_out t)) t with
        | (Raised e, t1) => (Raised e, t1)
        | (Ok _, t1) => compute_W linalg_inv np_arctanh (Some (varrho_w t1)) t1
        end
    end.
Proof.
  unfold train, bind at 1.
  destruct (for_each patterns _ s) as [[u|e] t]; [|reflexivity].
  unfold bind at 1, self. cbv beta iota. unfold bind at 1.
  destruct (compute_W_out linalg_inv (Some (varrho_out t)) t) as [[u1|e] t1];
    [|reflexivity].
  unfold bind, self. reflexivity.
Qed.

(** X6. A call of [train] that returns has counted every pattern of its
    list, has kept the per-pattern lists in step with the counter, and has
    changed neither the sizes, the coefficients and the fixed weights nor
    the bundle [Cs]. *)
Theorem train_records :
  forall linalg_inv linalg_svd np_arctanh patterns w s s',
    train linalg_inv linalg_svd np_arctanh patterns w s = (Ok tt, s') ->
    num_pattern s' = (num_pattern s + length patterns)%nat
    /\ (records_ok s -> records_ok s')
    /\ same_weights s s'
    /\ Cs s' = Cs s.
Proof.
  intros linalg_inv linalg_svd np_arctanh patterns w s s' Hrun.
  rewrite train_cases in Hrun.
  destruct (for_each patterns _ s) as [[[]|e] t] eqn:Hloop; [|discriminate Hrun].
  destruct (for_each_drive_ok _ _ _ _ _ Hloop)
    as ((Hsw & _ & _ & _ & _ & _ & HCs) & Hnum & Hrec).
  rewrite compute_W_out_cases in Hrun.
  destruct (linalg_inv _) as [A|]; [|discriminate Hrun].
  rewrite compute_W_cases in Hrun.
  cbn [all_train_args all_train_old_args size_net W_bias varrho_w set_W_out]
    in Hrun.
  destruct (all_train_args t) as [|r rs]; [discriminate Hrun|].
  destruct (linalg_inv _) as [B|]; [|discriminate Hrun].
  inversion Hrun; subst s'. clear Hrun.
  cbn [num_pattern Cs set_W set_W_out].
  split; [exact Hnum|]. split; [|split; [exact Hsw | exact HCs]].
  intros H. exact (Hrec H).
Qed.

(** On one neuron the matrix of a ridge regression with a positive
    coefficient is a positive number, which the reference inverse
    accepts. *)
Lemma one_neuron_ridge_inverse L X rho :
  shape 1 L X -> (0 < L)%nat -> 0 < rho ->
  diag_inv (madd (dot X (T X)) (mscale rho (np_eye 1))) <> None.
Proof.
  intros HX HL Hrho.
  assert (HG : shape 1 1 (madd (dot X (T X)) (mscale rho (np_eye 1))))
    by (apply (ridge_matrix_shape 1 L); (assumption || lia)).
  apply diag_inv_one_by_one; [exact HG|].
  rewrite (get_madd 1 1), (get_mscale 1 1), (get_gram 1 L), get_np_eye
    by (try apply shape_np_eye; try apply (shape_dot 1 L 1);
        try apply shape_T; (assumption || lia)).
  cbn [Nat.eqb].
  assert (0 <= sum_n L (fun k => get X 0 k * get X 0 k)).
  { apply sum_n_nonneg. intros k _.
    pose proof (Rle_0_sqr (get X 0 k)) as Hsq. unfold Rsqr in Hsq. exact Hsq. }
  lra.
Qed.

(** The two regressions of [train] on a one-neuron instance that holds
    training data, with positive coefficients and the reference inverse. *)
Lemma regressions_one_neuron np_arctanh L t :
  size_net t = 1%nat -> (0 < L)%nat ->
  shape 1 L (all_train_args t) -> shape 1 L (all_train_old_args t) ->
  0 < varrho_out t -> 0 < varrho_w t ->
  exists A B,
    compute_W_out diag_inv (Some (varrho_out t)) t = (Ok tt, set_W_out A t)
    /\ compute_W diag_inv np_arctanh (Some (varrho_w (set_W_out A t)))
                 (set_W_out A t)
       = (Ok tt, set_W B (set_W_out A t)).
Proof.
  intros Hn HL HX HO Ho Hw.
  pose proof (one_neuron_ridge_inverse L _ _ HX HL Ho) as H1.
  pose proof (one_neuron_ridge_inverse L _ _ HO HL Hw) as H2.
  destruct (diag_inv (madd (dot (all_train_args t) (T (all_train_args t))) _))
    as [A|] eqn:EA; [|contradiction].
  destruct (diag_inv (madd (dot (all_train_old_args t)
                                (T (all_train_old_args t))) _))
    as [B|] eqn:EB; [|contradiction].
  exists (T (dot (dot A (all_train_args t)) (T (all_train_outs t)))),
    (T (dot (dot B (all_train_old_args t))
            (T (W_targets_of np_arctanh (W_bias t) (all_train_args t))))).
  split.
  - rewrite compute_W_out_cases, Hn, EA. reflexivity.
  - rewrite compute_W_cases.
    cbn [all_train_args all_train_old_args varrho_w size_net W_bias set_W_out].
    rewrite Hn, EB.
    destruct (all_train_args t) as [|r rs];
      [destruct HX as [HX _]; discriminate HX | reflexivity].
Qed.

(** [train([unit_pattern], 0)] on [reservoir_1_1] returns. *)
Lemma train_unit_run :
  exists s',
    train diag_inv diag_svd (fun x => x) [unit_pattern] 0 reservoir_1_1
    = (Ok tt, s').
Proof.
  assert (Hn : (0 < size_net reservoir_1_1)%nat) by (cbv; lia).
  assert (Hm : (0 < size_in reservoir_1_1)%nat) by (cbv; lia).
  assert (Hw : (0 <= ncols unit_pattern)%nat) by lia.
  destruct (drive_one_neuron reservoir_1_1 unit_pattern 0)
    as (_ & HsR & HpR & _); [reflexivity | cbv; lia | cbv; lia |].
  assert (E := drive_reservoir_run diag_svd reservoir_1_1 unit_pattern 0
                 (np_eye 1) _ (np_eye 1) Hn Hm Hw
                 (diag_svd_one_by_one _ HsR HpR)).
  rewrite train_cases. cbn [for_each]. unfold bind. rewrite E. unfold ret.
  match goal with
  | |- context [compute_W_out _ _ ?t] =>
      destruct (regressions_one_neuron (fun x => x) 1 t) as (A & B & HA & HB)
  end.
  - reflexivity.
  - lia.
  - cbn [all_train_args]. rewrite aggregate_nil.
    apply (shape_harvested_states reservoir_1_1 unit_pattern 0).
  - cbn [all_train_old_args]. rewrite aggregate_nil.
    apply (shape_harvested_old_states reservoir_1_1 unit_pattern 0).
  - cbn. lra.
  - cbn. lra.
  - rewrite HA, HB. eexists. reflexivity.
Qed.

Lemma train_records_example :
  exists s',
    train diag_inv diag_svd (fun x => x) [unit_pattern] 0 reservoir_1_1
    = (Ok tt, s')
    /\ num_pattern s' = (num_pattern reservoir_1_1 + 1)%nat
    /\ (records_ok reservoir_1_1 -> records_ok s')
    /\ same_weights reservoir_1_1 s'
    /\ Cs s' = Cs reservoir_1_1.
Proof.
  destruct train_unit_run as (s' & Hrun).
  exists s'. split; [exact Hrun|].
  exact (train_records diag_inv diag_svd (fun x => x) [unit_pattern] 0
           reservoir_1_1 s' Hrun).
Defined.

(** A drive reads neither [W_out] nor [W]: on an instance whose trained
    weights have been replaced it does what it does on the instance
    itself. *)
Lemma drive_reservoir_trained linalg_svd p w A B t :
  drive_reservoir linalg_svd p w (set_W B (set_W_out A t))
  = (fst (drive_reservoir linalg_svd p w t),
     set_W B (set_W_out A (snd (drive_reservoir linalg_svd p w t)))).
Proof.
  rewrite !drive_reservoir_cases.
  change (harvest_of (set_W B (set_W_out A t)) p w) with (harvest_of t p w).
  destruct (Nat.ltb (ncols p) w); [reflexivity|].
  cbv zeta. destruct (linalg_svd _) as [[[Ux Sx] Vt]|]; reflexivity.
Qed.

Lemma for_each_drive_trained linalg_svd w A B patterns : forall t,
  for_each patterns (fun p => drive_reservoir linalg_svd p w)
           (set_W B (set_W_out A t))
  = (fst (for_each patterns (fun p => drive_reservoir linalg_svd p w) t),
     set_W B (set_W_out A
       (snd (for_each patterns (fun p => drive_reservoir linalg_svd p w) t)))).
Proof.
  induction patterns as [|p ps IH]; intros t; [reflexivity|].
  cbn [for_each]. unfold bind. rewrite drive_reservoir_trained.
  destruct (drive_reservoir linalg_svd p w t) as [[[]|e] t1]; cbn [fst snd].
  - apply IH.
  - reflexivity.
Qed.

(** X7. Training in two calls is training in one: after a call of [train]
    on [patterns1] that returned, [train] on [patterns2] ends as [train] on
    [patterns1 ++ patterns2] would have ended on the instance of before;
    when it returns, the two instances are the same, trained weights
    included. *)
Theorem train_incremental :
  forall linalg_inv linalg_svd np_arctanh patterns1 patterns2 w s s1,
    train linalg_inv linalg_svd np_arctanh patterns1 w s = (Ok tt, s1) ->
    fst (train linalg_inv linalg_svd np_arctanh patterns2 w s1)
    = fst (train linalg_inv linalg_svd np_arctanh (patterns1 ++ patterns2) w s)
    /\ (fst (train linalg_inv linalg_svd np_arctanh patterns2 w s1) = Ok tt ->
        snd (train linalg_inv linalg_svd np_arctanh patterns2 w s1)
        = snd (train linalg_inv linalg_svd np_arctanh
                     (patterns1 ++ patterns2) w s)).
Proof.
  intros linalg_inv linalg_svd np_arctanh ps1 ps2 w s s1 Hrun.
  rewrite train_cases in Hrun.
  destruct (for_each ps1 _ s) as [[[]|e] t1] eqn:Hloop; [|discriminate Hrun].
  rewrite compute_W_out_cases in Hrun.
  destruct (linalg_inv _) as [A|]; [|discriminate Hrun].
  rewrite compute_W_cases in Hrun.
  cbn [all_train_args all_train_old_args size_net W_bias varrho_w set_W_out]
    in Hrun.
  destruct (all_train_args t1) as [|r rs]; [discriminate Hrun|].
  destruct (linalg_inv _) as [B|]; [|discriminate Hrun].
  inversion Hrun as [Hs1]. clear Hrun.
  rewrite !train_cases, for_each_app, Hloop, for_each_drive_trained.
  destruct (for_each ps2 _ t1) as [[[]|e] t2]; cbn [fst snd].
  - rewrite !compute_W_out_cases.
    cbn [all_train_args all_train_outs size_net varrho_out set_W set_W_out].
    destruct (linalg_inv _) as [A2|].
    + rewrite !compute_W_cases.
      cbn [all_train_args all_train_old_args size_net W_bias varrho_w
           set_W set_W_out].
      destruct (all_train_args t2) as [|r2 rs2].
      * split; [reflexivity|]. intros H; discriminate H.
      * destruct (linalg_inv _) as [B2|].
        -- split; reflexivity.
        -- split; [reflexivity|]. intros H; discriminate H.
    + split; [reflexivity|]. intros H; discriminate H.
  - split; [reflexivity|]. intros H; discriminate H.
Qed.

Lemma train_incremental_example :
  exists s1,
    train diag_inv diag_svd (fun x => x) [unit_pattern] 0 reservoir_1_1
    = (Ok tt, s1)
    /\ fst (train diag_inv diag_svd (fun x => x) [two_step_pattern] 0 s1)
       = fst (train diag_inv diag_svd (fun x => x)
                    ([unit_pattern] ++ [two_step_pattern]) 0 reservoir_1_1)
    /\ (fst (train diag_inv diag_svd (fun x => x) [two_step_pattern] 0 s1)
        = Ok tt ->
        snd (train diag_inv diag_svd (fun x => x) [two_step_pattern] 0 s1)
        = snd (train diag_inv diag_svd (fun x => x)
                     ([unit_pattern] ++ [two_step_pattern]) 0 reservoir_1_1)).
Proof.
  destruct train_unit_run as (s1 & Hrun).
  exists s1. split; [exact Hrun|].
  exact (train_incremental diag_inv diag_svd (fun x => x) [unit_pattern]
           [two_step_pattern] 0 reservoir_1_1 s1 Hrun).
Defined.

(** ** [__init__] and [clean_storage] *)

(** X8. [clean_storage] brings every instance to the one that [__init__]
    builds from the same sizes, coefficients and weights, but for the
    counter [num_pattern], which it keeps; so it changes nothing on a fresh
    instance, and a second call changes nothing. *)
Theorem clean_storage_reinitialises :
  forall s init_weights size_in_ size_net_ sr_ in_scale_ bias_scale_
         varrho_out_ varrho_w_,
    snd (clean_storage s)
    = set_num_pattern (num_pattern s)
        (init (fixed_weights (W_star s, W_in s, W_bias s))
              (size_in s) (size_net s) (sr s) (in_scale s) (bias_scale s)
              (varrho_out s) (varrho_w s))
    /\ clean_storage (init init_weights size_in_ size_net_ sr_ in_scale_
                           bias_scale_ varrho_out_ varrho_w_)
       = (Ok tt, init init_weights size_in_ size_net_ sr_ in_scale_
                      bias_scale_ varrho_out_ varrho_w_)
    /\ clean_storage (snd (clean_storage s)) = clean_storage s.
Proof.
  intros. split; [|split].
  - rewrite clean_storage_run. reflexivity.
  - rewrite clean_storage_run. unfold init.
    destruct (init_weights _ _ _ _ _) as [[Ws Wi] Wb]. reflexivity.
  - rewrite !clean_storage_run. reflexivity.
Qed.

(** ** [compute_projector] and [compute_projectors] *)



(** X10. [clean_storage] empties [pattern_Rs] but keeps the counter, so on
    an instance that had counted a pattern the next [compute_projectors]
    raises [IndexError] at [pattern_Rs[0]], whatever the apertures, and
    leaves the emptied instance as it is. *)
Theorem compute_projectors_after_clean_storage :
  forall linalg_inv linalg_svd alphas s,
    (0 < num_pattern s)%nat ->
    compute_projectors linalg_inv linalg_svd alphas (snd (clean_storage s))
    = (Raised IndexError, snd (clean_storage s)).
Proof.
  intros linalg_inv linalg_svd alphas s Hnum.
  rewrite clean_storage_run. cbn [snd].
  unfold compute_projectors, bind at 1, self. cbv beta iota. cbn [Cs].
  unfold bind at 1.
  match goal with
  | |- context [reset_Cs ?t] => change (reset_Cs t) with (Ok tt, t)
  end.
  cbv beta iota. unfold bind at 1, self. cbv beta iota. cbn [num_pattern].
  destruct (num_pattern s) as [|k]; [lia|].
  cbn [seq for_each]. unfold bind at 1.
  unfold projector_step, bind at 1, self. cbv beta iota.
  cbn [pattern_Rs]. unfold bind at 1, index, call. cbn [nth_error].
  reflexivity.
Qed.

Lemma compute_projectors_after_clean_storage_example :
  compute_projectors diag_inv diag_svd [1] (snd (clean_storage driven_once))
  = (Raised IndexError, snd (clean_storage driven_once)).
Proof.
  apply (compute_projectors_after_clean_storage diag_inv diag_svd [1] driven_once).
  destruct driven_once_facts as (Rm & _ & _ & _ & _ & _ & Hnum & _).
  rewrite Hnum. lia.
Defined.

(** The four lists of a bundle grow together. *)
Lemma bundle_lengths linalg_svd alpha n Rs : forall c0 c1 c2 c3 k,
  Forall (svd_ok linalg_svd n) Rs ->
  length c0 = k -> length c1 = k -> length c2 = k -> length c3 = k ->
  exists d0 d1 d2 d3,
    fold_left (append_projector linalg_svd alpha) Rs [c0; c1; c2; c3]
    = [d0; d1; d2; d3]
    /\ length d0 = (k + length Rs)%nat /\ length d1 = (k + length Rs)%nat
    /\ length d2 = (k + length Rs)%nat /\ length d3 = (k + length Rs)%nat.
Proof.
  induction Rs as [|R_ Rs IH]; intros c0 c1 c2 c3 k Hall H0 H1 H2 H3.
  - exists c0, c1, c2, c3. cbn [fold_left length]. repeat split; lia.
  - destruct (Forall_inv Hall) as (U & S_ & Vt & Hsvd & _).
    pose proof (Forall_inv_tail Hall) as Hrest.
    cbn [fold_left]. unfold append_projector at 2. rewrite Hsvd.
    destruct (IH (c0 ++ [Arr2 (conj_diag U (shrink (powerRZ alpha (-2)) S_))])
                 (c1 ++ [Arr2 U])
                 (c2 ++ [Arr1 (shrink (powerRZ alpha (-2)) S_)])
                 (c3 ++ [Arr1 S_]) (S k) Hrest)
      as (d0 & d1 & d2 & d3 & E & L0 & L1 & L2 & L3);
      try (rewrite length_app; cbn [length]; lia).
    exists d0, d1, d2, d3. split; [exact E|].
    cbn [length]. repeat split; lia.
Qed.

(** X11. When the records are in step with the counter, every recorded
    correlation matrix has an SVD with non-negative values and there are
    enough apertures, [compute_projectors] returns; the bundle then is the
    one of the recorded matrices at the default aperture 10, each of its
    four lists holds one entry for each pattern, and calling
    [compute_projectors] again, with these or other apertures, changes
    nothing. *)
Theorem compute_projectors_bundle :
  forall linalg_inv linalg_svd alphas alphas' s,
    inv_sound linalg_inv -> inv_total_on_diag linalg_inv ->
    Cs s <> [] ->
    num_pattern s = length (pattern_Rs s) ->
    (num_pattern s <= length alphas)%nat ->
    (num_pattern s <= length alphas')%nat ->
    (0 < size_net s)%nat ->
    Forall (svd_ok linalg_svd (size_net s)) (pattern_Rs s) ->
    exists s',
      compute_projectors linalg_inv linalg_svd alphas s = (Ok tt, s')
      /\ s' = set_Cs (bundle_of linalg_svd default_alpha (pattern_Rs s)) s
      /\ (exists d0 d1 d2 d3,
             Cs s' = [d0; d1; d2; d3]
             /\ length d0 = num_pattern s /\ length d1 = num_pattern s
             /\ length d2 = num_pattern s /\ length d3 = num_pattern s)
      /\ compute_projectors linalg_inv linalg_svd alphas' s' = (Ok tt, s').
Proof.
  intros linalg_inv linalg_svd alphas alphas' s Hinv Hdiag HCs Hnum Hal Hal'
         Hn Hall.
  eexists. split;
    [apply (compute_projectors_run linalg_inv linalg_svd Hinv Hdiag);
     assumption|].
  split; [reflexivity|].
  destruct (bundle_lengths linalg_svd default_alpha (size_net s) (pattern_Rs s)
              [] [] [] [] 0 Hall eq_refl eq_refl eq_refl eq_refl)
    as (d0 & d1 & d2 & d3 & E & L0 & L1 & L2 & L3).
  fold (bundle_of linalg_svd default_alpha (pattern_Rs s)) in E.
  split.
  - exists d0, d1, d2, d3. cbn [Cs set_Cs]. split; [exact E|].
    rewrite Hnum. repeat split; assumption.
  - rewrite (compute_projectors_run linalg_inv linalg_svd Hinv Hdiag);
      cbn [Cs num_pattern pattern_Rs size_net set_Cs]; try assumption.
    + reflexivity.
    + rewrite E. discriminate.
Qed.

Lemma compute_projectors_bundle_example :
  exists s',
    compute_projectors diag_inv diag_svd [1] driven_once = (Ok tt, s')
    /\ s' = set_Cs (bundle_of diag_svd default_alpha (pattern_Rs driven_once))
                   driven_once
    /\ (exists d0 d1 d2 d3,
           Cs s' = [d0; d1; d2; d3]
           /\ length d0 = num_pattern driven_once
           /\ length d1 = num_pattern driven_once
           /\ length d2 = num_pattern driven_once
           /\ length d3 = num_pattern driven_once)
    /\ compute_projectors diag_inv diag_svd [2; 3] s' = (Ok tt, s').
Proof.
  destruct driven_once_facts
    as (Rm & _ & HRs & HsR & HpR & _ & Hnum & Hn & _ & HCs).
  apply (compute_projectors_bundle diag_inv diag_svd [1] [2; 3] driven_once).
  - exact diag_inv_sound.
  - exact diag_inv_total_on_diag.
  - rewrite HCs. discriminate.
  - rewrite Hnum, HRs. reflexivity.
  - rewrite Hnum. simpl. lia.
  - rewrite Hnum. simpl. lia.
  - rewrite Hn. lia.
  - rewrite HRs, Hn. constructor; [|constructor].
    apply svd_ok_one_by_one; assumption.
Defined.

(** X12. The values of the apertures never reach [compute_projector]:
    [compute_projectors] only indexes [alphas], so two aperture lists of one
    length give the same outcome and the same instance. *)
Theorem compute_projectors_ignores_apertures :
  forall linalg_inv linalg_svd alphas alphas' s,
    length alphas = length alphas' ->
    compute_projectors linalg_inv linalg_svd alphas s
    = compute_projectors linalg_inv linalg_svd alphas' s.
Proof.
  intros linalg_inv linalg_svd alphas alphas' s Hlen.
  apply compute_projectors_apertures. exact Hlen.
Qed.

Lemma compute_projectors_ignores_apertures_example :
  compute_projectors diag_inv diag_svd [1] driven_once
  = compute_projectors diag_inv diag_svd [1000] driven_once.
Proof.
  apply (compute_projectors_ignores_apertures diag_inv diag_svd [1] [1000]
           driven_once).
  reflexivity.
Defined.

(** X13. With fewer apertures than counted patterns [compute_projectors]
    raises [IndexError] at the first pattern without an aperture; the
    bundle then holds the conceptors of the patterns before that one, and
    it is empty when [alphas] is. *)
Theorem compute_projectors_too_few_apertures :
  forall linalg_inv linalg_svd alphas s,
    inv_sound linalg_inv -> inv_total_on_diag linalg_inv ->
    Cs s <> [] ->
    num_pattern s = length (pattern_Rs s) ->
    (length alphas < num_pattern s)%nat ->
    (0 < size_net s)%nat ->
    Forall (svd_ok linalg_svd (size_net s))
           (firstn (length alphas) (pattern_Rs s)) ->
    compute_projectors linalg_inv linalg_svd alphas s
    = (Raised IndexError,
       set_Cs (bundle_of linalg_svd default_alpha
                         (firstn (length alphas) (pattern_Rs s))) s)
    /\ (alphas = [] ->
        Cs (snd (compute_projectors linalg_inv linalg_svd alphas s))
        = [[]; []; []; []]).
Proof.
  intros linalg_inv linalg_svd alphas s Hinv Hdiag HCs Hnum Hal Hn Hall.
  assert (E := compute_projectors_short linalg_inv linalg_svd Hinv Hdiag
                 alphas s HCs Hnum Hal Hn Hall).
  split; [exact E|].
  intros Hnil. rewrite E. subst alphas. reflexivity.
Qed.

Lemma compute_projectors_too_few_apertures_example :
  compute_projectors diag_inv diag_svd [] driven_once
  = (Raised IndexError,
     set_Cs (bundle_of diag_svd default_alpha
               (firstn (length (@nil R)) (pattern_Rs driven_once))) driven_once)
  /\ (@nil R = [] ->
      Cs (snd (compute_projectors diag_inv diag_svd [] driven_once))
      = [[]; []; []; []]).
Proof.
  destruct driven_once_facts
    as (Rm & _ & HRs & HsR & HpR & _ & Hnum & Hn & _ & HCs).
  apply (compute_projectors_too_few_apertures diag_inv diag_svd [] driven_once).
  - exact diag_inv_sound.
  - exact diag_inv_total_on_diag.
  - rewrite HCs. discriminate.
  - rewrite Hnum, HRs. reflexivity.
  - rewrite Hnum. simpl. lia.
  - rewrite Hn. lia.
  - constructor.
Defined.

(** ** The regressions in closed form *)

(** The closed form [U.X^T.(X.X^T + rho.I)^(-1)] of the expression that
    both regressions evaluate, its normal equation and its minimality. *)
Lemma ridge_closed_form linalg_inv n m L X U rho A :
  inv_sound linalg_inv ->
  (0 < n)%nat -> (0 < m)%nat -> (0 < L)%nat ->
  shape n L X -> shape m L U ->
  linalg_inv (madd (dot X (T X)) (mscale rho (np_eye n))) = Some A ->
  T (dot (dot A X) (T U)) = dot (dot U (T X)) A
  /\ shape m n (dot (dot U (T X)) A)
  /\ dot (dot (dot U (T X)) A) (madd (dot X (T X)) (mscale rho (np_eye n)))
     = dot U (T X)
  /\ (0 <= rho ->
      forall V, shape m n V ->
        ridge_cost X U rho (dot (dot U (T X)) A) <= ridge_cost X U rho V).
Proof.
  intros Hinv Hn Hm HL HX HU HA.
  assert (HG : shape n n (madd (dot X (T X)) (mscale rho (np_eye n))))
    by (apply (ridge_matrix_shape n L); assumption).
  destruct (Hinv n _ A Hn HG HA) as (HsA & HAG & HGA).
  assert (HTA : T A = A).
  { apply (inverse_symmetric n (madd (dot X (T X)) (mscale rho (np_eye n))));
      try assumption.
    apply (ridge_matrix_symmetric n L); assumption. }
  assert (HTX : shape L n (T X)) by (apply shape_T; assumption).
  assert (HTU : shape L m (T U)) by (apply shape_T; assumption).
  assert (HAX : shape n L (dot A X)) by (apply (shape_dot n n L); assumption).
  assert (HUX : shape m n (dot U (T X))) by (apply (shape_dot m L n); assumption).
  assert (HW : shape m n (dot (dot U (T X)) A))
    by (apply (shape_dot m n n); assumption).
  assert (Hnormal : dot (dot (dot U (T X)) A)
                        (madd (dot X (T X)) (mscale rho (np_eye n)))
                    = dot U (T X)).
  { rewrite (dot_assoc m n n n) by assumption.
    rewrite HAG. apply (dot_eye_r m n); assumption. }
  split.
  { rewrite (T_dot n L m) by assumption.
    rewrite (T_T m L) by assumption.
    rewrite (T_dot n n L) by assumption.
    rewrite HTA. symmetry. apply (dot_assoc m L n n); assumption. }
  split; [exact HW|]. split; [exact Hnormal|].
  intros Hrho V HV.
  apply (ridge_minimizer n m L X U (dot (dot U (T X)) A) rho); assumption.
Qed.

(** X14. Once the aggregated matrices hold [L >= 1] columns, [compute_W]
    (whose inversion answers) assigns
    [W = W_targets.X_old^T.(X_old.X_old^T + varrho_w.I)^(-1)] with
    [W_targets = arctanh(X) - W_bias] (the bias repeated in every column),
    and for [varrho_w >= 0] no [size_net] by [size_net] matrix has a smaller
    value of [||V.X_old - W_targets||^2 + varrho_w.||V||^2]. *)
Theorem compute_W_ridge :
  forall linalg_inv np_arctanh s varrho_w_arg n L A,
    inv_sound linalg_inv ->
    size_net s = n -> (0 < n)%nat -> (0 < L)%nat ->
    shape n L (all_train_args s) -> shape n L (all_train_old_args s) ->
    shape n 1 (W_bias s) ->
    linalg_inv
      (madd (dot (all_train_old_args s) (T (all_train_old_args s)))
            (mscale (match varrho_w_arg with
                     | None => varrho_w s
                     | Some v => v
                     end) (np_eye n))) = Some A ->
    exists W_,
      compute_W linalg_inv np_arctanh varrho_w_arg s = (Ok tt, set_W W_ s)
      /\ W_ = dot (dot (W_targets_of np_arctanh (W_bias s) (all_train_args s))
                       (T (all_train_old_args s))) A
      /\ shape n n W_
      /\ (forall i l, (i < n)%nat -> (l < L)%nat ->
            get (W_targets_of np_arctanh (W_bias s) (all_train_args s)) i l
            = np_arctanh (get (all_train_args s) i l) - get (W_bias s) i 0)
      /\ (0 <= match varrho_w_arg with
               | None => varrho_w s
               | Some v => v
               end ->
          forall V, shape n n V ->
            ridge_cost (all_train_old_args s)
                       (W_targets_of np_arctanh (W_bias s) (all_train_args s))
                       (match varrho_w_arg with
                        | None => varrho_w s
                        | Some v => v
                        end) W_
            <= ridge_cost (all_train_old_args s)
                          (W_targets_of np_arctanh (W_bias s) (all_train_args s))
                          (match varrho_w_arg with
                           | None => varrho_w s
                           | Some v => v
                           end) V).
Proof.
  intros linalg_inv np_arctanh s varrho_w_arg n L A Hinv Hsize Hn HL HX HO HWb HA.
  set (rho := match varrho_w_arg with None => varrho_w s | Some v => v end) in *.
  assert (HT : shape n L (W_targets_of np_arctanh (W_bias s) (all_train_args s)))
    by (apply (shape_W_targets np_arctanh (W_bias s) n); assumption).
  destruct (ridge_closed_form linalg_inv n n L (all_train_old_args s)
              (W_targets_of np_arctanh (W_bias s) (all_train_args s)) rho A
              Hinv Hn Hn HL HO HT HA)
    as (HW & HsW & _ & Hmin).
  exists (dot (dot (W_targets_of np_arctanh (W_bias s) (all_train_args s))
                   (T (all_train_old_args s))) A).
  split.
  - rewrite compute_W_cases. fold rho. rewrite Hsize, HA.
    destruct (all_train_args s) as [|r rs];
      [destruct HX as [HX _]; simpl in HX; lia|].
    rewrite HW. reflexivity.
  - split; [reflexivity|]. split; [exact HsW|]. split; [|exact Hmin].
    intros i l Hi Hl.
    apply (get_W_targets np_arctanh (W_bias s) n Hn HWb L); assumption.
Qed.

Lemma driven_once_lagged_data :
  all_train_old_args driven_once
  = harvested_old_states reservoir_1_1 unit_pattern 0
  /\ varrho_w driven_once = 0.0001
  /\ W_bias driven_once = [[0]].
Proof.
  destruct (drive_one_neuron reservoir_1_1 unit_pattern 0)
    as (_ & HsR & HpR & _); [reflexivity | cbv; lia | cbv; lia |].
  unfold driven_once.
  rewrite (drive_reservoir_run diag_svd reservoir_1_1 unit_pattern 0
             (np_eye 1) _ (np_eye 1)
             ltac:(cbv; lia) ltac:(cbv; lia) ltac:(cbv; lia)
             (diag_svd_one_by_one _ HsR HpR)).
  cbn [snd all_train_old_args varrho_w W_bias].
  repeat split.
Qed.

(** The loading of [reservoir_1_1] driven once by [unit_pattern]. *)
Lemma compute_W_ridge_example :
  exists A W_,
    compute_W diag_inv (fun x => x) None driven_once
    = (Ok tt, set_W W_ driven_once)
    /\ W_ = dot (dot (W_targets_of (fun x => x) (W_bias driven_once)
                                   (all_train_args driven_once))
                     (T (all_train_old_args driven_once))) A
    /\ shape 1 1 W_
    /\ forall V, shape 1 1 V ->
         ridge_cost (all_train_old_args driven_once)
                    (W_targets_of (fun x => x) (W_bias driven_once)
                                  (all_train_args driven_once))
                    (varrho_w driven_once) W_
         <= ridge_cost (all_train_old_args driven_once)
                       (W_targets_of (fun x => x) (W_bias driven_once)
                                     (all_train_args driven_once))
                       (varrho_w driven_once) V.
Proof.
  destruct driven_once_training_data as (Hx & _ & _ & Hn).
  destruct driven_once_lagged_data as (Ho & Hrho & Hb).
  assert (HX : shape 1 1 (all_train_args driven_once))
    by (rewrite Hx; apply (shape_harvested_states reservoir_1_1 unit_pattern 0)).
  assert (HO : shape 1 1 (all_train_old_args driven_once))
    by (rewrite Ho;
        apply (shape_harvested_old_states reservoir_1_1 unit_pattern 0)).
  assert (HWb : shape 1 1 (W_bias driven_once))
    by (rewrite Hb; split; [reflexivity | repeat constructor]).
  destruct (diag_inv (madd (dot (all_train_old_args driven_once)
                                (T (all_train_old_args driven_once)))
                           (mscale (varrho_w driven_once) (np_eye 1))))
    as [A|] eqn:EA.
  - destruct (compute_W_ridge diag_inv (fun x => x) driven_once None 1 1 A)
      as (W_ & H1 & H2 & H3 & _ & H5).
    + exact diag_inv_sound.
    + exact Hn.
    + lia.
    + lia.
    + exact HX.
    + exact HO.
    + exact HWb.
    + exact EA.
    + exists A, W_. split; [exact H1|]. split; [exact H2|].
      split; [exact H3|]. apply H5. rewrite Hrho. lra.
  - exfalso. revert EA.
    apply (one_neuron_ridge_inverse 1); [exact HO | lia | rewrite Hrho; lra].
Defined.

(** X15. Without regularisation the readout regression recovers a linear
    readout exactly: when the aggregated inputs are [W0.X] for the
    aggregated states [X] and the inversion of [X.X^T] answers,
    [compute_W_out(0)] assigns [W_out = W0], so that [W_out.X] is the
    aggregated input. *)
Theorem compute_W_out_exact_recovery :
  forall linalg_inv s n m L W0 A,
    inv_sound linalg_inv ->
    size_net s = n -> (0 < n)%nat -> (0 < m)%nat -> (0 < L)%nat ->
    shape n L (all_train_args s) -> shape m n W0 ->
    all_train_outs s = dot W0 (all_train_args s) ->
    linalg_inv (madd (dot (all_train_args s) (T (all_train_args s)))
                     (mscale 0 (np_eye n))) = Some A ->
    compute_W_out linalg_inv (Some 0) s = (Ok tt, set_W_out W0 s)
    /\ dot W0 (all_train_args s) = all_train_outs s.
Proof.
  intros linalg_inv s n m L W0 A Hinv Hsize Hn Hm HL HX HW0 HU HA.
  set (X := all_train_args s) in *.
  assert (HUs : shape m L (all_train_outs s))
    by (rewrite HU; apply (shape_dot m n L); assumption).
  destruct (ridge_closed_form linalg_inv n m L X (all_train_outs s) 0 A
              Hinv Hn Hm HL HX HUs HA) as (HT & _ & _ & _).
  assert (HG : shape n n (madd (dot X (T X)) (mscale 0 (np_eye n))))
    by (apply (ridge_matrix_shape n L); assumption).
  destruct (Hinv n _ A Hn HG HA) as (HsA & HAG & HGA).
  assert (HTX : shape L n (T X)) by (apply shape_T; assumption).
  assert (HXX : shape n n (dot X (T X))) by (apply (shape_dot n L n); assumption).
  assert (Hzero : madd (dot X (T X)) (mscale 0 (np_eye n)) = dot X (T X)).
  { apply (mat_ext n n); [exact HG | exact HXX |].
    intros i j Hi Hj.
    rewrite (get_madd n n), (get_mscale n n)
      by (try apply shape_np_eye; assumption).
    lra. }
  split; [|symmetry; exact HU].
  rewrite compute_W_out_cases. rewrite Hsize. fold X. rewrite HA, HT.
  f_equal. f_equal.
  rewrite HU. fold X.
  rewrite (dot_assoc m n L n W0 X (T X)) by assumption.
  rewrite (dot_assoc m n n n W0 (dot X (T X)) A) by assumption.
  rewrite <- Hzero, HGA.
  apply (dot_eye_r m n); assumption.
Qed.

Lemma shape_singleton x : shape 1 1 [[x]].
Proof. split; [reflexivity | repeat constructor]. Qed.

(** The state that [reservoir_1_1] reaches on [unit_pattern]. *)
Lemma unit_harvest :
  harvested_states reservoir_1_1 unit_pattern 0 = [[tanh 1]]
  /\ harvested_old_states reservoir_1_1 unit_pattern 0 = [[0]]
  /\ harvested_inputs reservoir_1_1 unit_pattern 0 = [[1]].
Proof.
  assert (E : harvested_states reservoir_1_1 unit_pattern 0
              = [[tanh (0 + 3 / 2 * 0 + (0 + 1 * 1) + 0)]]) by reflexivity.
  split; [|split; reflexivity].
  rewrite E. do 3 f_equal. lra.
Qed.

(** On [reservoir_1_1] driven once by [unit_pattern] the input [1] is the
    state [tanh 1] times [1 / tanh 1], and [compute_W_out(0)] finds that
    readout. *)
Lemma compute_W_out_exact_recovery_example :
  compute_W_out diag_inv (Some 0) driven_once
  = (Ok tt, set_W_out [[/ tanh 1]] driven_once)
  /\ dot [[/ tanh 1]] (all_train_args driven_once) = all_train_outs driven_once.
Proof.
  destruct driven_once_training_data as (Hx & Hu & _ & Hn).
  destruct unit_harvest as (EX & _ & EU).
  pose proof (tanh_pos 1 Rlt_0_1) as Ht.
  assert (HX : shape 1 1 (all_train_args driven_once))
    by (rewrite Hx; apply (shape_harvested_states reservoir_1_1 unit_pattern 0)).
  assert (HW0 : shape 1 1 [[/ tanh 1]]) by apply shape_singleton.
  assert (HU : all_train_outs driven_once
               = dot [[/ tanh 1]] (all_train_args driven_once)).
  { rewrite Hu, Hx, EX, EU.
    apply (mat_ext 1 1);
      [apply shape_singleton
      | apply (shape_dot 1 1 1); first [apply shape_singleton | lia] |].
    intros i j Hi Hj. assert (i = 0%nat) by lia. assert (j = 0%nat) by lia.
    subst i j.
    rewrite (get_dot 1 1 1 [[/ tanh 1]] [[tanh 1]])
      by first [apply shape_singleton | lia].
    cbn [sum_n get nth]. field. lra. }
  destruct (diag_inv (madd (dot (all_train_args driven_once)
                                (T (all_train_args driven_once)))
                           (mscale 0 (np_eye 1)))) as [A|] eqn:EA.
  - apply (compute_W_out_exact_recovery diag_inv driven_once 1 1 1
             [[/ tanh 1]] A).
    + exact diag_inv_sound.
    + exact Hn.
    + lia.
    + lia.
    + lia.
    + exact HX.
    + exact HW0.
    + exact HU.
    + exact EA.
  - exfalso. revert EA.
    apply diag_inv_one_by_one.
    + apply (ridge_matrix_shape 1 1); (assumption || lia).
    + rewrite (get_madd 1 1), (get_mscale 1 1), (get_gram 1 1), get_np_eye
        by (try apply shape_np_eye; try apply (shape_dot 1 1 1);
            try apply shape_T; (assumption || lia)).
      rewrite Hx, EX. cbn [sum_n get nth Nat.eqb].
      assert (0 < tanh 1 * tanh 1) by (apply Rmult_lt_0_compat; assumption).
      lra.
Defined.

(** ** States between -1 and 1 *)


Lemma atanh_tanh x : atanh (tanh x) = x.
Proof.
  unfold atanh.
  replace ((1 + tanh x) / (1 - tanh x)) with (exp (x + x)).
  - rewrite ln_exp. lra.
  - rewrite exp_plus. unfold tanh, sinh, cosh. rewrite exp_Ropp.
    pose proof (exp_pos x) as Ha. set (a := exp x) in *.
    assert (0 < a * a) by (apply Rmult_lt_0_compat; exact Ha).
    field. repeat split; lra.
Qed.

(** An entry of [np.tanh(M)], in or out of range, is [tanh] of the entry
    of [M]. *)
Lemma get_np_tanh_any M i j : get (np_tanh M) i j = tanh (get M i j).
Proof.
  unfold get, np_tanh.
  change (@nil R) with (map tanh []) at 1. rewrite map_nth.
  rewrite <- tanh_0 at 1. apply map_nth.
Qed.




(** The instance that a drive leaves, in terms of the trajectory. *)
Lemma drive_reservoir_returns linalg_svd pattern w s s' :
  (0 < size_net s)%nat -> (0 < size_in s)%nat -> (w <= ncols pattern)%nat ->
  drive_reservoir linalg_svd pattern w s = (Ok tt, s') ->
  exists Ux Sx Vt,
    linalg_svd (correlation_of s w pattern) = Some (Ux, Sx, Vt)
    /\ x_collectors s' = x_collectors s ++ [harvested_states s pattern w]
    /\ pattern_Rs s' = pattern_Rs s ++ [correlation_of s w pattern]
    /\ UR_collectors s' = UR_collectors s ++ [Ux]
    /\ SR_collectors s' = SR_collectors s ++ [Sx]
    /\ pattern_collectors s'
       = pattern_collectors s ++ [harvested_inputs s pattern w]
    /\ all_train_args s'
       = aggregate (all_train_args s) (harvested_states s pattern w)
    /\ all_train_old_args s'
       = aggregate (all_train_old_args s) (harvested_old_states s pattern w)
    /\ all_train_outs s'
       = aggregate (all_train_outs s) (harvested_inputs s pattern w).
Proof.
  intros Hn Hm Hw Hrun.
  destruct (harvest_of_collectors s pattern w Hn Hm Hw) as (EX & EO & EU).
  rewrite drive_reservoir_cases in Hrun.
  destruct (Nat.ltb_spec (ncols pattern) w) as [Hlt|_]; [lia|].
  cbv zeta in Hrun. rewrite EX in Hrun.
  fold (correlation_of s w pattern) in Hrun.
  destruct (linalg_svd (correlation_of s w pattern)) as [[[Ux Sx] Vt]|];
    [|discriminate Hrun].
  inversion Hrun as [Hs']. clear Hrun.
  exists Ux, Sx, Vt. split; [reflexivity|].
  unfold driven. cbv zeta.
  cbn [x_collectors pattern_Rs UR_collectors SR_collectors pattern_collectors
       all_train_args all_train_old_args all_train_outs].
  rewrite EX, EO, EU. repeat split.
Qed.



(** ** What a drive records does not depend on what is stored *)

(** X17. Every call of [drive_reservoir] starts from the zero state, so
    what it records depends on the weights and the pattern alone: on two
    instances with the same sizes and weights, whatever they have stored,
    drives of one pattern that return append the same harvested states, the
    same correlation matrix with the same decomposition, and the same
    inputs. *)
Theorem drive_reservoir_memoryless :
  forall linalg_svd pattern w s t s' t',
    same_weights s t ->
    (0 < size_net s)%nat -> (0 < size_in s)%nat -> (w < ncols pattern)%nat ->
    drive_reservoir linalg_svd pattern w s = (Ok tt, s') ->
    drive_reservoir linalg_svd pattern w t = (Ok tt, t') ->
    exists X Rm Ux Sx U,
      (x_collectors s' = x_collectors s ++ [X]
       /\ x_collectors t' = x_collectors t ++ [X])
      /\ (pattern_Rs s' = pattern_Rs s ++ [Rm]
          /\ pattern_Rs t' = pattern_Rs t ++ [Rm])
      /\ (UR_collectors s' = UR_collectors s ++ [Ux]
          /\ UR_collectors t' = UR_collectors t ++ [Ux])
      /\ (SR_collectors s' = SR_collectors s ++ [Sx]
          /\ SR_collectors t' = SR_collectors t ++ [Sx])
      /\ (pattern_collectors s' = pattern_collectors s ++ [U]
          /\ pattern_collectors t' = pattern_collectors t ++ [U]).
Proof.
  intros linalg_svd pattern w s t s' t' Hsw Hn Hm Hw Hs Ht.
  pose proof Hsw as (Hm' & Hn' & _).
  destruct (harvested_weights s t pattern w Hsw) as (EX & EO & EU).
  assert (ER : correlation_of t w pattern = correlation_of s w pattern)
    by (unfold correlation_of; rewrite EX; reflexivity).
  destruct (drive_reservoir_returns linalg_svd pattern w s s' Hn Hm
              ltac:(lia) Hs)
    as (Ux & Sx & Vt & Hsvd & HX & HR & HU & HS & HP & _).
  destruct (drive_reservoir_returns linalg_svd pattern w t t'
              ltac:(lia) ltac:(lia) ltac:(lia) Ht)
    as (Ux' & Sx' & Vt' & Hsvd' & HX' & HR' & HU' & HS' & HP' & _).
  rewrite ER, Hsvd in Hsvd'. inversion Hsvd'; subst Ux' Sx' Vt'.
  rewrite EX in HX'. rewrite ER in HR'. rewrite EU in HP'.
  exists (harvested_states s pattern w), (correlation_of s w pattern), Ux, Sx,
    (harvested_inputs s pattern w).
  repeat split; assumption.
Qed.

Lemma drive_reservoir_memoryless_example :
  exists X Rm Ux Sx U,
    (x_collectors driven_once = x_collectors reservoir_1_1 ++ [X]
     /\ x_collectors driven_twice = x_collectors driven_once ++ [X])
    /\ (pattern_Rs driven_once = pattern_Rs reservoir_1_1 ++ [Rm]
        /\ pattern_Rs driven_twice = pattern_Rs driven_once ++ [Rm])
    /\ (UR_collectors driven_once = UR_collectors reservoir_1_1 ++ [Ux]
        /\ UR_collectors driven_twice = UR_collectors driven_once ++ [Ux])
    /\ (SR_collectors driven_once = SR_collectors reservoir_1_1 ++ [Sx]
        /\ SR_collectors driven_twice = SR_collectors driven_once ++ [Sx])
    /\ (pattern_collectors driven_once = pattern_collectors reservoir_1_1 ++ [U]
        /\ pattern_collectors driven_twice
           = pattern_collectors driven_once ++ [U]).
Proof.
  destruct driven_once_facts
    as (Rm & Hrun & _ & _ & _ & _ & _ & Hn & Hm & _).
  destruct (drive_one_neuron driven_once unit_pattern 0) as (Hrun2 & _);
    [exact Hn | rewrite Hm; lia | cbv; lia |].
  fold driven_twice in Hrun2.
  apply (drive_reservoir_memoryless diag_svd unit_pattern 0 reservoir_1_1
           driven_once driven_once driven_twice).
  - pose proof (drive_reservoir_same_setup diag_svd unit_pattern 0
                  reservoir_1_1) as [H _].
    fold driven_once in H. exact H.
  - cbv; lia.
  - cbv; lia.
  - cbv; lia.
  - exact Hrun.
  - exact Hrun2.
Defined.

(** ** The regression targets of [compute_W] *)

Lemma shape_column m c M k : shape m c M -> shape m 1 (column M k).
Proof.
  intros [Hl _]. unfold column. split; [rewrite length_map; exact Hl|].
  apply Forall_forall. intros r Hr. apply in_map_iff in Hr.
  destruct Hr as (r0 & <- & _). reflexivity.
Qed.

Lemma shape_state_at s pattern k :
  (0 < size_net s)%nat -> shape (size_net s) (size_net s) (W_star s) ->
  shape (size_net s) 1 (state_at s pattern k).
Proof.
  intros Hn HWs. induction k as [|k IH]; cbn [state_at].
  - apply shape_np_zeros.
  - unfold next_state. apply shape_np_tanh, shape_madd, shape_madd.
    apply (shape_dot (size_net s) (size_net s) 1); assumption.
Qed.

(** The pre-activation of a step, entry by entry. *)
Lemma get_next_state s x u i m :
  (0 < size_net s)%nat -> (0 < m)%nat ->
  shape (size_net s) (size_net s) (W_star s) -> shape (size_net s) m (W_in s) ->
  shape (size_net s) 1 x -> shape m 1 u -> (i < size_net s)%nat ->
  get (next_state s x u) i 0
  = tanh (sum_n (size_net s) (fun k => get (W_star s) i k * get x k 0)
          + sum_n m (fun j => get (W_in s) i j * get u j 0)
          + get (W_bias s) i 0).
Proof.
  intros Hn Hm HWs HWi Hx Hu Hi.
  unfold next_state. rewrite get_np_tanh_any. f_equal.
  assert (HA : shape (size_net s) 1 (dot (W_star s) x))
    by (apply (shape_dot (size_net s) (size_net s) 1); assumption).
  rewrite (get_madd (size_net s) 1) by (try apply shape_madd; (assumption || lia)).
  rewrite (get_madd (size_net s) 1) by (assumption || lia).
  rewrite (get_dot (size_net s) (size_net s) 1) by (assumption || lia).
  rewrite (get_dot (size_net s) m 1) by (assumption || lia).
  reflexivity.
Qed.

(** X18. The targets of the loading regression are the pre-activations
    without the bias: when [np.arctanh] undoes [tanh], after a drive on an
    instance that held no training data the matrix
    [arctanh(X) - W_bias] that [compute_W] regresses on the lagged states
    is [W_star.X_old + W_in.U], for the harvested states [X], lagged states
    [X_old] and inputs [U]. *)
Theorem compute_W_targets_preactivation :
  forall linalg_svd np_arctanh pattern w s s' c,
    (forall x, np_arctanh (tanh x) = x) ->
    (0 < size_net s)%nat -> (0 < size_in s)%nat ->
    shape (size_net s) (size_net s) (W_star s) ->
    shape (size_net s) (size_in s) (W_in s) ->
    shape (size_net s) 1 (W_bias s) ->
    shape (size_in s) c pattern -> (w < c)%nat ->
    all_train_args s = [] -> all_train_old_args s = [] ->
    all_train_outs s = [] ->
    drive_reservoir linalg_svd pattern w s = (Ok tt, s') ->
    W_targets_of np_arctanh (W_bias s') (all_train_args s')
    = madd (dot (W_star s') (all_train_old_args s'))
           (dot (W_in s') (all_train_outs s')).
Proof.
  intros linalg_svd np_arctanh pattern w s s' c Hround Hn Hm HWs HWi HWb Hp Hw
         EA EO EU Hrun.
  assert (Hc : ncols pattern = c) by (apply (shape_ncols (size_in s)); assumption).
  destruct (drive_reservoir_returns linalg_svd pattern w s s' Hn Hm
              ltac:(lia) Hrun)
    as (Ux & Sx & Vt & _ & _ & _ & _ & _ & _ & HA & HO & HU).
  pose proof (drive_reservoir_same_setup linalg_svd pattern w s) as Hset.
  rewrite Hrun in Hset. cbn [snd] in Hset.
  destruct Hset as ((_ & _ & Es & Ei & Eb & _) & _).
  rewrite HA, HO, HU, EA, EO, EU, !aggregate_nil, Es, Ei, Eb.
  set (n := size_net s) in *. set (m := size_in s) in *.
  set (L := (ncols pattern - w)%nat).
  assert (HL : (0 < L)%nat) by (unfold L; lia).
  assert (HX : shape n L (harvested_states s pattern w))
    by apply shape_harvested_states.
  assert (HXo : shape n L (harvested_old_states s pattern w))
    by apply shape_harvested_old_states.
  assert (HXu : shape m L (harvested_inputs s pattern w))
    by apply shape_harvested_inputs.
  assert (HD1 : shape n L (dot (W_star s) (harvested_old_states s pattern w)))
    by (apply (shape_dot n n L); assumption).
  apply (mat_ext n L).
  - apply (shape_W_targets np_arctanh (W_bias s) n); assumption.
  - apply shape_madd. exact HD1.
  - intros i l Hi Hl.
    rewrite (get_W_targets np_arctanh (W_bias s) n Hn HWb L) by assumption.
    rewrite (get_madd n L) by assumption.
    rewrite (get_dot n n L) by assumption.
    rewrite (get_dot n m L) by assumption.
    unfold harvested_states at 1. rewrite get_mk_mat by assumption.
    replace (w + l + 1)%nat with (S (w + l)) by lia. cbn [state_at].
    rewrite (get_next_state s _ _ i m)
      by (try apply shape_state_at; try apply (shape_column m c);
          assumption).
    rewrite Hround. fold n.
    replace (sum_n n (fun k => get (W_star s) i k
                               * get (harvested_old_states s pattern w) k l))
      with (sum_n n (fun k => get (W_star s) i k
                              * get (state_at s pattern (w + l)) k 0)).
    2:{ apply sum_n_ext. intros k Hk. unfold harvested_old_states.
        rewrite get_mk_mat by assumption. reflexivity. }
    replace (sum_n m (fun j => get (W_in s) i j
                               * get (harvested_inputs s pattern w) j l))
      with (sum_n m (fun j => get (W_in s) i j
                              * get (column pattern (w + l)) j 0)).
    2:{ apply sum_n_ext. intros j Hj. unfold harvested_inputs.
        rewrite get_mk_mat by assumption. rewrite get_column. reflexivity. }
    lra.
Qed.

Lemma compute_W_targets_preactivation_example :
  W_targets_of atanh (W_bias driven_once) (all_train_args driven_once)
  = madd (dot (W_star driven_once) (all_train_old_args driven_once))
         (dot (W_in driven_once) (all_train_outs driven_once)).
Proof.
  destruct driven_once_facts as (Rm & Hrun & _).
  apply (compute_W_targets_preactivation diag_svd atanh unit_pattern 0
           reservoir_1_1 driven_once 1).
  - exact atanh_tanh.
  - cbv; lia.
  - cbv; lia.
  - apply shape_singleton.
  - apply shape_singleton.
  - apply shape_singleton.
  - apply shape_singleton.
  - lia.
  - reflexivity.
  - reflexivity.
  - reflexivity.
  - exact Hrun.
Defined.

(** ** [recognition_train] and [recognition_predict] at the edges *)

Lemma ceilZ_1 : ceilZ 1 = 1%Z.
Proof.
  unfold ceilZ.
  assert (E : up (- (1)) = 0%Z)
    by (symmetry; apply tech_up; simpl; lra).
  rewrite E. reflexivity.
Qed.

(** [np.arange(0, 0.01, 0.01)] is the single point [0]. *)
Lemma np_arange_one_point :
  np_arange (INR 0) (INR 0 + 0.01) 0.01 = [INR 0 + INR 0 * 0.01].
Proof.
  unfold np_arange.
  replace ((INR 0 + 0.01 - INR 0) / 0.01) with 1 by (cbn [INR]; lra).
  rewrite ceilZ_1. reflexivity.
Qed.

(** On a single interpolation point the loop body never returns: the
    gradient array is empty and [np.argmax] raises, if nothing raised
    before. *)
Lemma explore_one_point linalg_inv interp1d_cubic PHI apN x0 data s :
  exists e,
    explore linalg_inv interp1d_cubic PHI apN [x0] data s = (Raised e, s)
    /\ (e = LinAlgError \/ e = ValueError).
Proof.
  unfold explore, bind, call.
  destruct (linalg_inv _) as [RI|];
    [|exists LinAlgError; split; [reflexivity | left; reflexivity]].
  unfold ret at 1.
  destruct (interp1d_cubic _ _) as [f|];
    [|exists ValueError; split; [reflexivity | right; reflexivity]].
  unfold ret at 1. cbn [map np_diff tl removelast vsub np_argmax].
  exists ValueError. split; [reflexivity | right; reflexivity].
Qed.

(** [recognition_train], case by case. *)
Lemma recognition_train_cases linalg_inv interp1d_cubic PHI datalist apN
    out_mode s :
  recognition_train linalg_inv interp1d_cubic PHI datalist apN out_mode s
  = match apN with
    | O => (Raised IndexError, s)
    | S k =>
        match collect datalist
                (explore linalg_inv interp1d_cubic PHI apN
                         (np_arange (INR 0) (INR k + 0.01) 0.01)) s with
        | (Raised e, s1) => (Raised e, s1)
        | (Ok triples, s1) =>
            (Ok (if String.eqb out_mode "complete"
                 then Complete
                        (map (fun C_prem => PHI C_prem (np_mean (map snd triples)))
                             (map (fun t => snd (fst t)) triples))
                        (map (fun t => fst (fst t)) triples)
                        (map (fun t => snd (fst t)) triples)
                        (map snd triples)
                 else Simple
                        (map (fun C_prem => PHI C_prem (np_mean (map snd triples)))
                             (map (fun t => snd (fst t)) triples))),
             s1)
        end
    end.
Proof.
  unfold recognition_train.
  destruct apN as [|k]; [reflexivity|].
  unfold bind at 1, index at 1, call at 1.
  rewrite nth_error_exponents by lia.
  unfold ret at 1. unfold bind at 1, index at 1, call at 1.
  rewrite nth_error_exponents by lia.
  unfold ret at 1. unfold bind at 1.
  replace (S k - 1)%nat with k by lia.
  destruct (collect datalist _ s) as [[triples|e] s1]; [|reflexivity].
  destruct (String.eqb out_mode "complete"); reflexivity.
Qed.

(** X19. The edges of the two recognition methods.  With [apN = 0]
    [recognition_train] raises [IndexError] (there is no first exponent);
    with an empty [datalist] and [apN >= 1] it returns empty lists; with
    [apN = 1] and a datum it never returns, since the single interpolation
    point leaves an empty gradient: it raises [LinAlgError] or
    [ValueError].  [recognition_predict] on an empty conceptor list raises
    [ValueError].  None of them changes the instance. *)
Theorem recognition_edges :
  forall linalg_inv interp1d_cubic PHI s out_mode,
    (forall datalist,
        recognition_train linalg_inv interp1d_cubic PHI datalist 0 out_mode s
        = (Raised IndexError, s))
    /\ (forall k,
           recognition_train linalg_inv interp1d_cubic PHI [] (S k) out_mode s
           = (Ok (if String.eqb out_mode "complete"
                  then Complete [] [] [] [] else Simple []), s))
    /\ (forall data datalist,
           exists e,
             recognition_train linalg_inv interp1d_cubic PHI (data :: datalist)
                               1 out_mode s
             = (Raised e, s)
             /\ (e = LinAlgError \/ e = ValueError))
    /\ (forall testdata,
           recognition_predict testdata [] s = (Raised ValueError, s)).
Proof.
  intros linalg_inv interp1d_cubic PHI s out_mode.
  split; [|split; [|split]].
  - intros datalist. rewrite recognition_train_cases. reflexivity.
  - intros k. rewrite recognition_train_cases. cbn [collect]. unfold ret.
    destruct (String.eqb out_mode "complete"); reflexivity.
  - intros data datalist. rewrite recognition_train_cases.
    rewrite np_arange_one_point. cbn [collect]. unfold bind at 1.
    destruct (explore_one_point linalg_inv interp1d_cubic PHI 1
                (INR 0 + INR 0 * 0.01) data s) as (e & He & Hor).
    rewrite He. exists e. split; [reflexivity | exact Hor].
  - intros testdata. reflexivity.
Qed.

(** ** What [recognition_train] returns *)

Lemma collect_length {A B : Type} (f : A -> method B) l : forall s ys s',
  collect l f s = (Ok ys, s') -> length ys = length l.
Proof.
  induction l as [|x t IH]; intros s ys s' H.
  - inversion H. reflexivity.
  - cbn [collect] in H. unfold bind in H.
    destruct (f x s) as [[y|e] s1]; [|discriminate H].
    destruct (collect t f s1) as [[ys'|e] s2] eqn:Et; [|discriminate H].
    unfold ret in H. inversion H; subst. cbn [length].
    rewrite (IH _ _ _ Et). reflexivity.
Qed.

Lemma collect_Forall {A B : Type} (f : A -> method B) (P : B -> Prop) l :
  (forall x s y s', f x s = (Ok y, s') -> P y) ->
  forall s ys s', collect l f s = (Ok ys, s') -> Forall P ys.
Proof.
  intros HP. induction l as [|x t IH]; intros s ys s' H.
  - inversion H. constructor.
  - cbn [collect] in H. unfold bind in H.
    destruct (f x s) as [[y|e] s1] eqn:Ex; [|discriminate H].
    destruct (collect t f s1) as [[ys'|e] s2] eqn:Et; [|discriminate H].
    unfold ret in H. inversion H; subst.
    constructor; [exact (HP _ _ _ _ Ex) | exact (IH _ _ _ Et)].
Qed.

(** X20. What [recognition_train] returns in "complete" mode: the
    instance is unchanged, the four lists hold one entry for each datum,
    every conceptor is [PHI] of its proto-conceptor at one common aperture,
    the mean of the apertures chosen for the data; and in every other mode
    the call returns the conceptor list alone. *)
Theorem recognition_train_outputs :
  forall linalg_inv interp1d_cubic PHI datalist apN s s'
         C_list R_list C_prem_list apt_list,
    recognition_train linalg_inv interp1d_cubic PHI datalist apN "complete" s
    = (Ok (Complete C_list R_list C_prem_list apt_list), s') ->
    s' = s
    /\ length C_list = length datalist
    /\ length R_list = length datalist
    /\ length C_prem_list = length datalist
    /\ length apt_list = length datalist
    /\ C_list = map (fun C_prem => PHI C_prem (np_mean apt_list)) C_prem_list
    /\ (forall out_mode,
           String.eqb out_mode "complete" = false ->
           recognition_train linalg_inv interp1d_cubic PHI datalist apN
                             out_mode s
           = (Ok (Simple C_list), s)).
Proof.
  intros linalg_inv interp1d_cubic PHI datalist apN s s'
         C_list R_list C_prem_list apt_list Hrun.
  pose proof (read_only_recognition_train linalg_inv interp1d_cubic PHI
                datalist apN "complete" s) as Hro.
  rewrite Hrun in Hro. cbn [snd] in Hro. subst s'.
  rewrite recognition_train_cases in Hrun.
  destruct apN as [|k]; [discriminate Hrun|].
  destruct (collect datalist _ s) as [[triples|e] s1] eqn:Ec; [|discriminate Hrun].
  pose proof (collect_length _ _ _ _ _ Ec) as Hlen.
  cbn [String.eqb Ascii.eqb Bool.eqb] in Hrun.
  inversion Hrun; subst. clear Hrun.
  split; [reflexivity|].
  rewrite !length_map. repeat split; try exact Hlen.
  intros out_mode Hmode. rewrite recognition_train_cases, Ec, Hmode.
  reflexivity.
Qed.

(** [recognition_train([unit_pattern], 2, "complete")] returns, with the
    reference inverse, an interpolant that is constantly zero and the
    identity for [PHI]. *)
Lemma recognition_unit_run :
  exists C_list R_list C_prem_list apt_list,
    recognition_train diag_inv (fun _ _ => Some (fun _ => 0)) (fun C _ => C)
                      [unit_pattern] 2 "complete" reservoir_1_1
    = (Ok (Complete C_list R_list C_prem_list apt_list), reservoir_1_1).
Proof.
  set (Rm := mdiv (dot unit_pattern (T unit_pattern)) (INR 1)).
  assert (Hdata : shape 1 1 unit_pattern) by apply shape_singleton.
  assert (HsR : shape 1 1 Rm)
    by (apply (shape_correlation 1 1); (assumption || lia)).
  assert (HpR : psd 1 Rm)
    by (apply (correlation_psd 1 1); try (assumption || lia); simpl; lra).
  pose proof (psd_one_by_one Rm HpR) as Hpos.
  apply (recognition_train_runs diag_inv (fun _ _ => Some (fun _ => 0))
           (fun C _ => C) ltac:(discriminate) [unit_pattern] 2 reservoir_1_1);
    [lia|].
  constructor; [|constructor].
  change (ncols unit_pattern) with 1%nat. fold Rm.
  rewrite (shape_nrows 1 1 Rm HsR).
  apply diag_inv_one_by_one; [apply shape_madd; exact HsR|].
  rewrite (get_madd 1 1) by (assumption || lia).
  rewrite get_np_eye by lia. simpl. lra.
Qed.

Lemma recognition_train_outputs_example :
  exists C_list R_list C_prem_list apt_list,
    recognition_train diag_inv (fun _ _ => Some (fun _ => 0)) (fun C _ => C)
                      [unit_pattern] 2 "complete" reservoir_1_1
    = (Ok (Complete C_list R_list C_prem_list apt_list), reservoir_1_1)
    /\ length C_list = 1%nat /\ length R_list = 1%nat
    /\ length C_prem_list = 1%nat /\ length apt_list = 1%nat
    /\ C_list = map (fun C_prem => (fun C _ => C) C_prem (np_mean apt_list))
                    C_prem_list
    /\ recognition_train diag_inv (fun _ _ => Some (fun _ => 0)) (fun C _ => C)
                         [unit_pattern] 2 "simple" reservoir_1_1
       = (Ok (Simple C_list), reservoir_1_1).
Proof.
  destruct recognition_unit_run as (Cl & Rl & Cpl & al & Hrun).
  exists Cl, Rl, Cpl, al. split; [exact Hrun|].
  destruct (recognition_train_outputs diag_inv (fun _ _ => Some (fun _ => 0))
              (fun C _ => C) [unit_pattern] 2 reservoir_1_1 reservoir_1_1
              Cl Rl Cpl al Hrun)
    as (_ & H1 & H2 & H3 & H4 & H5 & H6).
  repeat split; try assumption.
  apply H6. reflexivity.
Defined.

(** ** The apertures that [recognition_train] chooses *)

Lemma ceilZ_above x i : (i < Z.to_nat (ceilZ x))%nat -> INR i < x.
Proof.
  intros Hi. unfold ceilZ in Hi.
  destruct (archimed (- x)) as [Hup _].
  assert (Hz : (Z.of_nat i < 1 - up (- x))%Z) by lia.
  assert (Hle : (Z.of_nat i <= - up (- x))%Z) by lia.
  apply IZR_le in Hle. rewrite opp_IZR, <- INR_IZR_INZ in Hle. lra.
Qed.

(** The points of [np.arange(start, stop, step)] lie in [[start, stop)]. *)
Lemma np_arange_range start stop step x :
  0 < step -> In x (np_arange start stop step) -> start <= x < stop.
Proof.
  intros Hstep Hin. unfold np_arange in Hin. apply in_map_iff in Hin.
  destruct Hin as (i & <- & Hi). apply in_seq in Hi.
  assert (Hlt : INR i < (stop - start) / step)
    by (apply ceilZ_above; lia).
  pose proof (pos_INR i) as H0.
  split.
  - assert (0 <= INR i * step) by (apply Rmult_le_pos; lra). lra.
  - assert (INR i * step < (stop - start) / step * step)
      by (apply Rmult_lt_compat_r; assumption).
    unfold Rdiv in H. rewrite Rmult_assoc, Rinv_l, Rmult_1_r in H by lra. lra.
Qed.

(** The aperture that the loop body chooses is 2 to the power of one of
    the interpolation points. *)
Lemma explore_aperture linalg_inv interp1d_cubic PHI apN intPts data s y s' :
  explore linalg_inv interp1d_cubic PHI apN intPts data s = (Ok y, s') ->
  exists x, In x intPts /\ snd y = Rpower 2 x.
Proof.
  unfold explore, bind, call. intros H.
  destruct (linalg_inv _) as [RI|]; [|discriminate H].
  unfold ret at 1 in H.
  destruct (interp1d_cubic _ _) as [interpfun|]; [|discriminate H].
  unfold ret at 1 in H.
  destruct (np_argmax _) as [aptind|]; [|discriminate H].
  unfold ret at 1 in H. unfold index, call in H.
  destruct (nth_error intPts aptind) as [x|] eqn:Ex; [|discriminate H].
  unfold ret in H. inversion H; subst. exists x.
  split; [exact (nth_error_In _ _ Ex) | reflexivity].
Qed.

Lemma np_mean_range lo hi l :
  l <> [] -> Forall (fun a => lo <= a < hi) l -> lo <= np_mean l < hi.
Proof.
  intros Hne Hall. unfold np_mean.
  assert (Hsum : lo * INR (length l) <= fold_right Rplus 0 l
                 /\ (l <> [] -> fold_right Rplus 0 l < hi * INR (length l))).
  { clear Hne. induction Hall as [|a t [Ha1 Ha2] Hrest [IH1 IH2]].
    - simpl. split; [lra | intros H; contradiction].
    - cbn [fold_right length]. rewrite S_INR. split; [lra|].
      intros _. destruct t as [|b t'].
      + simpl. lra.
      + assert (b :: t' <> []) by discriminate. specialize (IH2 H). lra. }
  destruct Hsum as [H1 H2]. specialize (H2 Hne).
  assert (Hlen : 0 < INR (length l)).
  { apply lt_0_INR. destruct l; [contradiction | simpl; lia]. }
  split.
  - apply (Rmult_le_reg_r (INR (length l))); [exact Hlen|].
    unfold Rdiv. rewrite Rmult_assoc, Rinv_l by lra. lra.
  - apply (Rmult_lt_reg_r (INR (length l))); [exact Hlen|].
    unfold Rdiv. rewrite Rmult_assoc, Rinv_l by lra. lra.
Qed.

(** X21. The apertures that [recognition_train] chooses lie in the range
    it explores: each entry of [apt_list] is 2 to the power of an
    interpolation point, so at least 1 and below [2^(apN - 1 + 0.01)], and
    so is their mean, the aperture of the conceptors returned, when there
    is a datum. *)
Theorem recognition_train_apertures :
  forall linalg_inv interp1d_cubic PHI datalist apN s s'
         C_list R_list C_prem_list apt_list,
    recognition_train linalg_inv interp1d_cubic PHI datalist apN "complete" s
    = (Ok (Complete C_list R_list C_prem_list apt_list), s') ->
    Forall (fun a => 1 <= a < Rpower 2 (INR (apN - 1) + 0.01)) apt_list
    /\ (datalist <> [] ->
        1 <= np_mean apt_list < Rpower 2 (INR (apN - 1) + 0.01)).
Proof.
  intros linalg_inv interp1d_cubic PHI datalist apN s s'
         C_list R_list C_prem_list apt_list Hrun.
  rewrite recognition_train_cases in Hrun.
  destruct apN as [|k]; [discriminate Hrun|].
  destruct (collect datalist _ s) as [[triples|e] s1] eqn:Ec; [|discriminate Hrun].
  cbn [String.eqb Ascii.eqb Bool.eqb] in Hrun.
  inversion Hrun; subst. clear Hrun.
  replace (S k - 1)%nat with k by lia.
  assert (Hall : Forall (fun a => 1 <= a < Rpower 2 (INR k + 0.01))
                        (map snd triples)).
  { apply Forall_map.
    apply (collect_Forall
             (explore linalg_inv interp1d_cubic PHI (S k)
                      (np_arange (INR 0) (INR k + 0.01) 0.01))
             (fun y => 1 <= snd y < Rpower 2 (INR k + 0.01))
             datalist) with (s := s) (s' := s'); [|exact Ec].
    intros data t y t' Hy.
    destruct (explore_aperture _ _ _ _ _ _ _ _ _ Hy) as (x & Hin & Hx).
    apply np_arange_range in Hin; [|lra].
    change (INR 0) with 0 in Hin. rewrite Hx.
    split.
    - rewrite <- (Rpower_O 2) by lra.
      destruct Hin as [[Hlt|Heq] _].
      + left. apply Rpower_lt; lra.
      + right. rewrite <- Heq. reflexivity.
    - apply Rpower_lt; lra. }
  split; [exact Hall|].
  intros Hne. apply np_mean_range; [|exact Hall].
  pose proof (collect_length _ _ _ _ _ Ec) as Hlen.
  intros E. apply (f_equal (@length R)) in E. rewrite length_map in E.
  cbn [length] in E. destruct datalist; [contradiction | simpl in Hlen; lia].
Qed.

Lemma recognition_train_apertures_example :
  exists C_list R_list C_prem_list apt_list,
    recognition_train diag_inv (fun _ _ => Some (fun _ => 0)) (fun C _ => C)
                      [unit_pattern] 2 "complete" reservoir_1_1
    = (Ok (Complete C_list R_list C_prem_list apt_list), reservoir_1_1)
    /\ Forall (fun a => 1 <= a < Rpower 2 (INR (2 - 1) + 0.01)) apt_list
    /\ ([unit_pattern] <> [] ->
        1 <= np_mean apt_list < Rpower 2 (INR (2 - 1) + 0.01)).
Proof.
  destruct recognition_unit_run as (Cl & Rl & Cpl & al & Hrun).
  exists Cl, Rl, Cpl, al. split; [exact Hrun|].
  exact (recognition_train_apertures diag_inv (fun _ _ => Some (fun _ => 0))
           (fun C _ => C) [unit_pattern] 2 reservoir_1_1 reservoir_1_1
           Cl Rl Cpl al Hrun).
Defined.

(** ** [recognition_predict] on one test column *)

Lemma get_column_vector v i : get (map (fun x => [x]) v) i 0 = nth i v 0.
Proof.
  unfold get. destruct (Nat.lt_ge_cases i (length v)) as [H|H].
  - rewrite nth_indep with (d' := (fun x => [x]) 0) by (rewrite length_map; exact H).
    rewrite (map_nth (fun x : R => [x])). reflexivity.
  - rewrite (nth_overflow (map _ v)) by (rewrite length_map; exact H).
    rewrite (nth_overflow v) by exact H. reflexivity.
Qed.

Lemma shape_column_vector v : shape (length v) 1 (map (fun x => [x]) v).
Proof.
  split; [apply length_map|]. apply Forall_forall. intros r Hr.
  apply in_map_iff in Hr. destruct Hr as (x & <- & _). reflexivity.
Qed.

(** The evidence of one column is the quadratic form of the conceptor. *)
Lemma column_evidence_quad_form v C m :
  length v = m -> (0 < m)%nat -> shape m m C ->
  column_evidence (map (fun x => [x]) v) C 0 = quad_form C v.
Proof.
  intros Hv Hm HC. unfold column_evidence, quad_form, nrows.
  rewrite length_map, Hv. apply sum_n_ext. intros i Hi.
  rewrite get_column_vector.
  rewrite (get_dot m m 1 C (map (fun x => [x]) v))
    by (try (rewrite <- Hv; apply shape_column_vector); (assumption || lia)).
  rewrite <- sum_n_scal_l. apply sum_n_ext. intros j Hj.
  rewrite get_column_vector. ring.
Qed.

(** X22. For test data of a single column [v], the evidence that
    [recognition_predict] computes for a conceptor [C] is the quadratic
    form [v^T.C.v]; the call returns one row [[v^T.C.v]] for each conceptor
    and the index of a conceptor whose quadratic form no other one
    exceeds. *)
Theorem recognition_predict_quadratic_form :
  forall s v C_list m,
    length v = m -> (0 < m)%nat -> C_list <> [] ->
    Forall (shape m m) C_list ->
    exists q,
      recognition_predict (map (fun x => [x]) v) C_list s
      = (Ok ([q], map (fun C => [quad_form C v]) C_list), s)
      /\ (q < length C_list)%nat
      /\ forall C, In C C_list ->
           quad_form C v <= quad_form (nth q C_list []) v.
Proof.
  intros s v C_list m Hv Hm Hne Hall.
  set (td := map (fun x : R => [x]) v).
  assert (Htd : shape m 1 td) by (rewrite <- Hv; apply shape_column_vector).
  assert (Hc : ncols td = 1%nat) by (apply (shape_ncols m); assumption).
  assert (HE : evidence_rows td C_list = map (fun C => [quad_form C v]) C_list).
  { unfold evidence_rows. rewrite Hc. cbn [seq map].
    apply map_ext_in. intros C HC. f_equal.
    rewrite Forall_forall in Hall.
    apply (column_evidence_quad_form v C m); auto. }
  destruct m as [|m']; [lia|].
  destruct (recognition_predict_evidence s td C_list m' 1 Htd Hne)
    as (am & Ham & Hrun).
  destruct (argmax_axis0_spec _ _ Ham) as [Hlen Hmax].
  assert (Hcols : ncols (evidence_rows td C_list) = 1%nat).
  { destruct C_list as [|C0 t]; [contradiction|].
    unfold ncols, evidence_rows. cbn [map hd].
    rewrite length_map, length_seq. exact Hc. }
  assert (Hrows : nrows (evidence_rows td C_list) = length C_list)
    by (unfold nrows, evidence_rows; apply length_map).
  rewrite Hcols in Hlen, Hmax. rewrite Hrows in Hmax.
  destruct am as [|q [|q' am']]; try discriminate Hlen.
  destruct (Hmax 0%nat ltac:(lia)) as [Hq Hle]. cbn [nth] in Hq, Hle.
  exists q. split; [rewrite Hrun, HE; reflexivity|].
  split; [exact Hq|].
  intros C HC. destruct (In_nth _ _ [] HC) as (p & Hp & <-).
  specialize (Hle p Hp).
  rewrite !get_evidence_rows in Hle by (rewrite ?Hc; (assumption || lia)).
  rewrite Forall_forall in Hall.
  rewrite !(column_evidence_quad_form v _ (S m')) in Hle
    by (try apply Hall; try apply nth_In; (assumption || lia)).
  exact Hle.
Qed.

Lemma recognition_predict_quadratic_form_example :
  exists q,
    recognition_predict (map (fun x => [x]) [1; 2]) [np_eye 2; np_zeros 2 2]
                        reservoir_1_1
    = (Ok ([q], map (fun C => [quad_form C [1; 2]]) [np_eye 2; np_zeros 2 2]),
       reservoir_1_1)
    /\ (q < length [np_eye 2; np_zeros 2 2])%nat
    /\ forall C, In C [np_eye 2; np_zeros 2 2] ->
         quad_form C [1; 2] <= quad_form (nth q [np_eye 2; np_zeros 2 2] []) [1; 2].
Proof.
  apply (recognition_predict_quadratic_form reservoir_1_1 [1; 2]
           [np_eye 2; np_zeros 2 2] 2).
  - reflexivity.
  - lia.
  - discriminate.
  - constructor; [apply shape_np_eye|].
    constructor; [apply shape_np_zeros | constructor].
Defined.

(** ** [augment] *)

Lemma shape_repmat_cols n M k : shape n 1 M -> shape n k (repmat_cols M k).
Proof.
  intros [Hl Hr]. unfold repmat_cols. split; [rewrite length_map; exact Hl|].
  apply Forall_forall. intros r Hin. apply in_map_iff in Hin.
  destruct Hin as (r0 & <- & Hr0). rewrite Forall_forall in Hr.
  specialize (Hr r0 Hr0). destruct r0 as [|a [|b r0]]; try discriminate Hr.
  clear. induction k as [|k IH]; [reflexivity|].
  cbn [repeat concat app length]. rewrite IH. reflexivity.
Qed.

Lemma get3_mk_tensor m n p f i j k :
  (i < m)%nat -> (j < n)%nat -> (k < p)%nat ->
  get3 (mk_tensor m n p f) i j k = f i j k.
Proof.
  intros Hi Hj Hk. unfold get3, mk_tensor.
  rewrite (nth_map_seq (fun i => mk_mat n p (f i))) by exact Hi.
  apply get_mk_mat; assumption.
Qed.

Lemma shape_slice3 m n p D k : shape3 m n p D -> shape m n (slice3 D k).
Proof.
  intros [Hl Hall]. unfold slice3. split; [rewrite length_map; exact Hl|].
  apply Forall_forall. intros r Hin. apply in_map_iff in Hin.
  destruct Hin as (M & <- & HM). rewrite Forall_forall in Hall.
  rewrite length_map. exact (proj1 (Hall M HM)).
Qed.

Lemma get_slice3 D i j k : get (slice3 D k) i j = get3 D i j k.
Proof.
  unfold get, slice3, get3, get.
  change (@nil R) with (map (fun v : list R => nth k v 0) []) at 1.
  rewrite (map_nth (map (fun v : list R => nth k v 0))).
  destruct (Nat.lt_ge_cases j (length (nth i D []))) as [H|H].
  - rewrite nth_indep with (d' := (fun v : list R => nth k v 0) [])
      by (rewrite length_map; exact H).
    rewrite (map_nth (fun v : list R => nth k v 0)). reflexivity.
  - rewrite (nth_overflow (map _ _)) by (rewrite length_map; exact H).
    rewrite (nth_overflow (nth i D [])) by exact H.
    destruct k; reflexivity.
Qed.

(** Where the entry [(r, j)] of the reshaped array comes from. *)
Lemma reshape_index n K r j :
  (0 < n)%nat -> (0 < K)%nat -> (r < n * K)%nat ->
  ((r + n * K * j) mod n = r mod n
   /\ (r + n * K * j) / (n * K) = j
   /\ ((r + n * K * j) / n) mod K = r / n)%nat.
Proof.
  intros Hn HK Hr. split; [|split].
  - replace (n * K * j)%nat with (K * j * n)%nat by lia.
    apply Nat.Div0.mod_add.
  - replace (n * K * j)%nat with (j * (n * K))%nat by lia.
    rewrite Nat.div_add by lia. rewrite Nat.div_small by exact Hr. lia.
  - replace (n * K * j)%nat with (K * j * n)%nat by lia.
    rewrite Nat.div_add by lia.
    replace (r / n + K * j)%nat with (r / n + j * K)%nat by lia.
    rewrite Nat.Div0.mod_add. apply Nat.mod_small.
    apply Nat.Div0.div_lt_upper_bound. exact Hr.
Qed.

(** [augment], case by case. *)
Lemma augment_cases x data s :
  augment x data s
  = match dim2 data with
    | O => (Ok None, s)
    | S _ =>
        let datalen := dim1 data in
        let xs :=
          np_tanh (madd (madd (dot (W_star s) (repmat_cols x datalen))
                              (dot (W_in s) (slice3 data 0)))
                        (repmat_cols (W_bias s) datalen)) in
        let resultvec :=
          set_slice3 (size_net s) datalen (dim2 data)
                     (np_zeros3 (size_net s) datalen (dim2 data)) 0 xs in
        match swapaxes_reshape_F (size_net s) datalen (dim2 data)
                                 resultvec datalen with
        | None => (Raised ValueError, s)
        | Some stacked => (Ok (Some (stacked, resultvec)), s)
        end
    end.
Proof.
  unfold augment, bind at 1, self. cbv beta iota zeta.
  destruct (dim2 data) as [|K]; [reflexivity|].
  cbn [seq]. unfold bind, call.
  destruct (swapaxes_reshape_F _ _ _ _ _) as [stacked|]; reflexivity.
Qed.


Lemma shape3_dims m L K data :
  shape3 m L K data -> (0 < m)%nat -> (0 < L)%nat ->
  dim1 data = L /\ dim2 data = K.
Proof.
  intros [Hl Hall] Hm HL. destruct data as [|M0 rest]; [simpl in Hl; lia|].
  pose proof (Forall_inv Hall) as HM0. unfold dim1, dim2. cbn [hd].
  split; [apply (shape_nrows L K); exact HM0
         | apply (shape_ncols L K); assumption].
Qed.

Lemma swapaxes_reshape_F_rows n L K D :
  (0 < L)%nat ->
  swapaxes_reshape_F n L K D L
  = Some (mk_mat (n * K) L
            (fun r j => get3 D ((r + n * K * j) mod n)
                               ((r + n * K * j) / (n * K))
                               (((r + n * K * j) / n) mod K))).
Proof.
  intros HL. unfold swapaxes_reshape_F.
  replace (n * L * K)%nat with (n * K * L)%nat by lia.
  rewrite Nat.Div0.mod_mul, Nat.div_mul by lia.
  destruct (Nat.eqb_spec L 0) as [E|_]; [lia|]. reflexivity.
Qed.

(** X24. On data of shape [(size_in, datalen, K)] with [datalen, K >= 1]
    [augment] returns after the first slice: the array it returns has
    [size_net * K] rows and [datalen] columns; its first [size_net] rows
    hold, column by column, the state [tanh(W_star.x + W_in.u + W_bias)]
    reached in one step from the drawn state [x] on the input [u] of the
    first slice, and all its other rows are zero, as are the slices of
    [resultvec] after the first. *)
Theorem augment_first_slice :
  forall x data s m L K,
    (0 < size_net s)%nat -> (0 < m)%nat -> (0 < L)%nat -> (0 < K)%nat ->
    shape (size_net s) (size_net s) (W_star s) ->
    shape (size_net s) m (W_in s) ->
    shape (size_net s) 1 (W_bias s) ->
    shape (size_net s) 1 x ->
    shape3 m L K data ->
    exists stacked resultvec,
      augment x data s = (Ok (Some (stacked, resultvec)), s)
      /\ shape (size_net s * K) L stacked
      /\ (forall a c, (a < size_net s)%nat -> (c < L)%nat ->
            get stacked a c
            = tanh (sum_n (size_net s) (fun k => get (W_star s) a k * get x k 0)
                    + sum_n m (fun j => get (W_in s) a j * get3 data j c 0)
                    + get (W_bias s) a 0)
            /\ get3 resultvec a c 0 = get stacked a c)
      /\ (forall r c, (size_net s <= r)%nat -> (r < size_net s * K)%nat ->
            (c < L)%nat -> get stacked r c = 0)
      /\ (forall a c k, (a < size_net s)%nat -> (c < L)%nat ->
            (0 < k)%nat -> (k < K)%nat -> get3 resultvec a c k = 0).
Proof.
  intros x data s m L K Hn Hm HL HK HWs HWi HWb Hx Hdata.
  destruct (shape3_dims m L K data Hdata Hm HL) as [Hd1 Hd2].
  set (n := size_net s) in *.
  set (xs := np_tanh (madd (madd (dot (W_star s) (repmat_cols x L))
                                 (dot (W_in s) (slice3 data 0)))
                           (repmat_cols (W_bias s) L))).
  set (Rv := set_slice3 n L K (np_zeros3 n L K) 0 xs).
  assert (Hrun : augment x data s
                 = (Ok (Some (mk_mat (n * K) L
                                (fun r j => get3 Rv ((r + n * K * j) mod n)
                                                 ((r + n * K * j) / (n * K))
                                                 (((r + n * K * j) / n) mod K)),
                              Rv)), s)).
  { rewrite augment_cases, Hd1, Hd2. destruct K as [|K']; [lia|].
    cbv zeta. fold n. fold xs. fold Rv.
    rewrite swapaxes_reshape_F_rows by exact HL. reflexivity. }
  assert (HRv : forall a c k, (a < n)%nat -> (c < L)%nat -> (k < K)%nat ->
                  get3 Rv a c k = if Nat.eqb k 0 then get xs a c else 0).
  { intros a c k Ha Hc Hk. unfold Rv, set_slice3.
    rewrite get3_mk_tensor by assumption.
    destruct (Nat.eqb k 0); [reflexivity|].
    unfold np_zeros3. apply get3_mk_tensor; assumption. }
  assert (Hxs : forall a c, (a < n)%nat -> (c < L)%nat ->
                  get xs a c
                  = tanh (sum_n n (fun k => get (W_star s) a k * get x k 0)
                          + sum_n m (fun j => get (W_in s) a j * get3 data j c 0)
                          + get (W_bias s) a 0)).
  { intros a c Ha Hc. unfold xs. rewrite get_np_tanh_any. f_equal.
    assert (Ht : shape n L (repmat_cols x L)) by (apply shape_repmat_cols; exact Hx).
    assert (Hu : shape m L (slice3 data 0)) by (apply (shape_slice3 m L K); exact Hdata).
    assert (HA : shape n L (dot (W_star s) (repmat_cols x L)))
      by (apply (shape_dot n n L); assumption).
    rewrite (get_madd n L) by (try apply shape_madd; assumption).
    rewrite (get_madd n L) by assumption.
    rewrite (get_dot n n L) by assumption.
    rewrite (get_dot n m L) by assumption.
    rewrite (get_repmat_cols n (W_bias s)) by assumption.
    f_equal. f_equal.
    - apply sum_n_ext. intros k Hk.
      rewrite (get_repmat_cols n x) by assumption. reflexivity.
    - apply sum_n_ext. intros j Hj. rewrite get_slice3. reflexivity. }
  eexists. eexists. split; [exact Hrun|].
  split; [apply shape_mk_mat|].
  split; [|split].
  - intros a c Ha Hc.
    assert (HaK : (a < n * K)%nat) by nia.
    rewrite get_mk_mat by assumption.
    destruct (reshape_index n K a c Hn HK HaK) as (E1 & E2 & E3).
    rewrite E1, E2, E3.
    rewrite Nat.mod_small, Nat.div_small by exact Ha.
    rewrite !HRv by assumption. cbn [Nat.eqb].
    split; [apply Hxs; assumption | reflexivity].
  - intros r c Hr HrK Hc.
    rewrite get_mk_mat by assumption.
    destruct (reshape_index n K r c Hn HK HrK) as (E1 & E2 & E3).
    rewrite E1, E2, E3.
    assert (Hq : (0 < r / n)%nat) by (apply Nat.div_str_pos; lia).
    rewrite HRv.
    + destruct (Nat.eqb_spec (r / n) 0); [lia | reflexivity].
    + apply Nat.mod_upper_bound. lia.
    + exact Hc.
    + apply Nat.Div0.div_lt_upper_bound. exact HrK.
  - intros a c k Ha Hc Hk HkK. rewrite HRv by assumption.
    destruct (Nat.eqb_spec k 0); [lia | reflexivity].
Qed.

(** One slice pair [[1, 2]] on [reservoir_1_1] from the drawn state 0. *)
Lemma augment_first_slice_example :
  exists stacked resultvec,
    augment [[0]] [[[1; 2]]] reservoir_1_1
    = (Ok (Some (stacked, resultvec)), reservoir_1_1)
    /\ shape (size_net reservoir_1_1 * 2) 1 stacked
    /\ (forall a c, (a < size_net reservoir_1_1)%nat -> (c < 1)%nat ->
          get stacked a c
          = tanh (sum_n (size_net reservoir_1_1)
                        (fun k => get (W_star reservoir_1_1) a k * get [[0]] k 0)
                  + sum_n 1 (fun j => get (W_in reservoir_1_1) a j
                                      * get3 [[[1; 2]]] j c 0)
                  + get (W_bias reservoir_1_1) a 0)
          /\ get3 resultvec a c 0 = get stacked a c)
    /\ (forall r c, (size_net reservoir_1_1 <= r)%nat ->
                    (r < size_net reservoir_1_1 * 2)%nat ->
                    (c < 1)%nat -> get stacked r c = 0)
    /\ (forall a c k, (a < size_net reservoir_1_1)%nat -> (c < 1)%nat ->
                      (0 < k)%nat -> (k < 2)%nat -> get3 resultvec a c k = 0).
Proof.
  apply (augment_first_slice [[0]] [[[1; 2]]] reservoir_1_1 1 1 2).
  - cbv; lia.
  - lia.
  - lia.
  - lia.
  - apply shape_singleton.
  - apply shape_singleton.
  - apply shape_singleton.
  - apply shape_singleton.
  - split; [reflexivity|]. constructor; [|constructor].
    split; [reflexivity | repeat constructor].
Defined.

(** ** The columns of the aggregated matrices *)

Lemma drive_reservoir_columns linalg_svd pattern w s s' L :
  (0 < size_net s)%nat -> (0 < size_in s)%nat -> (w < ncols pattern)%nat ->
  aggregated_columns s L ->
  drive_reservoir linalg_svd pattern w s = (Ok tt, s') ->
  aggregated_columns s' (L + (ncols pattern - w)).
Proof.
  intros Hn Hm Hw Hagg Hrun.
  destruct (drive_reservoir_returns linalg_svd pattern w s s' Hn Hm
              ltac:(lia) Hrun)
    as (Ux & Sx & Vt & _ & _ & _ & _ & _ & _ & HA & HO & HU).
  pose proof (drive_reservoir_same_setup linalg_svd pattern w s) as Hset.
  rewrite Hrun in Hset. cbn [snd] in Hset.
  destruct Hset as ((Em & En & _) & _).
  right. rewrite HA, HO, HU, Em, En.
  split; [lia|].
  pose proof (shape_harvested_states s pattern w) as HX.
  pose proof (shape_harvested_old_states s pattern w) as HXo.
  pose proof (shape_harvested_inputs s pattern w) as HXu.
  destruct Hagg as [(-> & -> & -> & ->)|(HL & H1 & H2 & H3)].
  - rewrite !aggregate_nil. cbn [Nat.add].
    split; [exact HX|]. split; [exact HXo | exact HXu].
  - rewrite (aggregate_shaped (size_net s) L), (aggregate_shaped (size_net s) L),
      (aggregate_shaped (size_in s) L) by assumption.
    split; [|split]; apply shape_hstack; assumption.
Qed.

Lemma for_each_drive_columns linalg_svd w patterns : forall t t' L,
  (0 < size_net t)%nat -> (0 < size_in t)%nat ->
  Forall (fun p => (w < ncols p)%nat) patterns ->
  aggregated_columns t L ->
  for_each patterns (fun p => drive_reservoir linalg_svd p w) t = (Ok tt, t') ->
  aggregated_columns t' (L + list_sum (map (fun p => ncols p - w)%nat patterns)).
Proof.
  induction patterns as [|p ps IH]; intros t t' L Hn Hm Hall Hagg Hrun.
  - cbn [for_each] in Hrun. unfold ret in Hrun. inversion Hrun; subst t'.
    cbn [map list_sum fold_right]. rewrite Nat.add_0_r. exact Hagg.
  - cbn [for_each] in Hrun. unfold bind in Hrun.
    destruct (drive_reservoir linalg_svd p w t) as [[[]|e] t1] eqn:E1;
      [|discriminate Hrun].
    pose proof (drive_reservoir_same_setup linalg_svd p w t) as Hset.
    rewrite E1 in Hset. cbn [snd] in Hset.
    destruct Hset as ((Em & En & _) & _).
    pose proof (Forall_inv Hall) as Hp.
    pose proof (Forall_inv_tail Hall) as Hps.
    pose proof (drive_reservoir_columns linalg_svd p w t t1 L Hn Hm Hp Hagg E1)
      as Hagg1.
    specialize (IH t1 t' _ ltac:(lia) ltac:(lia) Hps Hagg1 Hrun).
    cbn [map list_sum fold_right].
    rewrite Nat.add_assoc. exact IH.
Qed.

(** X25. The three aggregated matrices grow together: when they were
    empty or held [L] columns each, after a [train] that returns on
    patterns longer than the washout they hold [L] plus the retained steps
    of all the patterns, one column for each, in all three. *)
Theorem train_columns :
  forall linalg_inv linalg_svd np_arctanh patterns w s s' L,
    (0 < size_net s)%nat -> (0 < size_in s)%nat ->
    Forall (fun p => (w < ncols p)%nat) patterns ->
    aggregated_columns s L ->
    train linalg_inv linalg_svd np_arctanh patterns w s = (Ok tt, s') ->
    aggregated_columns s'
      (L + list_sum (map (fun p => ncols p - w)%nat patterns)).
Proof.
  intros linalg_inv linalg_svd np_arctanh patterns w s s' L Hn Hm Hall Hagg Hrun.
  rewrite train_cases in Hrun.
  destruct (for_each patterns _ s) as [[[]|e] t] eqn:Hloop; [|discriminate Hrun].
  pose proof (for_each_drive_columns linalg_svd w patterns s t L Hn Hm Hall
                Hagg Hloop) as Ht.
  rewrite compute_W_out_cases in Hrun.
  destruct (linalg_inv _) as [A|]; [|discriminate Hrun].
  rewrite compute_W_cases in Hrun.
  cbn [all_train_args all_train_old_args size_net W_bias varrho_w set_W_out]
    in Hrun.
  destruct (all_train_args t) as [|r rs] eqn:EA; [discriminate Hrun|].
  destruct (linalg_inv _) as [B|]; [|discriminate Hrun].
  inversion Hrun; subst s'. clear Hrun.
  unfold aggregated_columns in *.
  cbn [all_train_args all_train_old_args all_train_outs size_net size_in
       set_W set_W_out].
  exact Ht.
Qed.

Lemma train_columns_example :
  exists s',
    train diag_inv diag_svd (fun x => x) [unit_pattern] 0 reservoir_1_1
    = (Ok tt, s')
    /\ aggregated_columns s'
         (0 + list_sum (map (fun p => ncols p - 0)%nat [unit_pattern])).
Proof.
  destruct train_unit_run as (s' & Hrun).
  exists s'. split; [exact Hrun|].
  apply (train_columns diag_inv diag_svd (fun x => x) [unit_pattern] 0
           reservoir_1_1 s' 0).
  - cbv; lia.
  - cbv; lia.
  - constructor; [cbv; lia | constructor].
  - left. repeat split.
  - exact Hrun.
Defined.

(** ** A [train] that a drive interrupts *)

Lemma for_each_drive_same_setup linalg_svd w patterns : forall t,
  same_setup t
    (snd (for_each patterns (fun p => drive_reservoir linalg_svd p w) t)).
Proof.
  induction patterns as [|p ps IH]; intros t; [apply same_setup_refl|].
  cbn [for_each]. unfold bind.
  pose proof (drive_reservoir_same_setup linalg_svd p w t) as H1.
  destruct (drive_reservoir linalg_svd p w t) as [[[]|e] t1]; cbn [snd] in *.
  - apply (same_setup_trans _ t1); [exact H1 | apply IH].
  - exact H1.
Qed.

(** The counter never goes down in a loop of drives. *)
Lemma for_each_drive_counter linalg_svd w patterns : forall t,
  (num_pattern t
   <= num_pattern
        (snd (for_each patterns (fun p => drive_reservoir linalg_svd p w) t)))%nat.
Proof.
  induction patterns as [|p ps IH]; intros t; [cbn [for_each ret snd]; lia|].
  cbn [for_each]. unfold bind. rewrite drive_reservoir_cases.
  destruct (Nat.ltb (ncols p) w); [cbn [snd]; lia|].
  cbv zeta. destruct (linalg_svd _) as [[[Ux Sx] Vt]|].
  - specialize (IH (driven t p w Ux Sx)).
    assert (E : num_pattern (driven t p w Ux Sx) = (num_pattern t + 1)%nat)
      by reflexivity.
    lia.
  - cbn [snd num_pattern set_x_collectors]. lia.
Qed.

(** X26. When one of its drives raises, [train] raises the same exception
    without running the regressions: [W_out], [W] and the bundle are what
    they were before the call, while the records of the patterns driven
    before the failing one stay (the counter is not below its earlier
    value). *)
Theorem train_interrupted :
  forall linalg_inv linalg_svd np_arctanh patterns w s e t,
    for_each patterns (fun p => drive_reservoir linalg_svd p w) s
    = (Raised e, t) ->
    train linalg_inv linalg_svd np_arctanh patterns w s = (Raised e, t)
    /\ W_out t = W_out s /\ W t = W s /\ Cs t = Cs s
    /\ (num_pattern s <= num_pattern t)%nat.
Proof.
  intros linalg_inv linalg_svd np_arctanh patterns w s e t Hloop.
  split; [rewrite train_cases, Hloop; reflexivity|].
  pose proof (for_each_drive_same_setup linalg_svd w patterns s) as Hset.
  rewrite Hloop in Hset. cbn [snd] in Hset.
  destruct Hset as (_ & _ & _ & _ & Ho & Hw & HC).
  split; [exact Ho|]. split; [exact Hw|]. split; [exact HC|].
  pose proof (for_each_drive_counter linalg_svd w patterns s) as Hnum.
  rewrite Hloop in Hnum. exact Hnum.
Qed.

(** The second pattern is shorter than the washout: the first one stays
    recorded and nothing is trained. *)
Lemma train_interrupted_example :
  exists t,
    drive_reservoir diag_svd zero_pattern_10 2 reservoir_1_1 = (Ok tt, t)
    /\ train diag_inv diag_svd (fun x => x) [zero_pattern_10; unit_pattern] 2
             reservoir_1_1
       = (Raised ValueError, t)
    /\ W_out t = W_out reservoir_1_1
    /\ W t = W reservoir_1_1
    /\ Cs t = Cs reservoir_1_1
    /\ (num_pattern reservoir_1_1 <= num_pattern t)%nat.
Proof.
  destruct (drive_one_neuron reservoir_1_1 zero_pattern_10 2) as (Hrun & _);
    [reflexivity | cbv; lia | cbv; lia |].
  set (t := snd (drive_reservoir diag_svd zero_pattern_10 2 reservoir_1_1)) in Hrun.
  clearbody t. exists t. split; [exact Hrun|].
  apply (train_interrupted diag_inv diag_svd (fun x => x)
           [zero_pattern_10; unit_pattern] 2 reservoir_1_1 ValueError t).
  cbn [for_each]. unfold bind at 1. rewrite Hrun.
  unfold bind. rewrite drive_reservoir_cases. reflexivity.
Defined.
